(** * A shallow embedding of [triangulation.py]

    The development follows the four classes of the source file:
    [Vertex], [VertexCache], [Cell] and [Complex].

    Modelling conventions.
    - Python objects are kept in stores indexed by allocation order: a
      [Vertex] reference is an address into the list of vertices that the
      cache has allocated, a [Cell] reference is an address into the list
      of cells.  Object identity ([is], and [==] / [in] for classes that do
      not define [__eq__]) is equality of addresses.
    - Coordinates are exact rationals ([Qc]); a coordinate key is a list of
      them.  Python compares the tuples [(0, 0)] and [(0.0, 0.0)] equal and
      hashes them alike, which Leibniz equality on [list Qc] reproduces.
      The arithmetic on coordinates is that of numpy, on [float64] or
      [int64] arrays, and it is not exact.  The centroid [(a + b)/2.0] of a
      cell rounds (and the sum [a + b] of two [int64] coordinates wraps), so
      the model does not compute it: it is the parameter [half_sum] of the
      model, about which nothing is assumed.  One function stands for both
      kinds of arrays; they give one result unless an integer coordinate
      exceeds [2^53] in absolute value.  The corner [a - a*u + b*u] of a
      cell is computed by the source for the vertices [u] of the initial
      cell only, whose coordinates are 0 or 1; there it is [a] or [b] in
      machine arithmetic as in the rationals (away from overflow and
      non-finite values), and the model writes it with the operations of
      [Qc].  The attribute [order] of a vertex, [sum(x)], is written with
      the exact sum; the source only prints it, and no statement depends on
      its value.
    - Python iterates a set in an order that the model cannot know.  Where
      the source lists the neighbours of a vertex ([graph_map]) the order
      is the parameter [nn_order] of the model, about which nothing is
      assumed; where it tests them all ([minimiser]) the answer does not
      depend on the order and the model takes the order of [elements].
    - Python code mutates its objects and may raise at any point; every
      method is a function from the state to an outcome (an exception or a
      value) together with the state reached, so the mutations made before
      an exception stay visible. *)

From Stdlib Require Import QArith Qcanon ZArith.
From stdpp Require Import numbers countable gmap fin_maps list.

#[local] Set Warnings "-clear-no-such-hyp".

(** ** Exceptions and the state-and-exception monad *)

(** The Python exceptions the modelled code can raise, [OtherError] for
    any other exception an objective function raises.  [BadRef] and
    [OutOfFuel] have no Python counterpart: the first is the outcome of
    dereferencing an address that was never allocated, the second of a
    recursion that exhausts the depth bound given to it.  Neither is
    reachable from a constructed complex (see [Complex_init_total]). *)
Inductive exn : Set :=
  | TypeError | IndexError | KeyError | ValueError | AttributeError
  | OtherError (tag : nat)
  | BadRef | OutOfFuel.

Global Instance exn_eq_dec : EqDecision exn.
Proof. solve_decision. Defined.

Definition M (St A : Type) : Type := St → (exn + A) * St.

Definition ret {St A} (a : A) : M St A := λ s, (inr a, s).
Definition raise {St A} (e : exn) : M St A := λ s, (inl e, s).
Definition bind {St A B} (m : M St A) (k : A → M St B) : M St B :=
  λ s, match m s with
       | (inr a, s') => k a s'
       | (inl e, s') => (inl e, s')
       end.
Definition get {St} : M St St := λ s, (inr s, s).
Definition gets {St A} (p : St → A) : M St A := λ s, (inr (p s), s).
Definition put {St} (s : St) : M St unit := λ _, (inr tt, s).
Definition modify {St} (g : St → St) : M St unit := λ s, (inr tt, g s).

(** [try: m except e: pass] *)
Definition try_pass {St} (e : exn) (m : M St unit) : M St unit :=
  λ s, match m s with
       | (inl e', s') => if decide (e' = e) then (inr tt, s') else (inl e', s')
       | r => r
       end.

(** Run a method of a component object inside the object that owns it. *)
Definition zoom {St T A} (proj : St → T) (upd : T → St → St) (m : M T A) : M St A :=
  λ s, let '(r, t) := m (proj s) in (r, upd t s).

(** An option read from the state; [None] raises [e]. *)
Definition from_option {St A} (e : exn) (o : option A) : M St A :=
  match o with Some a => ret a | None => raise e end.

Declare Scope m_scope.
Delimit Scope m_scope with m.
Notation "x <- m ;; k" := (bind m (λ x, k))
  (at level 100, m at next level, right associativity) : m_scope.
Notation "m ;;; k" := (bind m (λ _, k))
  (at level 100, right associativity) : m_scope.
Local Open Scope m_scope.

(** [for x in l: body(x)] *)
Fixpoint for_each {St A} (l : list A) (body : A → M St unit) : M St unit :=
  match l with
  | [] => ret tt
  | a :: l' => body a ;;; for_each l' body
  end.

(** [[body(x) for x in l]] *)
Fixpoint for_collect {St A B} (l : list A) (body : A → M St B) : M St (list B) :=
  match l with
  | [] => ret []
  | a :: l' => b <- body a ;; bs <- for_collect l' body ;; ret (b :: bs)
  end.

(** ** Coordinates *)

Abbreviation key := (list Qc).
Abbreviation addr := nat.

Local Open Scope Qc_scope.

(** [numpy.array(a) op numpy.array(b)] on one-dimensional arrays: equal
    lengths combine elementwise, a length-one array is broadcast, any other
    pair of shapes raises [ValueError]. *)
Definition broadcast2 (op : Qc → Qc → Qc) (a b : key) : exn + key :=
  if decide (length a = length b) then inr (zip_with op a b)
  else match a, b with
       | [a0], _ => inr (map (op a0) b)
       | _, [b0] => inr (map (λ y, op y b0) a)
       | _, _ => inl ValueError
       end.

Definition exn_bind {A B} (r : exn + A) (k : A → exn + B) : exn + B :=
  match r with inl e => inl e | inr a => k a end.

(** [generate_sub_cell_t1]: [v_o - v_o * numpy.array(v_x)].  The
    [lru_cache] decorator only memoises a pure function. *)
Definition generate_sub_cell_t1 (origin v_x : key) : exn + key :=
  exn_bind (broadcast2 Qcmult origin v_x) (λ p, broadcast2 Qcminus origin p).

(** [generate_sub_cell_t2]: [v_s * numpy.array(v_x)]. *)
Definition generate_sub_cell_t2 (suprenum v_x : key) : exn + key :=
  broadcast2 Qcmult suprenum v_x.

(** [sum(x)] *)
Definition sum_key (k : key) : Qc := foldr Qcplus 0 k.

(** An order of iteration over sets of vertices: for the vertex at an
    address and the list of its neighbours that are still to come, the
    position in that list (modulo its length) of the one that comes
    next. *)
Record set_order : Type := mkOrder { next_of : addr → list addr → nat }.

(** ** Vertex *)

Section Model.

(** The type of objective values with the comparison [<=] the source
    applies to them, and the objective itself.  [func x] stands for the
    call [func(x_a, *func_args)] of [Vertex.__init__], where [x_a] is
    the array derived from the key [x] and the bounds of the cache; the
    objective is assumed deterministic, and [inl e] records that the call
    raises [e]. *)
Context {value : Type}.
Variable leb : value → value → bool.
Variable func : key → exn + value.

(** [half_sum a b] is the coordinate [(a + b)/2.0] as numpy computes it
    from the coordinates [a] and [b]: the sum in the arithmetic of the
    arrays, the division in [float64]. *)
Variable half_sum : Qc → Qc → Qc.

(** The order in which the neighbours of a vertex are iterated, see
    [iteration] below; nothing is assumed about it. *)
Variable nn_order : set_order.

(** The attributes of a [Vertex] object ([fval], always [None], is left
    out).  [v_min] is [None] until the attribute [min] is first assigned. *)
Record Vertex : Type := mkVertex {
  v_x : key;
  v_order : Qc;
  v_f : value;
  v_nn : gset addr;
  v_check_min : bool;
  v_min : option bool;
  v_I : Z
}.

Definition set_nn (g : gset addr → gset addr) (v : Vertex) : Vertex :=
  mkVertex (v_x v) (v_order v) (v_f v) (g (v_nn v)) (v_check_min v) (v_min v) (v_I v).
Definition set_min (m : option bool) (v : Vertex) : Vertex :=
  mkVertex (v_x v) (v_order v) (v_f v) (v_nn v) (v_check_min v) m (v_I v).
Definition set_check_min (b : bool) (v : Vertex) : Vertex :=
  mkVertex (v_x v) (v_order v) (v_f v) (v_nn v) b (v_min v) (v_I v).

(** The vertex objects allocated so far. *)
Abbreviation heap := (list Vertex).

Definition deref (a : addr) : M heap Vertex :=
  h <- get ;; from_option BadRef (h !! a).

Definition update (a : addr) (g : Vertex → Vertex) : M heap unit :=
  v <- deref a ;; modify (λ h, <[a := g v]> h).

(** [all(fv <= w.f for w in ns)] *)
Fixpoint all_le (h : heap) (fv : value) (ns : list addr) : exn + bool :=
  match ns with
  | [] => inr true
  | w :: ns' =>
      match h !! w with
      | None => inl BadRef
      | Some vw => if leb fv (v_f vw) then all_le h fv ns' else inr false
      end
  end.

(** [Vertex.minimiser].  The neighbours are tested in the order of
    [elements]; the answer of [all] over references that are valid does not
    depend on the order. *)
Definition minimiser (a : addr) : M heap bool :=
  va <- deref a ;;
  if v_check_min va then
    h <- get ;;
    match all_le h (v_f va) (elements (v_nn va)) with
    | inl e => raise e
    | inr m =>
        update a (set_min (Some m)) ;;;
        update a (set_check_min false) ;;;
        ret m
    end
  else from_option AttributeError (v_min va).

(** [Vertex.connect]: [self] is [a], [v] is [b]. *)
Definition connect (a b : addr) : M heap unit :=
  va <- deref a ;;
  if bool_decide (b ≠ a) && bool_decide (b ∉ v_nn va) then
    update a (set_nn (λ s, s ∪ {[b]})) ;;;
    update b (set_nn (λ s, s ∪ {[a]})) ;;;
    m <- minimiser a ;;
    if m then
      update b (set_min (Some false)) ;;;
      update b (set_check_min false)
    else ret tt
  else ret tt.

(** [Vertex.disconnect]; [set.remove] raises [KeyError] on a missing
    element. *)
Definition disconnect (a b : addr) : M heap unit :=
  va <- deref a ;;
  if bool_decide (b ∈ v_nn va) then
    update a (set_nn (λ s, s ∖ {[b]})) ;;;
    vb <- deref b ;;
    (if bool_decide (a ∈ v_nn vb) then update b (set_nn (λ s, s ∖ {[a]}))
     else raise KeyError) ;;;
    update a (set_check_min true)
  else ret tt.

(** ** VertexCache *)

(** The cache dictionary with the attribute [Index], together with the
    vertex objects it has allocated ([vc_objs]; every [Vertex] of a complex
    is created by its cache).  [vc_calls] is a ghost log of the keys at
    which the objective has been called. *)
Record VertexCache : Type := mkCache {
  vc_objs : heap;
  vc_cache : gmap key addr;
  vc_Index : Z;
  vc_calls : list key
}.

(** [VertexCache.__init__] with [indexed=True]. *)
Definition VertexCache_init : VertexCache := mkCache [] ∅ (-1) [].

Definition from_result {St A} (r : exn + A) : M St A :=
  match r with inl e => raise e | inr a => ret a end.

(** [Vertex.__init__] as the cache calls it: the objective is called once,
    the neighbour set is empty and [check_min] is set. *)
Definition Vertex_init (x : key) (I : Z) : M VertexCache Vertex :=
  modify (λ c, mkCache (vc_objs c) (vc_cache c) (vc_Index c) (vc_calls c ++ [x])) ;;;
  fx <- from_result (func x) ;;
  ret (mkVertex x (sum_key x) fx ∅ true None I).

(** [VertexCache.__getitem__] *)
Definition getitem (x : key) : M VertexCache addr :=
  c <- get ;;
  match vc_cache c !! x with
  | Some a => ret a
  | None =>
      modify (λ c, mkCache (vc_objs c) (vc_cache c) (vc_Index c + 1) (vc_calls c)) ;;;
      I <- gets vc_Index ;;
      xval <- Vertex_init x I ;;
      c' <- get ;;
      put (mkCache (vc_objs c' ++ [xval]) (<[x := length (vc_objs c')]> (vc_cache c'))
                   (vc_Index c') (vc_calls c')) ;;;
      ret (length (vc_objs c'))
  end.

(** A step in the life of a cache: a lookup, or a method called on one of
    its vertices by whoever holds a reference to it. *)
Inductive cache_op : Type :=
  | Lookup (x : key)
  | Connect (a b : addr)
  | Disconnect (a b : addr)
  | Minimiser (a : addr).

Definition on_objs {A} (m : M heap A) : M VertexCache A :=
  zoom vc_objs (λ h c, mkCache h (vc_cache c) (vc_Index c) (vc_calls c)) m.

Definition run_op (op : cache_op) : M VertexCache (option addr) :=
  match op with
  | Lookup x => a <- getitem x ;; ret (Some a)
  | Connect a b => on_objs (connect a b) ;;; ret None
  | Disconnect a b => on_objs (disconnect a b) ;;; ret None
  | Minimiser a => on_objs (minimiser a) ;;; ret None
  end.

(** A whole life: the outcome of every step, and the cache at the end.  A
    step that raises leaves the cache as it was when the exception left
    it, and the next step runs from there. *)
Fixpoint run_ops (ops : list cache_op) (c : VertexCache)
    : list (exn + option addr) * VertexCache :=
  match ops with
  | [] => ([], c)
  | op :: ops' =>
      let '(r, c1) := run_op op c in
      let '(rs, c2) := run_ops ops' c1 in
      (r :: rs, c2)
  end.

(** How many times the objective has been called at [x]. *)
Definition calls_at (x : key) (c : VertexCache) : nat :=
  length (filter (λ y, y = x) (vc_calls c)).

(** ** Cell *)

(** The attributes of a [Cell] ([hg_d], always [None], is left out);
    [c_C] is the list [self.C] of vertex references. *)
Record Cell : Type := mkCell {
  c_p_gen : nat;
  c_p_hgr : option nat;
  c_p_hgr_h : nat;
  c_hg_n : option nat;
  c_C : list addr;
  c_origin : key;
  c_suprenum : key;
  c_centroid : option key
}.

Definition set_C (l : list addr) (c : Cell) : Cell :=
  mkCell (c_p_gen c) (c_p_hgr c) (c_p_hgr_h c) (c_hg_n c) l
         (c_origin c) (c_suprenum c) (c_centroid c).
Definition set_hg_n (n : option nat) (c : Cell) : Cell :=
  mkCell (c_p_gen c) (c_p_hgr c) (c_p_hgr_h c) n (c_C c)
         (c_origin c) (c_suprenum c) (c_centroid c).
Definition set_centroid (k : option key) (c : Cell) : Cell :=
  mkCell (c_p_gen c) (c_p_hgr c) (c_p_hgr_h c) (c_hg_n c) (c_C c)
         (c_origin c) (c_suprenum c) k.

(** ** Complex *)

(** The attributes of a [Complex] that the modelled methods read
    ([perm_cycle] and [performance] are written once and never read), with
    the cell objects allocated so far ([hc_cells]).  [hc_H] and [hc_C0] hold
    references into [hc_cells]. *)
Record Complex : Type := mkComplex {
  hc_dim : Z;
  hc_symmetry : bool;
  hc_gen : nat;
  hc_H : list (list addr);
  hc_V : VertexCache;
  hc_cells : list Cell;
  hc_origin : key;
  hc_suprenum : key;
  hc_C0 : addr;
  hc_centroid : option key;
  hc_hgr : nat;
  hc_hgrd : Z;
  hc_graph : list (list Z)
}.

Definition set_gen (g : nat) (s : Complex) : Complex :=
  mkComplex (hc_dim s) (hc_symmetry s) g (hc_H s) (hc_V s) (hc_cells s)
    (hc_origin s) (hc_suprenum s) (hc_C0 s) (hc_centroid s) (hc_hgr s) (hc_hgrd s) (hc_graph s).
Definition set_H (H : list (list addr)) (s : Complex) : Complex :=
  mkComplex (hc_dim s) (hc_symmetry s) (hc_gen s) H (hc_V s) (hc_cells s)
    (hc_origin s) (hc_suprenum s) (hc_C0 s) (hc_centroid s) (hc_hgr s) (hc_hgrd s) (hc_graph s).
Definition set_V (V : VertexCache) (s : Complex) : Complex :=
  mkComplex (hc_dim s) (hc_symmetry s) (hc_gen s) (hc_H s) V (hc_cells s)
    (hc_origin s) (hc_suprenum s) (hc_C0 s) (hc_centroid s) (hc_hgr s) (hc_hgrd s) (hc_graph s).
Definition set_cells (cs : list Cell) (s : Complex) : Complex :=
  mkComplex (hc_dim s) (hc_symmetry s) (hc_gen s) (hc_H s) (hc_V s) cs
    (hc_origin s) (hc_suprenum s) (hc_C0 s) (hc_centroid s) (hc_hgr s) (hc_hgrd s) (hc_graph s).
Definition set_corners (o sp : key) (s : Complex) : Complex :=
  mkComplex (hc_dim s) (hc_symmetry s) (hc_gen s) (hc_H s) (hc_V s) (hc_cells s)
    o sp (hc_C0 s) (hc_centroid s) (hc_hgr s) (hc_hgrd s) (hc_graph s).
Definition set_C0 (c : addr) (s : Complex) : Complex :=
  mkComplex (hc_dim s) (hc_symmetry s) (hc_gen s) (hc_H s) (hc_V s) (hc_cells s)
    (hc_origin s) (hc_suprenum s) c (hc_centroid s) (hc_hgr s) (hc_hgrd s) (hc_graph s).
Definition set_hc_centroid (k : option key) (s : Complex) : Complex :=
  mkComplex (hc_dim s) (hc_symmetry s) (hc_gen s) (hc_H s) (hc_V s) (hc_cells s)
    (hc_origin s) (hc_suprenum s) (hc_C0 s) k (hc_hgr s) (hc_hgrd s) (hc_graph s).
Definition set_hgr (n : nat) (d : Z) (s : Complex) : Complex :=
  mkComplex (hc_dim s) (hc_symmetry s) (hc_gen s) (hc_H s) (hc_V s) (hc_cells s)
    (hc_origin s) (hc_suprenum s) (hc_C0 s) (hc_centroid s) n d (hc_graph s).
Definition set_graph (g : list (list Z)) (s : Complex) : Complex :=
  mkComplex (hc_dim s) (hc_symmetry s) (hc_gen s) (hc_H s) (hc_V s) (hc_cells s)
    (hc_origin s) (hc_suprenum s) (hc_C0 s) (hc_centroid s) (hc_hgr s) (hc_hgrd s) g.

(** [self.V[x]] *)
Definition V_get (x : key) : M Complex addr := zoom hc_V set_V (getitem x).

(** A method of a vertex of the complex. *)
Definition on_heap {A} (m : M heap A) : M Complex A :=
  zoom (λ s, vc_objs (hc_V s))
       (λ h s, set_V (mkCache h (vc_cache (hc_V s)) (vc_Index (hc_V s)) (vc_calls (hc_V s))) s)
       m.

Definition cell_deref (c : addr) : M Complex Cell :=
  s <- get ;; from_option BadRef (hc_cells s !! c).

Definition cell_update (c : addr) (g : Cell → Cell) : M Complex unit :=
  cell <- cell_deref c ;; modify (λ s, set_cells (<[c := g cell]> (hc_cells s)) s).

(** [Cell(p_gen, p_hgr, p_hgr_h, origin, suprenum)] *)
Definition new_cell (p_gen : nat) (p_hgr : option nat) (p_hgr_h : nat)
    (origin suprenum : key) : M Complex addr :=
  s <- get ;;
  put (set_cells (hc_cells s ++ [mkCell p_gen p_hgr p_hgr_h None [] origin suprenum None]) s) ;;;
  ret (length (hc_cells s)).

(** [Cell.add_vertex] *)
Definition add_vertex (c : addr) (a : addr) : M Complex unit :=
  cell <- cell_deref c ;;
  if bool_decide (a ∈ c_C cell) then ret tt
  else cell_update c (set_C (c_C cell ++ [a])).

(** [for v in self.C: if v.minimiser(): hg_n += 1] *)
Fixpoint count_minimisers (l : list addr) (hg_n : nat) : M Complex nat :=
  match l with
  | [] => ret hg_n
  | a :: l' =>
      m <- on_heap (minimiser a) ;;
      count_minimisers l' (if m then S hg_n else hg_n)
  end.

(** [Cell.homology_group_rank] *)
Definition homology_group_rank (c : addr) : M Complex nat :=
  cell <- cell_deref c ;;
  match c_hg_n cell with
  | Some n => ret n
  | None =>
      n <- count_minimisers (c_C cell) 0 ;;
      cell_update c (set_hg_n (Some n)) ;;;
      ret n
  end.

(** [xi2 = copy.copy(xi); xi2[i] = 1] *)
Definition list_set (xi : key) (i : nat) (y : Qc) : exn + key :=
  if decide (i < length xi)%nat then inr (<[i := y]> xi) else inl IndexError.

(** [l[j]] for a Python integer [j]: negative indices count from the
    end. *)
Definition py_index {A} (l : list A) (j : Z) : option A :=
  if decide (0 ≤ j)%Z then l !! Z.to_nat j
  else if decide (0 ≤ Z.of_nat (length l) + j)%Z then l !! Z.to_nat (Z.of_nat (length l) + j)
  else None.

(** [[x for x in range(self.dim) if x not in i_parents]] *)
Definition iter_range (dim : Z) (i_parents : list nat) : list nat :=
  filter (λ i, i ∉ i_parents) (seq 0 (Z.to_nat dim)).

(** The body shared by [perm] and [perm_symmetry]: add the vertex at
    [xi2] to the initial cell and connect it to [xi] and to every
    parent. *)
Definition add_and_connect (xi2 xi : key) (x_parents : list key) : M Complex unit :=
  c0 <- gets hc_C0 ;;
  a <- V_get xi2 ;;
  add_vertex c0 a ;;;
  a1 <- V_get xi2 ;;
  a2 <- V_get xi ;;
  on_heap (connect a1 a2) ;;;
  for_each x_parents (λ x_ip,
    a1 <- V_get xi2 ;;
    a2 <- V_get x_ip ;;
    on_heap (connect a1 a2)).

(** [Complex.perm].  The recursion is as deep as the number of coordinates
    not yet flipped; [fuel] bounds the depth. *)
Fixpoint perm (fuel : nat) (i_parents : list nat) (x_parents : list key) (xi : key)
    : M Complex unit :=
  d <- gets hc_dim ;;
  for_each (iter_range d i_parents) (λ i,
    let i2_parents := i_parents ++ [i] in
    xi2 <- from_result (list_set xi i 1) ;;
    add_and_connect xi2 xi x_parents ;;;
    let x_parents2 := x_parents ++ [xi] in
    match fuel with
    | O => raise OutOfFuel
    | S fuel' => perm fuel' i2_parents x_parents2 xi2
    end).

(** [Complex.perm_symmetry] *)
Fixpoint perm_symmetry (fuel : nat) (i_s : nat) (x_parents : list key) (xi : key)
    : M Complex unit :=
  xi2 <- from_result (list_set xi i_s 1) ;;
  add_and_connect xi2 xi x_parents ;;;
  let x_parents2 := x_parents ++ [xi] in
  let i_s := S i_s in
  d <- gets hc_dim ;;
  if bool_decide (Z.of_nat i_s = d) then ret tt
  else match fuel with
       | O => raise OutOfFuel
       | S fuel' => perm_symmetry fuel' i_s x_parents2 xi2
       end.

(** [Complex.n_cube]; [numpy.zeros] raises [ValueError] for a negative
    dimension.  The printout does not change the state. *)
Definition n_cube (dim : Z) (symmetry : bool) : M Complex unit :=
  (if decide (dim < 0)%Z then raise ValueError else ret tt) ;;;
  let origin : key := replicate (Z.to_nat dim) 0 in
  let supremum : key := replicate (Z.to_nat dim) 1 in
  modify (set_corners origin supremum) ;;;
  c0 <- new_cell 0 (Some 0%nat) 0 origin supremum ;;
  modify (set_C0 c0) ;;;
  a <- V_get origin ;;
  add_vertex c0 a ;;;
  a <- V_get supremum ;;
  add_vertex c0 a ;;;
  let x_parents := [origin] in
  if symmetry then perm_symmetry (Z.to_nat dim) 0 x_parents origin
  else perm (Z.to_nat dim) [] x_parents origin.

(** [for v2 in v.nn]: Python iterates the set [v.nn] in the order of its
    hash table, which depends on the addresses of the objects and on the
    history of the set, not on its elements alone.  The order is taken from
    [nn_order], so that [iteration a X], the neighbours [X] of the vertex
    at address [a] as they are iterated, can be any order of the elements
    of [X]. *)
Fixpoint arrange (a : addr) (n : nat) (l : list addr) : list addr :=
  match n with
  | O => []
  | S n =>
      let i := Nat.modulo (next_of nn_order a l) (length l) in
      match l !! i with
      | Some w => w :: arrange a n (delete i l)
      | None => []
      end
  end.

Definition iteration (a : addr) (X : gset addr) : list addr :=
  arrange a (size X) (elements X).

(** [Complex.graph_map].  The rows list the indices [v2.I] of the
    neighbours in the order in which the set [v.nn] is iterated. *)
Definition graph_map : M Complex unit :=
  c0 <- gets hc_C0 ;;
  cell <- cell_deref c0 ;;
  rows <- for_collect (c_C cell) (λ a,
            v <- on_heap (deref a) ;;
            for_collect (iteration a (v_nn v)) (λ w,
              v2 <- on_heap (deref w) ;; ret (v_I v2))) ;;
  modify (set_graph rows).

(** [Complex.__init__], on the object whose attributes have been given
    their first values. *)
Definition blank (dim : Z) (symmetry : bool) : Complex :=
  mkComplex dim symmetry 0 [] VertexCache_init [] [] [] 0%nat None 0 0 [].

Definition init_body : M Complex unit :=
  dim <- gets hc_dim ;;
  symmetry <- gets hc_symmetry ;;
  n_cube dim symmetry ;;;
  (if symmetry then
     c0 <- gets hc_C0 ;;
     cell <- cell_deref c0 ;;
     a <- from_option IndexError (list.last (c_C cell)) ;;
     v <- on_heap (deref a) ;;
     modify (set_hc_centroid (Some (v_x v))) ;;;
     cell_update c0 (set_centroid (Some (v_x v)))
   else ret tt) ;;;
  modify (λ s, set_H (hc_H s ++ [[]]) s) ;;;
  c0 <- gets hc_C0 ;;
  H <- gets hc_H ;;
  row <- from_option IndexError (H !! 0%nat) ;;
  modify (set_H (<[0%nat := row ++ [c0]]> H)) ;;;
  n <- homology_group_rank c0 ;;
  modify (set_hgr n 0) ;;;
  graph_map.

(** The constructor returns the object only when no exception is raised. *)
Definition Complex_init (dim : Z) (symmetry : bool) : exn + Complex :=
  match init_body (blank dim symmetry) with
  | (inr _, s) => inr s
  | (inl e, _) => inl e
  end.

(** The first loop of [construct_hypercube]: the affine image of every
    vertex of the initial cell but the last, added to the new cell; the
    result is the list [V_new] before the centroid is appended. *)
Definition build_V_new (c_new : addr) (origin suprenum : key) : M Complex (list key) :=
  c0 <- gets hc_C0 ;;
  cell0 <- cell_deref c0 ;;
  for_collect (removelast (c_C cell0)) (λ a,
    v <- on_heap (deref a) ;;
    t1 <- from_result (generate_sub_cell_t1 origin (v_x v)) ;;
    t2 <- from_result (generate_sub_cell_t2 suprenum (v_x v)) ;;
    vec <- from_result (broadcast2 Qcplus t1 t2) ;;
    av <- V_get vec ;;
    add_vertex c_new av ;;;
    ret vec).

(** [for i, connections in enumerate(graph)], from row [i] on. *)
Fixpoint for_rows {St} (i : nat) (rows : list (list Z))
    (body : nat → list Z → M St unit) : M St unit :=
  match rows with
  | [] => ret tt
  | connections :: rows' => body i connections ;;; for_rows (S i) rows' body
  end.

(** The second loop of [construct_hypercube]: the adjacency template is
    replayed on [V_new]. *)
Definition replay_graph (V_new : list key) : M Complex unit :=
  g <- gets hc_graph ;;
  for_rows 0 g (λ i connections,
    for_each connections (λ j,
      ki <- from_option IndexError (V_new !! i) ;;
      a1 <- V_get ki ;;
      kj <- from_option IndexError (py_index V_new j) ;;
      a2 <- V_get kj ;;
      on_heap (connect a1 a2))).

(** [tuple((numpy.array(origin) + numpy.array(suprenum))/2.0)]: the two
    arrays are added and halved elementwise, under numpy's broadcasting. *)
Definition midpoint (origin suprenum : key) : exn + key :=
  broadcast2 half_sum origin suprenum.

(** [Complex.construct_hypercube] *)
Definition construct_hypercube (origin suprenum : key) (gen : nat)
    (hgr : option nat) (p_hgr_h : nat) : M Complex addr :=
  c_new <- new_cell gen hgr p_hgr_h origin suprenum ;;
  centroid <- from_result (midpoint origin suprenum) ;;
  cell_update c_new (set_centroid (Some centroid)) ;;;
  V_new <- build_V_new c_new origin suprenum ;;
  ac <- V_get centroid ;;
  add_vertex c_new ac ;;;
  let V_new := V_new ++ [centroid] in
  replay_graph V_new ;;;
  H <- gets hc_H ;;
  row <- from_option IndexError (H !! gen) ;;
  modify (set_H (<[gen := row ++ [c_new]]> H)) ;;;
  ret c_new.

(** The last loop of [sub_generate_cell], which leaves at the row of the
    centroid. *)
Fixpoint disconnect_rows (C_i : addr) (centroid_index : Z) (i : nat)
    (rows : list (list Z)) : M Complex unit :=
  match rows with
  | [] => ret tt
  | connections :: rows' =>
      if bool_decide (Z.of_nat i = centroid_index) then ret tt
      else
        for_each connections (λ j,
          cell <- cell_deref C_i ;;
          a1 <- from_option IndexError (c_C cell !! i) ;;
          a2 <- from_option IndexError (py_index (c_C cell) j) ;;
          on_heap (disconnect a1 a2)) ;;;
        disconnect_rows C_i centroid_index (S i) rows'
  end.

(** [Complex.sub_generate_cell] *)
Definition sub_generate_cell (C_i : addr) (gen : nat) : M Complex (list addr) :=
  cell <- cell_deref C_i ;;
  origin_new <- from_option TypeError (c_centroid cell) ;;
  let centroid_index := (Z.of_nat (length (c_C cell)) - 1)%Z in
  H <- gets hc_H ;;
  (if decide (gen < length H)%nat then ret tt
   else modify (set_H (H ++ [[]]))) ;;;
  H_new <- for_collect (removelast (c_C cell)) (λ a,
             v <- on_heap (deref a) ;;
             cell <- cell_deref C_i ;;
             construct_hypercube origin_new (v_x v) gen (c_hg_n cell) (c_p_hgr_h cell)) ;;
  g <- gets hc_graph ;;
  disconnect_rows C_i centroid_index 0 g ;;;
  ret H_new.

(** The loop of [split_generation] over the cells of the current
    generation. *)
Definition split_cells : M Complex unit :=
  gen <- gets hc_gen ;;
  H <- gets hc_H ;;
  row <- from_option IndexError (H !! gen) ;;
  for_each row (λ c,
    gen <- gets hc_gen ;;
    sub_generate_cell c (gen + 1) ;;;
    ret tt).

(** [Complex.split_generation] *)
Definition split_generation : M Complex unit :=
  try_pass IndexError split_cells ;;;
  modify (λ s, set_gen (hc_gen s + 1) s).

(** [Complex.complex_homology_group_rank] *)
Definition complex_homology_group_rank : M Complex nat :=
  p_hgr <- gets hc_hgr ;;
  modify (λ s, set_hgr 0 (hc_hgrd s) s) ;;;
  gen <- gets hc_gen ;;
  H <- gets hc_H ;;
  row <- from_option IndexError (H !! gen) ;;
  for_each row (λ c,
    n <- homology_group_rank c ;;
    modify (λ s, set_hgr (hc_hgr s + n) (hc_hgrd s) s)) ;;;
  hgr <- gets hc_hgr ;;
  modify (λ s, set_hgr (hc_hgr s) (Z.of_nat hgr - Z.of_nat p_hgr) s) ;;;
  ret hgr.

(** *** Well-formed heaps

    References held in neighbour sets point to allocated vertices, and a
    clean cache ([check_min] false) always has its [min] attribute
    assigned.  Python guarantees the first by construction; the second holds
    because [check_min] is only cleared right after [min] is assigned. *)
Definition vertex_ok (n : nat) (v : Vertex) : Prop :=
  set_Forall (λ w, w < n)%nat (v_nn v) ∧ (v_check_min v = false → is_Some (v_min v)).

Definition heap_ok (h : heap) : Prop := Forall (vertex_ok (length h)) h.

Global Instance vertex_ok_dec n v : Decision (vertex_ok n v).
Proof. unfold vertex_ok. apply _. Defined.

Global Instance heap_ok_dec h : Decision (heap_ok h).
Proof. unfold heap_ok. apply _. Defined.

(** What no method of [Vertex] ever changes. *)
Definition same_id (v v' : Vertex) : Prop :=
  v_x v' = v_x v ∧ v_order v' = v_order v ∧ v_f v' = v_f v ∧ v_I v' = v_I v.

Definition nn_of (h : heap) (a : addr) : gset addr :=
  match h !! a with Some v => v_nn v | None => ∅ end.

(** The data-model invariant: an edge is in both endpoints' sets or in
    neither. *)
Definition symmetric_nn (h : heap) : Prop :=
  ∀ a b, b ∈ nn_of h a → a ∈ nn_of h b.

(** The specification of the predicate: the value of the vertex is below
    or equal to the value of every current neighbour. *)
Definition is_local_min (h : heap) (a : addr) : Prop :=
  ∀ va, h !! a = Some va →
    ∀ w vw, w ∈ v_nn va → h !! w = Some vw → leb (v_f va) (v_f vw) = true.

Lemma same_id_refl v : same_id v v.
Proof. by repeat split. Qed.

Lemma same_id_trans v1 v2 v3 : same_id v1 v2 → same_id v2 v3 → same_id v1 v3.
Proof. unfold same_id. intros (?&?&?&?) (?&?&?&?). repeat split; congruence. Qed.

Lemma all_le_total h fv ns :
  (∀ w, w ∈ ns → w < length h)%nat → ∃ m, all_le h fv ns = inr m.
Proof.
  induction ns as [|w ns IH]; intros Hns; simpl; [by eexists|].
  destruct (lookup_lt_is_Some_2 h w) as [vw Hw]; [apply Hns; left|].
  rewrite Hw. destruct (leb fv (v_f vw)); [|by eexists].
  apply IH. intros w' Hw'. apply Hns. by right.
Qed.

Lemma all_le_true h fv ns :
  all_le h fv ns = inr true ↔
  ∀ w, w ∈ ns → ∃ vw, h !! w = Some vw ∧ leb fv (v_f vw) = true.
Proof.
  induction ns as [|w ns IH]; simpl.
  - split; [intros _ w Hw; by apply elem_of_nil in Hw|done].
  - destruct (h !! w) as [vw|] eqn:Hw.
    + destruct (leb fv (v_f vw)) eqn:Hle.
      * rewrite IH. split.
        -- intros Hall w' [->|Hw']%elem_of_cons; eauto.
        -- intros Hall w' Hw'. apply Hall. by right.
      * split; [done|]. intros Hall.
        destruct (Hall w) as (vw' & Hw' & Hle'); [left|]. congruence.
    + split; [done|]. intros Hall.
      destruct (Hall w) as (vw' & Hw' & _); [left|]. congruence.
Qed.

(** *** The methods as equations on a heap *)

Lemma bind_ok {St A B} (m : M St A) (k : A → M St B) s a s' :
  m s = (inr a, s') → bind m k s = k a s'.
Proof. unfold bind. by intros ->. Qed.

Lemma bind_raise {St A B} (m : M St A) (k : A → M St B) s e s' :
  m s = (inl e, s') → bind m k s = (inl e, s').
Proof. unfold bind. by intros ->. Qed.

Lemma deref_eq (h : heap) a v : h !! a = Some v → deref a h = (inr v, h).
Proof. unfold deref, bind, get, from_option. by intros ->. Qed.

Lemma deref_bad (h : heap) a : h !! a = None → deref a h = (inl BadRef, h).
Proof. unfold deref, bind, get, from_option. by intros ->. Qed.

Lemma update_eq (h : heap) a v g :
  h !! a = Some v → update a g h = (inr tt, <[a := g v]> h).
Proof. intros Ha. unfold update. by rewrite (bind_ok _ _ _ _ _ (deref_eq _ _ _ Ha)). Qed.

Definition cleaned (m : bool) (v : Vertex) : Vertex :=
  set_check_min false (set_min (Some m) v).

Lemma minimiser_eq (h : heap) a va :
  h !! a = Some va →
  minimiser a h =
    if v_check_min va then
      match all_le h (v_f va) (elements (v_nn va)) with
      | inl e => (inl e, h)
      | inr m => (inr m, <[a := cleaned m va]> h)
      end
    else match v_min va with
         | Some m => (inr m, h)
         | None => (inl AttributeError, h)
         end.
Proof.
  intros Ha. unfold minimiser.
  rewrite (bind_ok _ _ _ _ _ (deref_eq _ _ _ Ha)).
  destruct (v_check_min va); [|by destruct (v_min va)].
  unfold bind at 1, get at 1.
  destruct (all_le h (v_f va) (elements (v_nn va))) as [e|m]; [done|].
  assert (a < length h)%nat as Hlt by (by eapply lookup_lt_Some).
  rewrite (bind_ok _ _ _ _ _ (update_eq _ _ _ _ Ha)).
  erewrite bind_ok; last by apply update_eq, list_lookup_insert_eq.
  by rewrite list_insert_insert_eq.
Qed.

(** The heap after the two insertions of a [connect] that adds the edge. *)
Definition linked (a b : addr) (va vb : Vertex) (h : heap) : heap :=
  <[b := set_nn (λ s, s ∪ {[a]}) vb]> (<[a := set_nn (λ s, s ∪ {[b]}) va]> h).

Lemma connect_noop (h : heap) a b va :
  h !! a = Some va → b = a ∨ b ∈ v_nn va → connect a b h = (inr tt, h).
Proof.
  intros Ha Hab. unfold connect.
  rewrite (bind_ok _ _ _ _ _ (deref_eq _ _ _ Ha)).
  destruct Hab as [->|Hin].
  - by rewrite bool_decide_eq_false_2 by (by intros ?).
  - rewrite (bool_decide_eq_false_2 (b ∉ _)) by (by intros ?).
    by rewrite andb_false_r.
Qed.

Lemma connect_eq (h : heap) a b va vb :
  h !! a = Some va → h !! b = Some vb → b ≠ a → b ∉ v_nn va →
  connect a b h =
    match minimiser a (linked a b va vb h) with
    | (inl e, h') => (inl e, h')
    | (inr false, h') => (inr tt, h')
    | (inr true, h') =>
        match h' !! b with
        | Some vb' => (inr tt, <[b := cleaned false vb']> h')
        | None => (inl BadRef, h')
        end
    end.
Proof.
  intros Ha Hb Hne Hnin. unfold connect.
  rewrite (bind_ok _ _ _ _ _ (deref_eq _ _ _ Ha)).
  rewrite !bool_decide_eq_true_2 by done. simpl.
  rewrite (bind_ok _ _ _ _ _ (update_eq _ _ _ _ Ha)).
  erewrite bind_ok; last first.
  { apply update_eq. rewrite list_lookup_insert_ne by done. exact Hb. }
  fold (linked a b va vb h). unfold bind at 1.
  destruct (minimiser a (linked a b va vb h)) as [[e|[]] h']; [done| |done].
  destruct (h' !! b) as [vb'|] eqn:Hb'.
  - rewrite (bind_ok _ _ _ _ _ (update_eq _ _ _ _ Hb')).
    assert (b < length h')%nat by (by eapply lookup_lt_Some).
    erewrite update_eq; last by apply list_lookup_insert_eq.
    by rewrite list_insert_insert_eq.
  - erewrite bind_raise; [done|]. unfold update.
    by rewrite (bind_raise _ _ _ _ _ (deref_bad _ _ Hb')).
Qed.

Lemma disconnect_noop (h : heap) a b va :
  h !! a = Some va → b ∉ v_nn va → disconnect a b h = (inr tt, h).
Proof.
  intros Ha Hab. unfold disconnect.
  rewrite (bind_ok _ _ _ _ _ (deref_eq _ _ _ Ha)).
  by rewrite bool_decide_eq_false_2.
Qed.

Lemma disconnect_eq (h : heap) a b va vb :
  h !! a = Some va → h !! b = Some vb → b ≠ a → b ∈ v_nn va → a ∈ v_nn vb →
  disconnect a b h =
    (inr tt, <[a := set_check_min true (set_nn (λ s, s ∖ {[b]}) va)]>
               (<[b := set_nn (λ s, s ∖ {[a]}) vb]> h)).
Proof.
  intros Ha Hb Hne Hin Hin'. unfold disconnect.
  assert (a < length h)%nat as Hlt by (by eapply lookup_lt_Some).
  rewrite (bind_ok _ _ _ _ _ (deref_eq _ _ _ Ha)).
  rewrite bool_decide_eq_true_2 by done.
  rewrite (bind_ok _ _ _ _ _ (update_eq _ _ _ _ Ha)).
  erewrite bind_ok; last first.
  { apply deref_eq. rewrite list_lookup_insert_ne by done. exact Hb. }
  rewrite bool_decide_eq_true_2 by done.
  erewrite bind_ok; last first.
  { apply update_eq. rewrite list_lookup_insert_ne by done. exact Hb. }
  erewrite update_eq; last first.
  { rewrite list_lookup_insert_ne by done. by apply list_lookup_insert_eq. }
  f_equal. rewrite (list_insert_insert_ne h b a) by done.
  by rewrite list_insert_insert_eq.
Qed.

(** *** What the methods preserve

    [ids h] is the part of the heap no method changes, [graph_of h] the
    adjacency structure. *)
Definition ids (h : heap) : list (key * Qc * value * Z) :=
  (λ v, (v_x v, v_order v, v_f v, v_I v)) <$> h.

Definition graph_of (h : heap) : list (gset addr) := v_nn <$> h.

Lemma ids_insert (h : heap) a v v' :
  h !! a = Some v → same_id v v' → ids (<[a := v']> h) = ids h.
Proof.
  intros Ha (Hx & Ho & Hf & HI). unfold ids. rewrite list_fmap_insert.
  apply list_insert_id. rewrite list_lookup_fmap, Ha. simpl. congruence.
Qed.

Lemma graph_of_insert (h : heap) a v :
  graph_of (<[a := v]> h) = <[a := v_nn v]> (graph_of h).
Proof. unfold graph_of. by rewrite list_fmap_insert. Qed.

Lemma graph_of_insert_same (h : heap) a v v' :
  h !! a = Some v → v_nn v' = v_nn v → graph_of (<[a := v']> h) = graph_of h.
Proof.
  intros Ha Hnn. rewrite graph_of_insert. apply list_insert_id.
  unfold graph_of. rewrite list_lookup_fmap, Ha. simpl. congruence.
Qed.

Lemma nn_of_graph (h : heap) a : nn_of h a = default ∅ (graph_of h !! a).
Proof. unfold nn_of, graph_of. rewrite list_lookup_fmap. by destruct (h !! a). Qed.

Lemma ids_length (h h' : heap) : ids h' = ids h → length h' = length h.
Proof. intros Hids. apply (f_equal length) in Hids. unfold ids in Hids. by rewrite !length_fmap in Hids. Qed.

Lemma ids_lookup (h h' : heap) a v :
  ids h' = ids h → h !! a = Some v → ∃ v', h' !! a = Some v' ∧ same_id v v'.
Proof.
  intros Hids Ha. apply (f_equal (λ l, l !! a)) in Hids. unfold ids in Hids.
  rewrite !list_lookup_fmap, Ha in Hids. destruct (h' !! a) as [v'|]; [|done].
  simpl in Hids. exists v'. split; [done|]. unfold same_id. by simplify_eq.
Qed.

Lemma heap_ok_lookup (h : heap) a v : heap_ok h → h !! a = Some v → vertex_ok (length h) v.
Proof. intros Hok Ha. eapply Forall_lookup_1; eauto. Qed.

Lemma heap_ok_insert (h : heap) a v :
  heap_ok h → vertex_ok (length h) v → heap_ok (<[a := v]> h).
Proof.
  intros Hok Hv. unfold heap_ok. rewrite length_insert. by apply Forall_insert.
Qed.

Lemma minimiser_spec (h : heap) a va :
  heap_ok h → h !! a = Some va →
  ∃ m h', minimiser a h = (inr m, h') ∧ heap_ok h' ∧
    ids h' = ids h ∧ graph_of h' = graph_of h ∧
    (∃ va', h' !! a = Some va' ∧ v_check_min va' = false ∧ v_min va' = Some m) ∧
    (∀ c, c ≠ a → h' !! c = h !! c) ∧
    (v_check_min va = true → (m = true ↔ is_local_min h a)).
Proof.
  intros Hok Ha. rewrite (minimiser_eq _ _ _ Ha).
  destruct (heap_ok_lookup _ _ _ Hok Ha) as [Hnn Hmin].
  destruct (v_check_min va) eqn:Hc.
  - destruct (all_le_total h (v_f va) (elements (v_nn va))) as [m Hm].
    { intros w Hw. apply Hnn. by apply elem_of_elements. }
    rewrite Hm. exists m, (<[a := cleaned m va]> h).
    assert (a < length h)%nat by (by eapply lookup_lt_Some).
    split_and!; [done| | | | | |].
    + apply heap_ok_insert; [done|]. split; [done|]. by eexists.
    + by apply (ids_insert _ _ va).
    + by apply (graph_of_insert_same _ _ va).
    + exists (cleaned m va). by rewrite list_lookup_insert_eq.
    + intros c Hca. by rewrite list_lookup_insert_ne.
    + intros _. destruct m.
      * split; [intros _|done]. intros va0 Ha0 w vw Hw Hvw.
        assert (va0 = va) as -> by congruence.
        apply all_le_true with (w := w) in Hm as (vw' & Hvw' & Hle);
          [congruence|by apply elem_of_elements].
      * split; [done|]. intros Hloc.
        assert (all_le h (v_f va) (elements (v_nn va)) = inr true); [|congruence].
        apply all_le_true. intros w Hw%elem_of_elements.
        destruct (lookup_lt_is_Some_2 h w) as [vw Hvw]; [by apply Hnn|].
        exists vw. split; [done|]. by eapply Hloc.
  - destruct (Hmin eq_refl) as [m Hm]. rewrite Hm. exists m, h.
    split_and!; try done. exists va. by rewrite Hc.
Qed.

Lemma connect_spec (h : heap) a b va vb :
  heap_ok h → h !! a = Some va → h !! b = Some vb →
  ∃ h', connect a b h = (inr tt, h') ∧ heap_ok h' ∧ ids h' = ids h ∧
    graph_of h' =
      (if bool_decide (b ≠ a ∧ b ∉ v_nn va)
       then <[b := v_nn vb ∪ {[a]}]> (<[a := v_nn va ∪ {[b]}]> (graph_of h))
       else graph_of h).
Proof.
  intros Hok Ha Hb.
  assert (a < length h)%nat as Hla by (by eapply lookup_lt_Some).
  assert (b < length h)%nat as Hlb by (by eapply lookup_lt_Some).
  destruct (decide (b ≠ a ∧ b ∉ v_nn va)) as [[Hne Hnin]|Hno].
  - rewrite bool_decide_eq_true_2 by done.
    rewrite (connect_eq _ _ _ _ _ Ha Hb Hne Hnin).
    destruct (heap_ok_lookup _ _ _ Hok Ha) as [Hnna Hma].
    destruct (heap_ok_lookup _ _ _ Hok Hb) as [Hnnb Hmb].
    assert (heap_ok (linked a b va vb h)) as Hok1.
    { unfold linked. apply heap_ok_insert; [apply heap_ok_insert; [done|]|].
      - split; [|done]. simpl. intros w [?| ->%elem_of_singleton]%elem_of_union; auto.
      - rewrite length_insert. split; [|done]. simpl.
        intros w [?| ->%elem_of_singleton]%elem_of_union; auto. }
    assert (ids (linked a b va vb h) = ids h) as Hids1.
    { unfold linked. rewrite (ids_insert _ _ vb).
      - by apply (ids_insert _ _ va).
      - by rewrite list_lookup_insert_ne.
      - done. }
    assert (graph_of (linked a b va vb h)
            = <[b := v_nn vb ∪ {[a]}]> (<[a := v_nn va ∪ {[b]}]> (graph_of h))) as Hg1.
    { unfold linked. by rewrite !graph_of_insert. }
    assert (linked a b va vb h !! a = Some (set_nn (λ s, s ∪ {[b]}) va)) as Ha1.
    { unfold linked. rewrite list_lookup_insert_ne by done.
      by apply list_lookup_insert_eq. }
    destruct (minimiser_spec _ _ _ Hok1 Ha1)
      as (m & h2 & -> & Hok2 & Hids2 & Hg2 & _ & _ & _).
    destruct m.
    + destruct (lookup_lt_is_Some_2 h2 b) as [vb' Hb'].
      { by rewrite (ids_length _ _ Hids2), (ids_length _ _ Hids1). }
      rewrite Hb'. eexists. split; [done|]. split_and!.
      * apply heap_ok_insert; [done|].
        destruct (heap_ok_lookup _ _ _ Hok2 Hb') as [? _].
        split; [done|]. by eexists.
      * rewrite (ids_insert _ _ vb') by done. congruence.
      * rewrite (graph_of_insert_same _ _ vb') by done. congruence.
    + eexists. split; [done|]. split_and!; [done|congruence|congruence].
  - rewrite bool_decide_eq_false_2 by done.
    exists h. split; [|done]. apply (connect_noop _ _ _ va); [done|].
    destruct (decide (b = a)); [by left|right].
    destruct (decide (b ∈ v_nn va)); [done|]. by destruct Hno.
Qed.

Lemma disconnect_spec (h : heap) a b va vb :
  heap_ok h → h !! a = Some va → h !! b = Some vb →
  (b ∈ v_nn va → b ≠ a ∧ a ∈ v_nn vb) →
  ∃ h', disconnect a b h = (inr tt, h') ∧ heap_ok h' ∧ ids h' = ids h ∧
    graph_of h' =
      (if bool_decide (b ∈ v_nn va)
       then <[a := v_nn va ∖ {[b]}]> (<[b := v_nn vb ∖ {[a]}]> (graph_of h))
       else graph_of h).
Proof.
  intros Hok Ha Hb Hsym.
  destruct (decide (b ∈ v_nn va)) as [Hin|Hnin].
  - destruct (Hsym Hin) as [Hne Hin'].
    rewrite bool_decide_eq_true_2 by done.
    rewrite (disconnect_eq _ _ _ _ _ Ha Hb Hne Hin Hin').
    destruct (heap_ok_lookup _ _ _ Hok Ha) as [Hnna Hma].
    destruct (heap_ok_lookup _ _ _ Hok Hb) as [Hnnb Hmb].
    eexists. split; [done|]. split_and!.
    + apply heap_ok_insert; [apply heap_ok_insert; [done|]|].
      * split; [|done]. simpl. intros w [? _]%elem_of_difference; auto.
      * rewrite length_insert. split; [|done]. simpl.
        intros w [? _]%elem_of_difference; auto.
    + rewrite (ids_insert _ _ va).
      * by apply (ids_insert _ _ vb).
      * by rewrite list_lookup_insert_ne.
      * done.
    + by rewrite !graph_of_insert.
  - rewrite bool_decide_eq_false_2 by done.
    exists h. split; [|done]. by apply (disconnect_noop _ _ _ va).
Qed.

(** ** Properties of [Vertex] *)

(** C8. For distinct vertices [a] and [b] of a heap in which the edge is
    in both neighbour sets or in neither, [connect] returns with [b] among
    the neighbours of [a] and [a] among those of [b]; it changes nothing
    when the two are already adjacent, nor when called on a vertex and
    itself; and when it did insert the edge, a following [disconnect]
    returns with both neighbour sets (indeed the whole graph) as they were
    before the [connect]. *)
Theorem connect_then_disconnect (h : heap) a b va vb :
  heap_ok h → h !! a = Some va → h !! b = Some vb → a ≠ b →
  (b ∈ v_nn va ↔ a ∈ v_nn vb) →
  ∃ h1, connect a b h = (inr tt, h1) ∧
    b ∈ nn_of h1 a ∧ a ∈ nn_of h1 b ∧
    (b ∈ v_nn va → h1 = h) ∧
    connect a a h = (inr tt, h) ∧
    (b ∉ v_nn va →
       ∃ h2, disconnect a b h1 = (inr tt, h2) ∧
         nn_of h2 a = v_nn va ∧ nn_of h2 b = v_nn vb ∧
         graph_of h2 = graph_of h).
Proof.
  intros Hok Ha Hb Hne Hsym.
  assert (a < length h)%nat as Hla by (by eapply lookup_lt_Some).
  assert (b < length h)%nat as Hlb by (by eapply lookup_lt_Some).
  assert (graph_of h !! a = Some (v_nn va)) as Hga.
  { unfold graph_of. by rewrite list_lookup_fmap, Ha. }
  assert (graph_of h !! b = Some (v_nn vb)) as Hgb.
  { unfold graph_of. by rewrite list_lookup_fmap, Hb. }
  assert (length (graph_of h) = length h) as Hlen.
  { unfold graph_of. by rewrite length_fmap. }
  destruct (connect_spec h a b va vb Hok Ha Hb) as (h1 & Hc & Hok1 & Hids1 & Hg1).
  exists h1. split; [done|].
  destruct (decide (b ∈ v_nn va)) as [Hin|Hnin].
  - rewrite bool_decide_eq_false_2 in Hg1 by (intros [_ ?]; done).
    assert (h1 = h) as ->.
    { rewrite (connect_noop h a b va) in Hc by auto. congruence. }
    split_and!.
    + unfold nn_of. by rewrite Ha.
    + unfold nn_of. rewrite Hb. by apply Hsym.
    + done.
    + apply (connect_noop h a a va); auto.
    + done.
  - rewrite bool_decide_eq_true_2 in Hg1 by done.
    assert (graph_of h1 !! a = Some (v_nn va ∪ {[b]})) as Hga1.
    { rewrite Hg1, list_lookup_insert_ne by done.
      apply list_lookup_insert_eq. lia. }
    assert (graph_of h1 !! b = Some (v_nn vb ∪ {[a]})) as Hgb1.
    { rewrite Hg1. apply list_lookup_insert_eq. rewrite length_insert. lia. }
    split_and!.
    + rewrite nn_of_graph, Hga1. simpl. set_solver.
    + rewrite nn_of_graph, Hgb1. simpl. set_solver.
    + done.
    + apply (connect_noop h a a va); auto.
    + intros _.
      destruct (ids_lookup h h1 a va) as (va1 & Ha1 & _); [done..|].
      destruct (ids_lookup h h1 b vb) as (vb1 & Hb1 & _); [done..|].
      assert (v_nn va1 = v_nn va ∪ {[b]}) as Hnna.
      { unfold graph_of in Hga1. rewrite list_lookup_fmap, Ha1 in Hga1. by simplify_eq/=. }
      assert (v_nn vb1 = v_nn vb ∪ {[a]}) as Hnnb.
      { unfold graph_of in Hgb1. rewrite list_lookup_fmap, Hb1 in Hgb1. by simplify_eq/=. }
      destruct (disconnect_spec h1 a b va1 vb1 Hok1 Ha1 Hb1)
        as (h2 & Hd & Hok2 & Hids2 & Hg2).
      { intros _. split; [done|]. rewrite Hnnb. set_solver. }
      rewrite bool_decide_eq_true_2 in Hg2 by (rewrite Hnna; set_solver).
      assert (a ∉ v_nn vb) as Hnin' by (by rewrite <-Hsym).
      assert (graph_of h2 = graph_of h) as Hg.
      { rewrite Hg2, Hg1, Hnna, Hnnb.
        rewrite list_insert_insert_eq.
        rewrite (list_insert_insert_ne _ a b) by done.
        rewrite list_insert_insert_eq.
        replace ((v_nn va ∪ {[b]}) ∖ {[b]}) with (v_nn va) by set_solver.
        replace ((v_nn vb ∪ {[a]}) ∖ {[a]}) with (v_nn vb) by set_solver.
        rewrite (list_insert_id _ a) by done. by apply list_insert_id. }
      exists h2. split; [done|].
      rewrite !nn_of_graph, Hg, Hga, Hgb. done.
Qed.

(** ** Frame reasoning

    [preserves p m]: whatever the outcome of [m], the part [p] of the state
    is as before. *)
Definition preserves {St A T} (p : St → T) (m : M St A) : Prop :=
  ∀ s, p (m s).2 = p s.

Lemma preserves_ret {St A T} (p : St → T) (a : A) : preserves p (ret a).
Proof. by intros s. Qed.

Lemma preserves_raise {St A T} (p : St → T) e : preserves p (raise (A:=A) e).
Proof. by intros s. Qed.

Lemma preserves_get {St T} (p : St → T) : preserves p get.
Proof. by intros s. Qed.

Lemma preserves_gets {St A T} (p : St → T) (q : St → A) : preserves p (gets q).
Proof. by intros s. Qed.

Lemma preserves_from_option {St A T} (p : St → T) e (o : option A) :
  preserves p (from_option e o).
Proof. by destruct o. Qed.

Lemma preserves_from_result {St A T} (p : St → T) (r : exn + A) :
  preserves p (from_result r).
Proof. by destruct r. Qed.

Lemma preserves_modify {St T} (p : St → T) (g : St → St) :
  (∀ s, p (g s) = p s) → preserves p (modify g).
Proof. intros Hg s. apply Hg. Qed.

Lemma preserves_bind {St A B T} (p : St → T) (m : M St A) (k : A → M St B) :
  preserves p m → (∀ a, preserves p (k a)) → preserves p (bind m k).
Proof.
  intros Hm Hk s. unfold bind. specialize (Hm s).
  destruct (m s) as [[e|a] s']; simpl in *; [done|].
  by rewrite Hk.
Qed.

Lemma preserves_for_each {St A T} (p : St → T) (l : list A) (body : A → M St unit) :
  (∀ a, preserves p (body a)) → preserves p (for_each l body).
Proof.
  intros Hb. induction l as [|a l IH]; simpl; [apply preserves_ret|].
  apply preserves_bind; auto.
Qed.

Lemma preserves_for_collect {St A B T} (p : St → T) (l : list A) (body : A → M St B) :
  (∀ a, preserves p (body a)) → preserves p (for_collect l body).
Proof.
  intros Hb. induction l as [|a l IH]; simpl; [apply preserves_ret|].
  apply preserves_bind; [done|]. intros b.
  apply preserves_bind; [done|]. intros bs. apply preserves_ret.
Qed.

Lemma preserves_try_pass {St T} (p : St → T) e (m : M St unit) :
  preserves p m → preserves p (try_pass e m).
Proof.
  intros Hm s. unfold try_pass. specialize (Hm s).
  destruct (m s) as [[e'|[]] s']; simpl in *; [|done].
  by destruct (decide (e' = e)).
Qed.

(** A method run inside its owner preserves what the write-back
    preserves, and a part of the component that the method preserves. *)
Lemma preserves_zoom {St T A U} (proj : St → T) (upd : T → St → St)
    (p : St → U) (m : M T A) :
  (∀ t s, p (upd t s) = p s) → preserves p (zoom proj upd m).
Proof. intros Hupd s. unfold zoom. destruct (m (proj s)). apply Hupd. Qed.

Lemma preserves_zoom_in {St T A U} (proj : St → T) (upd : T → St → St)
    (q : T → U) (m : M T A) :
  (∀ t s, proj (upd t s) = t) → preserves q m →
  preserves (λ s, q (proj s)) (zoom proj upd m).
Proof.
  intros Hupd Hm s. unfold zoom. specialize (Hm (proj s)).
  destruct (m (proj s)) as [r t]. simpl in *. by rewrite Hupd.
Qed.

Ltac frame :=
  repeat first
    [ progress intros
    | match goal with
      | |- preserves _ (ret _) => apply preserves_ret
      | |- preserves _ (raise _) => apply preserves_raise
      | |- preserves _ get => apply preserves_get
      | |- preserves _ (gets _) => apply preserves_gets
      | |- preserves _ (from_option _ _) => apply preserves_from_option
      | |- preserves _ (from_result _) => apply preserves_from_result
      | |- preserves _ (bind _ _) => apply preserves_bind
      | |- preserves _ (for_each _ _) => apply preserves_for_each
      | |- preserves _ (for_collect _ _) => apply preserves_for_collect
      | |- preserves _ (try_pass _ _) => apply preserves_try_pass
      | |- preserves _ (if ?b then _ else _) => destruct b
      | |- preserves _ (match ?o with Some _ => _ | None => _ end) => destruct o
      | |- preserves _ (match ?o with inl _ => _ | inr _ => _ end) => destruct o
      end ].

(** No method of [Vertex] changes the key, the value or the index of any
    vertex, whether it returns or raises. *)
Lemma update_ids a g :
  (∀ v, same_id v (g v)) → preserves ids (update a g).
Proof.
  intros Hg h. unfold update, bind, deref, bind, get, from_option.
  destruct (h !! a) as [v|] eqn:Ha; simpl; [|done].
  by apply (ids_insert _ _ v).
Qed.

Lemma minimiser_ids a : preserves ids (minimiser a).
Proof.
  unfold minimiser, deref. frame; apply update_ids; intros v; by repeat split.
Qed.

Lemma connect_ids a b : preserves ids (connect a b).
Proof.
  unfold connect, deref.
  frame; try (apply update_ids; intros v; by repeat split).
  apply minimiser_ids.
Qed.

Lemma disconnect_ids a b : preserves ids (disconnect a b).
Proof.
  unfold disconnect, deref.
  frame; apply update_ids; intros v; by repeat split.
Qed.

(** ** Properties of [VertexCache] *)

Lemma getitem_hit c x a : vc_cache c !! x = Some a → getitem x c = (inr a, c).
Proof. intros Hx. unfold getitem, bind, get. by rewrite Hx. Qed.

Definition fresh_vertex (x : key) (fx : value) (I : Z) : Vertex :=
  mkVertex x (sum_key x) fx ∅ true None I.

Lemma getitem_miss c x fx :
  vc_cache c !! x = None → func x = inr fx →
  getitem x c =
    (inr (length (vc_objs c)),
     mkCache (vc_objs c ++ [fresh_vertex x fx (vc_Index c + 1)])
             (<[x := length (vc_objs c)]> (vc_cache c))
             (vc_Index c + 1) (vc_calls c ++ [x])).
Proof.
  intros Hx Hf. unfold getitem, Vertex_init, bind, get, gets, modify, put, from_result.
  rewrite Hx. simpl. by rewrite Hf.
Qed.

Lemma getitem_miss_raise c x e :
  vc_cache c !! x = None → func x = inl e →
  getitem x c =
    (inl e, mkCache (vc_objs c) (vc_cache c) (vc_Index c + 1) (vc_calls c ++ [x])).
Proof.
  intros Hx Hf. unfold getitem, Vertex_init, bind, get, gets, modify, put, from_result.
  rewrite Hx. simpl. by rewrite Hf.
Qed.

Lemma calls_at_snoc c x y objs cache I :
  calls_at x (mkCache objs cache I (vc_calls c ++ [y])) =
  (calls_at x c + if decide (y = x) then 1 else 0)%nat.
Proof.
  unfold calls_at. simpl. rewrite filter_app, length_app. f_equal.
  rewrite filter_cons, filter_nil. by destruct (decide (y = x)).
Qed.

(** The state of the key [x] in a cache whose objective returns [fx] at
    [x]: either it was never looked up and the objective never called at
    it, or it is cached at an address that holds a vertex of key [x] and
    value [fx], and the objective was called at it once. *)
Definition key_state (x : key) (fx : value) (c : VertexCache) : Prop :=
  match vc_cache c !! x with
  | Some a => calls_at x c = 1%nat ∧
              ∃ v, vc_objs c !! a = Some v ∧ v_x v = x ∧ v_f v = fx
  | None => calls_at x c = 0%nat
  end.

Lemma key_state_init x fx : key_state x fx VertexCache_init.
Proof. unfold key_state. simpl. by rewrite lookup_empty. Qed.

Lemma on_objs_key_state {A} (m : M heap A) x fx c :
  preserves ids m → key_state x fx c →
  key_state x fx (on_objs m c).2 ∧ vc_cache (on_objs m c).2 = vc_cache c.
Proof.
  intros Hm Hc. specialize (Hm (vc_objs c)). unfold on_objs, zoom.
  destruct (m (vc_objs c)) as [r h']. simpl in *. split; [|done].
  unfold key_state in *. simpl. destruct (vc_cache c !! x) as [a|]; [|done].
  destruct Hc as (Hcalls & v & Ha & Hx & Hf). split; [done|].
  destruct (ids_lookup _ _ _ _ Hm Ha) as (v' & Ha' & Hx' & _ & Hf' & _).
  exists v'. split; [done|]. split; congruence.
Qed.

Lemma run_op_key_state op x fx c :
  func x = inr fx → key_state x fx c →
  key_state x fx (run_op op c).2 ∧
  (∀ a, vc_cache c !! x = Some a → vc_cache (run_op op c).2 !! x = Some a) ∧
  (op = Lookup x →
     ∃ a, (run_op op c).1 = inr (Some a) ∧ vc_cache (run_op op c).2 !! x = Some a).
Proof.
  intros Hf Hc. destruct op as [y|a b|a b|a]; simpl.
  - unfold bind. destruct (vc_cache c !! y) as [a|] eqn:Hy.
    + rewrite (getitem_hit _ _ _ Hy). simpl. split; [done|]. split; [done|].
      intros [= ->]. by exists a.
    + destruct (func y) as [e|fy] eqn:Hfy.
      * rewrite (getitem_miss_raise _ _ _ Hy Hfy). simpl.
        assert (y ≠ x) as Hne by congruence.
        split_and!; [|done|congruence].
        unfold key_state in *. simpl. rewrite calls_at_snoc.
        rewrite decide_False by done. rewrite Nat.add_0_r. done.
      * rewrite (getitem_miss _ _ _ Hy Hfy). simpl.
        destruct (decide (y = x)) as [->|Hne].
        -- split_and!.
           ++ unfold key_state in *. simpl. rewrite lookup_insert_eq, calls_at_snoc.
              rewrite decide_True by done. rewrite Hy in Hc. rewrite Hc.
              split; [done|]. eexists. split; [apply list_lookup_middle; done|].
              split; [done|]. simpl. congruence.
           ++ intros a Ha. congruence.
           ++ intros _. eexists. split; [done|]. by rewrite lookup_insert_eq.
        -- split_and!; [| |congruence].
           ++ unfold key_state in *. simpl. rewrite lookup_insert_ne by done.
              rewrite calls_at_snoc, decide_False by done. rewrite Nat.add_0_r.
              destruct (vc_cache c !! x) as [a|]; [|done].
              destruct Hc as (? & v & Hv & ? & ?). split; [done|].
              exists v. split; [|done]. by apply lookup_app_l_Some.
           ++ intros a Ha. by rewrite lookup_insert_ne.
  - destruct (on_objs_key_state (connect a b) x fx c (connect_ids a b) Hc) as [H1 H2].
    unfold bind. destruct (on_objs (connect a b) c) as [[e|[]] c']; simpl in *;
      (split_and!; [done|by rewrite H2|done]).
  - destruct (on_objs_key_state (disconnect a b) x fx c (disconnect_ids a b) Hc) as [H1 H2].
    unfold bind. destruct (on_objs (disconnect a b) c) as [[e|[]] c']; simpl in *;
      (split_and!; [done|by rewrite H2|done]).
  - destruct (on_objs_key_state (minimiser a) x fx c (minimiser_ids a) Hc) as [H1 H2].
    unfold bind. destruct (on_objs (minimiser a) c) as [[e|m] c']; simpl in *;
      (split_and!; [done|by rewrite H2|done]).
Qed.

Lemma run_ops_key_state ops x fx c :
  func x = inr fx → key_state x fx c →
  key_state x fx (run_ops ops c).2 ∧
  (∀ a, vc_cache c !! x = Some a → vc_cache (run_ops ops c).2 !! x = Some a) ∧
  (∀ i, ops !! i = Some (Lookup x) →
     ∃ a, (run_ops ops c).1 !! i = Some (inr (Some a)) ∧
          vc_cache (run_ops ops c).2 !! x = Some a).
Proof.
  intros Hf. revert c. induction ops as [|op ops IH]; intros c Hc; simpl.
  - split; [done|]. split; [done|]. intros i Hi. by rewrite lookup_nil in Hi.
  - destruct (run_op_key_state op x fx c Hf Hc) as (Hc1 & Hkeep1 & Hres1).
    destruct (run_op op c) as [r c1]. simpl in *.
    destruct (IH c1 Hc1) as (Hc2 & Hkeep2 & Hres2).
    destruct (run_ops ops c1) as [rs c2]. simpl in *.
    split; [done|]. split; [by auto|].
    intros [|i] Hi; simpl in *.
    + destruct Hres1 as (a & -> & Ha); [congruence|]. exists a. auto.
    + by apply Hres2.
Qed.

(** C1, where the objective returns. In any life of a cache (lookups at
    any keys, interleaved with method calls on its vertices, some of which
    may raise) every lookup of a key [x] at which the objective returns
    yields the same address, the address holds a vertex of key [x] carrying
    the value of the objective, and the objective has been called at [x]
    exactly once. *)
Theorem lookup_same_object_single_call (ops : list cache_op) (x : key) (fx : value) :
  func x = inr fx → Lookup x ∈ ops →
  ∃ a v,
    (∀ i, ops !! i = Some (Lookup x) →
          (run_ops ops VertexCache_init).1 !! i = Some (inr (Some a))) ∧
    vc_objs (run_ops ops VertexCache_init).2 !! a = Some v ∧
    v_x v = x ∧ v_f v = fx ∧
    calls_at x (run_ops ops VertexCache_init).2 = 1%nat.
Proof.
  intros Hf [i0 Hi0]%list_elem_of_lookup.
  destruct (run_ops_key_state ops x fx VertexCache_init Hf (key_state_init x fx))
    as (Hst & _ & Hres).
  destruct (Hres i0 Hi0) as (a & _ & Ha).
  unfold key_state in Hst. rewrite Ha in Hst.
  destruct Hst as (Hcalls & v & Hv & Hx & Hfx).
  exists a, v. split_and!; try done.
  intros i Hi. destruct (Hres i Hi) as (a' & Hr & Ha'). congruence.
Qed.

(** ** Weakest preconditions

    [wp m s Q]: running [m] from [s] ends in an outcome and a state that
    satisfy [Q].  [ok Q] asks for a normal return, [if_ok Q] says nothing
    of an exception. *)
Definition wp {St A} (m : M St A) (s : St) (Q : exn + A → St → Prop) : Prop :=
  Q (m s).1 (m s).2.

Definition ok {St A} (Q : A → St → Prop) : exn + A → St → Prop :=
  λ r s, match r with inr a => Q a s | inl _ => False end.

Definition if_ok {St A} (Q : A → St → Prop) : exn + A → St → Prop :=
  λ r s, match r with inr a => Q a s | inl _ => True end.

Lemma wp_intro {St A} (m : M St A) s r s' Q : m s = (r, s') → Q r s' → wp m s Q.
Proof. unfold wp. by intros ->. Qed.

Lemma wp_elim {St A} (m : M St A) s Q : wp m s Q → ∃ r s', m s = (r, s') ∧ Q r s'.
Proof. unfold wp. intros HQ. exists (m s).1, (m s).2. split; [by destruct (m s)|done]. Qed.

Lemma wp_ok_elim {St A} (m : M St A) s Q :
  wp m s (ok Q) → ∃ a s', m s = (inr a, s') ∧ Q a s'.
Proof. intros ([e|a] & s' & Hm & HQ)%wp_elim; [done|]. by exists a, s'. Qed.

Lemma wp_mono {St A} (m : M St A) s (Q Q' : exn + A → St → Prop) :
  wp m s Q → (∀ r s', Q r s' → Q' r s') → wp m s Q'.
Proof. unfold wp. auto. Qed.

Lemma wp_ok_mono {St A} (m : M St A) s (Q Q' : A → St → Prop) :
  wp m s (ok Q) → (∀ a s', Q a s' → Q' a s') → wp m s (ok Q').
Proof. intros Hm HQ. eapply wp_mono; [done|]. intros [e|a] s'; simpl; auto. Qed.

Lemma wp_conj {St A} (m : M St A) s (Q1 Q2 : exn + A → St → Prop) :
  wp m s Q1 → wp m s Q2 → wp m s (λ r s', Q1 r s' ∧ Q2 r s').
Proof. unfold wp. auto. Qed.

Lemma wp_preserves {St A T} (p : St → T) (m : M St A) s :
  preserves p m → wp m s (λ _ s', p s' = p s).
Proof. intros Hm. apply Hm. Qed.

Lemma wp_bind {St A B} (m : M St A) (k : A → M St B) s Q :
  wp m s (λ r s1, match r with
                  | inr a => wp (k a) s1 Q
                  | inl e => Q (inl e) s1
                  end) →
  wp (bind m k) s Q.
Proof. unfold wp, bind. by destruct (m s) as [[e|a] s1]. Qed.

Lemma wp_bind_ok {St A B} (m : M St A) (k : A → M St B) s (Q : B → St → Prop) :
  wp m s (ok (λ a s1, wp (k a) s1 (ok Q))) → wp (bind m k) s (ok Q).
Proof.
  intros Hm. apply wp_bind. eapply wp_mono; [done|]. by intros [e|a] s1.
Qed.

Lemma wp_bind_inv {St A B} (m : M St A) (k : A → M St B) s b s' :
  bind m k s = (inr b, s') → ∃ a s1, m s = (inr a, s1) ∧ k a s1 = (inr b, s').
Proof. unfold bind. destruct (m s) as [[e|a] s1]; [done|]. by exists a, s1. Qed.

Lemma wp_ret {St A} (a : A) (s : St) Q : Q (inr a) s → wp (ret a) s Q.
Proof. done. Qed.

Lemma wp_raise {St A} e (s : St) (Q : exn + A → St → Prop) :
  Q (inl e) s → wp (raise e) s Q.
Proof. done. Qed.

Lemma wp_get {St} (s : St) Q : Q (inr s) s → wp get s Q.
Proof. done. Qed.

Lemma wp_gets {St A} (p : St → A) (s : St) Q : Q (inr (p s)) s → wp (gets p) s Q.
Proof. done. Qed.

Lemma wp_put {St} (s s1 : St) Q : Q (inr tt) s1 → wp (put s1) s Q.
Proof. done. Qed.

Lemma wp_modify {St} (g : St → St) (s : St) Q : Q (inr tt) (g s) → wp (modify g) s Q.
Proof. done. Qed.

Lemma wp_from_option {St A} e (o : option A) (s : St) Q :
  match o with Some a => Q (inr a) s | None => Q (inl e) s end →
  wp (from_option e o) s Q.
Proof. by destruct o. Qed.

Lemma wp_from_result {St A} (r : exn + A) (s : St) Q : Q r s → wp (from_result r) s Q.
Proof. by destruct r. Qed.

Lemma wp_zoom {St T A} (proj : St → T) (upd : T → St → St) (m : M T A) s Q :
  wp m (proj s) (λ r t, Q r (upd t s)) → wp (zoom proj upd m) s Q.
Proof. unfold wp, zoom. by destruct (m (proj s)). Qed.

Lemma wp_try_pass {St} e (m : M St unit) s Q :
  wp m s (λ r s', match r with
                  | inl e' => if decide (e' = e) then Q (inr tt) s' else Q (inl e') s'
                  | inr u => Q (inr u) s'
                  end) →
  wp (try_pass e m) s Q.
Proof.
  unfold wp, try_pass. destruct (m s) as [[e'|u] s']; simpl; [|done].
  by destruct (decide (e' = e)).
Qed.

(** Loops, with an invariant indexed by the elements already visited. *)
Lemma wp_for_each {St A} (Inv : list A → St → Prop) (l : list A)
    (body : A → M St unit) s :
  Inv [] s →
  (∀ seen a rest s1, l = seen ++ a :: rest → Inv seen s1 →
     wp (body a) s1 (ok (λ _ s2, Inv (seen ++ [a]) s2))) →
  wp (for_each l body) s (ok (λ _ s', Inv l s')).
Proof.
  intros H0 Hstep.
  assert (∀ rest seen s1, l = seen ++ rest → Inv seen s1 →
            wp (for_each rest body) s1 (ok (λ _ s', Inv l s'))) as Hgen.
  { induction rest as [|a rest IH]; intros seen s1 Hl Hinv; simpl.
    - rewrite app_nil_r in Hl. subst. by apply wp_ret.
    - apply wp_bind_ok. eapply wp_ok_mono; [by eapply Hstep|].
      intros u s2 Hinv2. apply (IH (seen ++ [a])); [|done].
      by rewrite <-app_assoc. }
  by apply (Hgen l []).
Qed.

Lemma wp_for_collect {St A B} (Inv : list A → list B → St → Prop) (l : list A)
    (body : A → M St B) s :
  Inv [] [] s →
  (∀ seen bs a rest s1, l = seen ++ a :: rest → Inv seen bs s1 →
     wp (body a) s1 (ok (λ b s2, Inv (seen ++ [a]) (bs ++ [b]) s2))) →
  wp (for_collect l body) s (ok (λ bs s', Inv l bs s')).
Proof.
  intros H0 Hstep.
  assert (∀ rest seen bs s1, l = seen ++ rest → Inv seen bs s1 →
            wp (for_collect rest body) s1
               (ok (λ bs' s', Inv l (bs ++ bs') s'))) as Hgen.
  { induction rest as [|a rest IH]; intros seen bs s1 Hl Hinv; simpl.
    - rewrite app_nil_r in Hl. subst. apply wp_ret. simpl. by rewrite app_nil_r.
    - apply wp_bind_ok. eapply wp_ok_mono; [by eapply Hstep|].
      intros b s2 Hinv2. apply wp_bind_ok.
      eapply wp_ok_mono; [apply (IH (seen ++ [a]) (bs ++ [b]));
                          [by rewrite <-app_assoc|done]|].
      intros bs' s3 Hinv3. apply wp_ret. simpl.
      by replace (bs ++ b :: bs') with ((bs ++ [b]) ++ bs') by (by rewrite <-app_assoc). }
  by apply (Hgen l [] []).
Qed.

(** An invariant holds after a loop however the loop ends. *)
Lemma wp_for_each_any {St A} (Inv : St → Prop) (l : list A) (body : A → M St unit) s :
  Inv s → (∀ a s1, Inv s1 → wp (body a) s1 (λ _ s2, Inv s2)) →
  wp (for_each l body) s (λ _ s', Inv s').
Proof.
  intros H0 Hstep. revert s H0. induction l as [|a l IH]; intros s H0; simpl.
  - by apply wp_ret.
  - apply wp_bind. eapply wp_mono; [by apply Hstep|].
    intros [e|[]] s1 H1; [done|]. by apply IH.
Qed.

Lemma wp_for_collect_any {St A B} (Inv : St → Prop) (l : list A) (body : A → M St B) s :
  Inv s → (∀ a s1, Inv s1 → wp (body a) s1 (λ _ s2, Inv s2)) →
  wp (for_collect l body) s (λ _ s', Inv s').
Proof.
  intros H0 Hstep. revert s H0. induction l as [|a l IH]; intros s H0; simpl.
  - by apply wp_ret.
  - apply wp_bind. eapply wp_mono; [by apply Hstep|].
    intros [e|b] s1 H1; [done|]. apply wp_bind.
    eapply wp_mono; [by apply IH|]. intros [e|bs] s2 H2; [done|]. by apply wp_ret.
Qed.

Lemma for_rows_for_each {St} i rows (body : nat → list Z → M St unit) s :
  for_rows i rows body s =
  for_each (zip (seq i (length rows)) rows) (λ p, body p.1 p.2) s.
Proof.
  revert i s. induction rows as [|row rows IH]; intros i s; simpl; [done|].
  unfold bind. destruct (body i row s) as [[e|[]] s1]; [done|]. apply IH.
Qed.

(** ** Well-formed caches *)

Definition loop_free (h : heap) : Prop := ∀ a, a ∉ nn_of h a.

(** A cache whose objective never raised: the graph is symmetric and
    without loops, the dictionary maps each key to the address of the one
    vertex with that key, and the index of a vertex is its address. *)
Definition cache_ok (c : VertexCache) : Prop :=
  heap_ok (vc_objs c) ∧ symmetric_nn (vc_objs c) ∧ loop_free (vc_objs c) ∧
  vc_Index c = (Z.of_nat (length (vc_objs c)) - 1)%Z ∧
  (∀ x a, vc_cache c !! x = Some a ↔ ∃ v, vc_objs c !! a = Some v ∧ v_x v = x) ∧
  (∀ a v, vc_objs c !! a = Some v → v_I v = Z.of_nat a) ∧
  size (vc_cache c) = length (vc_objs c).

(** The cache after a lookup that misses, when the objective returns
    [fx]. *)
Definition alloc (c : VertexCache) (x : key) (fx : value) : VertexCache :=
  mkCache (vc_objs c ++ [fresh_vertex x fx (vc_Index c + 1)])
          (<[x := length (vc_objs c)]> (vc_cache c))
          (vc_Index c + 1) (vc_calls c ++ [x]).

Definition with_objs (h : heap) (c : VertexCache) : VertexCache :=
  mkCache h (vc_cache c) (vc_Index c) (vc_calls c).

Lemma nn_of_lt (h : heap) a b : heap_ok h → b ∈ nn_of h a → (b < length h)%nat.
Proof.
  intros Hok. unfold nn_of. destruct (h !! a) as [v|] eqn:Ha; [|set_solver].
  intros Hb. by apply (heap_ok_lookup _ _ _ Hok Ha).
Qed.

Lemma nn_of_app (h : heap) v a :
  nn_of (h ++ [v]) a = if decide (a = length h) then v_nn v else nn_of h a.
Proof.
  unfold nn_of. destruct (decide (a = length h)) as [->|Hne].
  - by rewrite list_lookup_middle.
  - destruct (decide (a < length h)%nat).
    + by rewrite lookup_app_l.
    + rewrite !lookup_ge_None_2; [done|lia|rewrite length_app; simpl; lia].
Qed.

Lemma cache_ok_init : cache_ok VertexCache_init.
Proof.
  unfold cache_ok. simpl. split_and!.
  - by apply Forall_nil.
  - intros a b. unfold nn_of. rewrite lookup_nil. set_solver.
  - intros a. unfold nn_of. rewrite lookup_nil. set_solver.
  - done.
  - intros x a. rewrite lookup_empty. split; [done|]. by intros (v & ? & _).
  - intros a v. by rewrite lookup_nil.
  - done.
Qed.

Lemma cache_ok_alloc c x fx :
  cache_ok c → vc_cache c !! x = None → cache_ok (alloc c x fx).
Proof.
  intros (Hok & Hsym & Hloop & HI & Hbij & Hidx & Hsize) Hx.
  unfold cache_ok, alloc. simpl. split_and!.
  - unfold heap_ok. rewrite length_app. simpl. apply Forall_app. split.
    + eapply Forall_impl; [exact Hok|]. intros v [Hnn Hm]. split; [|done].
      intros w Hw. specialize (Hnn w Hw). simpl in Hnn. lia.
    + apply Forall_singleton. split; [|done]. simpl. intros w Hw. set_solver.
  - intros a b. rewrite !nn_of_app. simpl.
    destruct (decide (a = length (vc_objs c))); [set_solver|].
    intros Hb. destruct (decide (b = length (vc_objs c))) as [->|]; [|by apply Hsym].
    apply (nn_of_lt _ _ _ Hok) in Hb. lia.
  - intros a. rewrite nn_of_app. simpl.
    destruct (decide (a = length (vc_objs c))); [set_solver|apply Hloop].
  - rewrite length_app. simpl. lia.
  - intros y a. destruct (decide (x = y)) as [<-|Hne].
    + rewrite lookup_insert_eq. split.
      * intros [= <-]. eexists. by rewrite list_lookup_middle.
      * intros (v & Hv & Hvx).
        destruct (decide (a = length (vc_objs c))) as [->|Hne]; [done|].
        assert (a < length (vc_objs c))%nat.
        { apply lookup_lt_Some in Hv. rewrite length_app in Hv. simpl in Hv. lia. }
        rewrite lookup_app_l in Hv by done.
        assert (vc_cache c !! x = Some a) by (apply Hbij; eauto). congruence.
    + rewrite lookup_insert_ne by done. rewrite Hbij. split.
      * intros (v & Hv & Hvx). exists v. split; [|done]. by apply lookup_app_l_Some.
      * intros (v & Hv & Hvx). exists v. split; [|done].
        destruct (decide (a = length (vc_objs c))) as [->|Hna].
        -- rewrite list_lookup_middle in Hv by done. by simplify_eq/=.
        -- apply lookup_lt_Some in Hv as Hlt. rewrite length_app in Hlt. simpl in Hlt.
           rewrite lookup_app_l in Hv by lia. done.
  - intros a v Hv. destruct (decide (a = length (vc_objs c))) as [->|Hna].
    + rewrite list_lookup_middle in Hv by done. simplify_eq/=. lia.
    + apply lookup_lt_Some in Hv as Hlt. rewrite length_app in Hlt. simpl in Hlt.
      rewrite lookup_app_l in Hv by lia. by apply Hidx.
  - rewrite map_size_insert_None by done. rewrite length_app. simpl. lia.
Qed.

Lemma cache_ok_with_objs c h :
  cache_ok c → heap_ok h → symmetric_nn h → loop_free h → ids h = ids (vc_objs c) →
  cache_ok (with_objs h c).
Proof.
  intros (Hok & Hsym & Hloop & HI & Hbij & Hidx & Hsize) Hok' Hsym' Hloop' Hids.
  pose proof (ids_length _ _ Hids) as Hlen.
  assert (∀ a v, h !! a = Some v → ∃ v0, vc_objs c !! a = Some v0 ∧ same_id v v0) as Hback.
  { intros a v Hv. by apply (ids_lookup h (vc_objs c)). }
  unfold cache_ok, with_objs. simpl. split_and!; try done.
  - by rewrite Hlen.
  - intros x a. rewrite Hbij. split.
    + intros (v & Hv & Hx). destruct (ids_lookup _ _ _ _ Hids Hv) as (v' & Hv' & Hx' & _).
      exists v'. split; [done|]. congruence.
    + intros (v & Hv & Hx). destruct (Hback _ _ Hv) as (v0 & Hv0 & Hx0 & _).
      exists v0. split; [done|]. congruence.
  - intros a v Hv. destruct (Hback _ _ Hv) as (v0 & Hv0 & _ & _ & _ & HI0).
    rewrite <-HI0. by apply Hidx.
  - by rewrite Hlen.
Qed.

Lemma cache_ok_lookup_lt c x a :
  cache_ok c → vc_cache c !! x = Some a → (a < length (vc_objs c))%nat.
Proof.
  intros (_ & _ & _ & _ & Hbij & _) Hx. apply Hbij in Hx as (v & Hv & _).
  by eapply lookup_lt_Some.
Qed.

(** [connect] on a well-formed graph: it returns, the graph stays
    well-formed and only grows, and two distinct vertices end adjacent. *)
Lemma connect_wf (h : heap) a b :
  heap_ok h → symmetric_nn h → loop_free h →
  (a < length h)%nat → (b < length h)%nat →
  ∃ h', connect a b h = (inr tt, h') ∧
    heap_ok h' ∧ symmetric_nn h' ∧ loop_free h' ∧ ids h' = ids h ∧
    (∀ c, nn_of h c ⊆ nn_of h' c) ∧
    (a ≠ b → b ∈ nn_of h' a ∧ a ∈ nn_of h' b).
Proof.
  intros Hok Hsym Hloop Hla Hlb.
  destruct (lookup_lt_is_Some_2 h a Hla) as [va Ha].
  destruct (lookup_lt_is_Some_2 h b Hlb) as [vb Hb].
  destruct (connect_spec h a b va vb Hok Ha Hb) as (h' & Hc & Hok' & Hids & Hg).
  exists h'. split; [done|]. split; [done|].
  assert (nn_of h a = v_nn va) as Hna by (unfold nn_of; by rewrite Ha).
  assert (nn_of h b = v_nn vb) as Hnb by (unfold nn_of; by rewrite Hb).
  assert (length (graph_of h) = length h) as Hlen.
  { unfold graph_of. by rewrite length_fmap. }
  destruct (decide (b ≠ a ∧ b ∉ v_nn va)) as [[Hne Hnin]|Hno].
  - rewrite bool_decide_eq_true_2 in Hg by done.
    assert (∀ c, nn_of h' c =
                 if decide (c = b) then nn_of h b ∪ {[a]}
                 else if decide (c = a) then nn_of h a ∪ {[b]} else nn_of h c) as Hnn.
    { intros c. rewrite (nn_of_graph h'), Hg.
      destruct (decide (c = b)) as [->|Hcb].
      - rewrite list_lookup_insert_eq by (rewrite length_insert; lia).
        simpl. by rewrite Hnb.
      - rewrite list_lookup_insert_ne by done.
        destruct (decide (c = a)) as [->|Hca].
        + rewrite list_lookup_insert_eq by lia. simpl. by rewrite Hna.
        + rewrite list_lookup_insert_ne by done. by rewrite <-nn_of_graph. }
    split_and!; [| |done| |].
    + intros c c'. rewrite !Hnn. pose proof (Hsym c c'). pose proof (Hsym c' c).
      clear Hsym Hnn. repeat case_decide; subst; set_solver.
    + intros c. rewrite Hnn. pose proof (Hloop c). clear Hloop Hnn Hsym.
      repeat case_decide; subst; set_solver.
    + intros c. rewrite Hnn. repeat case_decide; set_solver.
    + intros _. rewrite !Hnn. repeat case_decide; subst; set_solver.
  - rewrite bool_decide_eq_false_2 in Hg by done.
    assert (∀ c, nn_of h' c = nn_of h c) as Hnn.
    { intros c. by rewrite !nn_of_graph, Hg. }
    split_and!; [| |done| |].
    + intros c c'. rewrite !Hnn. apply Hsym.
    + intros c. rewrite Hnn. apply Hloop.
    + intros c. by rewrite Hnn.
    + intros Hab. rewrite !Hnn.
      assert (b ∈ v_nn va) as Hin.
      { destruct (decide (b ∈ v_nn va)); [done|]. destruct Hno. split; [by auto|done]. }
      rewrite Hna. split; [done|]. apply Hsym. by rewrite Hna.
Qed.

Lemma minimiser_wf (h : heap) a :
  heap_ok h → symmetric_nn h → loop_free h → (a < length h)%nat →
  ∃ m h', minimiser a h = (inr m, h') ∧
    heap_ok h' ∧ symmetric_nn h' ∧ loop_free h' ∧ ids h' = ids h ∧
    graph_of h' = graph_of h.
Proof.
  intros Hok Hsym Hloop Hla.
  destruct (lookup_lt_is_Some_2 h a Hla) as [va Ha].
  destruct (minimiser_spec h a va Hok Ha) as (m & h' & Hm & Hok' & Hids & Hg & _).
  exists m, h'. split_and!; try done.
  - intros c c'. rewrite !nn_of_graph, Hg, <-!nn_of_graph. apply Hsym.
  - intros c. rewrite nn_of_graph, Hg, <-nn_of_graph. apply Hloop.
Qed.

(** ** The methods of [Complex], step by step *)

(** Everything in a complex but its cache and its cells. *)
Definition shell (s : Complex) :=
  (hc_dim s, hc_symmetry s, hc_gen s, hc_H s, hc_origin s, hc_suprenum s,
   hc_C0 s, hc_centroid s, hc_hgr s, hc_hgrd s, hc_graph s).

Definition keys (s : Complex) : gset key := dom (vc_cache (hc_V s)).

Definition objs_of (s : Complex) : heap := vc_objs (hc_V s).

Definition set_objs (h : heap) (s : Complex) : Complex :=
  set_V (with_objs h (hc_V s)) s.

Lemma set_V_id s : set_V (hc_V s) s = s.
Proof. by destruct s. Qed.

Lemma set_objs_id s : set_objs (objs_of s) s = s.
Proof. destruct s as [? ? ? ? [] ? ? ? ? ? ? ? ?]. done. Qed.

Lemma wp_V_get_hit s x a Q :
  vc_cache (hc_V s) !! x = Some a → Q (inr a) s → wp (V_get x) s Q.
Proof.
  intros Hx HQ. unfold V_get. apply wp_zoom.
  eapply wp_intro; [by apply getitem_hit|]. by rewrite set_V_id.
Qed.

Lemma wp_V_get_miss s x fx Q :
  vc_cache (hc_V s) !! x = None → func x = inr fx →
  Q (inr (length (objs_of s))) (set_V (alloc (hc_V s) x fx) s) →
  wp (V_get x) s Q.
Proof.
  intros Hx Hf HQ. unfold V_get. apply wp_zoom.
  eapply wp_intro; [by apply getitem_miss|]. done.
Qed.

Lemma wp_on_heap {A} (m : M heap A) s Q :
  wp m (objs_of s) (λ r h', Q r (set_objs h' s)) → wp (on_heap m) s Q.
Proof. intros Hm. unfold on_heap. by apply wp_zoom. Qed.

Lemma wp_cell_deref s c cell Q :
  hc_cells s !! c = Some cell → Q (inr cell) s → wp (cell_deref c) s Q.
Proof.
  intros Hc HQ. unfold cell_deref. apply wp_bind, wp_get, wp_from_option.
  by rewrite Hc.
Qed.

Lemma wp_cell_update s c cell g Q :
  hc_cells s !! c = Some cell →
  Q (inr tt) (set_cells (<[c := g cell]> (hc_cells s)) s) →
  wp (cell_update c g) s Q.
Proof.
  intros Hc HQ. unfold cell_update. apply wp_bind.
  eapply wp_cell_deref; [done|]. by apply wp_modify.
Qed.

Lemma wp_add_vertex s c cell a Q :
  hc_cells s !! c = Some cell →
  (a ∈ c_C cell → Q (inr tt) s) →
  (a ∉ c_C cell →
     Q (inr tt) (set_cells (<[c := set_C (c_C cell ++ [a]) cell]> (hc_cells s)) s)) →
  wp (add_vertex c a) s Q.
Proof.
  intros Hc Hin Hnin. unfold add_vertex. apply wp_bind.
  eapply wp_cell_deref; [done|]. case_bool_decide.
  - apply wp_ret. auto.
  - eapply wp_cell_update; [done|]. auto.
Qed.

(** The state of the construction of the initial cell: the cache is
    well-formed and the cell lists the vertices in the order of their
    creation. *)
Definition cube_ok (s : Complex) : Prop :=
  cache_ok (hc_V s) ∧
  ∃ cell0, hc_cells s !! hc_C0 s = Some cell0 ∧
           c_C cell0 = seq 0 (length (objs_of s)).

(** What a method of a vertex can do to a complex. *)
Definition heap_step (s s' : Complex) : Prop :=
  cache_ok (hc_V s') ∧ vc_cache (hc_V s') = vc_cache (hc_V s) ∧
  hc_cells s' = hc_cells s ∧ shell s' = shell s ∧
  ids (objs_of s') = ids (objs_of s) ∧
  (∀ c, nn_of (objs_of s) c ⊆ nn_of (objs_of s') c).

Lemma heap_step_refl s : cache_ok (hc_V s) → heap_step s s.
Proof. intros Hok. unfold heap_step. by split_and!. Qed.

Lemma heap_step_trans s1 s2 s3 : heap_step s1 s2 → heap_step s2 s3 → heap_step s1 s3.
Proof.
  intros (_ & Hc1 & Hcells1 & Hsh1 & Hids1 & Hnn1) (Hok & Hc2 & Hcells2 & Hsh2 & Hids2 & Hnn2).
  split_and!; [done|congruence..|].
  intros c. etrans; [apply Hnn1|apply Hnn2].
Qed.

Lemma heap_step_cube_ok s s' : cube_ok s → heap_step s s' → cube_ok s'.
Proof.
  intros (_ & cell0 & Hc0 & HC) (Hok & _ & Hcells & Hsh & Hids & _).
  split; [done|]. exists cell0.
  assert (hc_C0 s' = hc_C0 s) as -> by (unfold shell in Hsh; by simplify_eq).
  rewrite Hcells. split; [done|]. by rewrite (ids_length _ _ Hids).
Qed.

Lemma heap_step_keys s s' : heap_step s s' → keys s' = keys s.
Proof. intros (_ & Hc & _). unfold keys. by rewrite Hc. Qed.

Lemma wp_connect_addrs s a b Q :
  cache_ok (hc_V s) → (a < length (objs_of s))%nat → (b < length (objs_of s))%nat →
  (∀ s', heap_step s s' →
         (a ≠ b → b ∈ nn_of (objs_of s') a ∧ a ∈ nn_of (objs_of s') b) →
         Q (inr tt) s') →
  wp (on_heap (connect a b)) s Q.
Proof.
  intros Hok Ha Hb HQ. apply wp_on_heap.
  pose proof Hok as (Hhok & Hsym & Hloop & _).
  destruct (connect_wf _ a b Hhok Hsym Hloop Ha Hb)
    as (h' & Hc & Hok' & Hsym' & Hloop' & Hids & Hgrow & Hadj).
  eapply wp_intro; [done|]. apply HQ; [|done].
  split_and!; try done. by apply cache_ok_with_objs.
Qed.

Lemma keys_lookup s x : x ∈ keys s → ∃ a, vc_cache (hc_V s) !! x = Some a.
Proof. unfold keys. by intros [a Ha]%elem_of_dom; eauto. Qed.

Lemma wp_connect_keys s x y Q :
  cache_ok (hc_V s) → x ∈ keys s → y ∈ keys s →
  (∀ s' ax ay, heap_step s s' →
     vc_cache (hc_V s) !! x = Some ax → vc_cache (hc_V s) !! y = Some ay →
     (ax ≠ ay → ay ∈ nn_of (objs_of s') ax ∧ ax ∈ nn_of (objs_of s') ay) →
     Q (inr tt) s') →
  wp (a1 <- V_get x ;; a2 <- V_get y ;; on_heap (connect a1 a2)) s Q.
Proof.
  intros Hok [ax Hx]%keys_lookup [ay Hy]%keys_lookup HQ.
  apply wp_bind. eapply wp_V_get_hit; [done|].
  apply wp_bind. eapply wp_V_get_hit; [done|].
  apply wp_connect_addrs; [done|by eapply cache_ok_lookup_lt..|].
  intros s' Hstep Hadj. by eapply HQ.
Qed.

Lemma wp_connect_keys_then {B} s x y (k : M Complex B) Q :
  cache_ok (hc_V s) → x ∈ keys s → y ∈ keys s →
  (∀ s', heap_step s s' → wp k s' Q) →
  wp (a1 <- V_get x ;; a2 <- V_get y ;; on_heap (connect a1 a2) ;;; k) s Q.
Proof.
  intros Hok [ax Hx]%keys_lookup [ay Hy]%keys_lookup HQ.
  apply wp_bind. eapply wp_V_get_hit; [done|].
  apply wp_bind. eapply wp_V_get_hit; [done|].
  apply wp_bind. apply wp_connect_addrs; [done|by eapply cache_ok_lookup_lt..|].
  intros s' Hstep Hadj. by apply HQ.
Qed.

Lemma wp_lookup_add {B} s x fx c0 (k : M Complex B) Q :
  cube_ok s → c0 = hc_C0 s → func x = inr fx →
  (∀ s', cube_ok s' → keys s' = {[x]} ∪ keys s → shell s' = shell s → wp k s' Q) →
  wp (a <- V_get x ;; add_vertex c0 a ;;; k) s Q.
Proof.
  intros (Hok & cell0 & Hc0 & HC) -> Hf HQ. apply wp_bind.
  destruct (vc_cache (hc_V s) !! x) as [a|] eqn:Hx.
  - eapply wp_V_get_hit; [done|]. apply wp_bind.
    eapply wp_add_vertex; [done| |].
    + intros _. apply HQ; [by split; eauto| |done].
      unfold keys. apply elem_of_dom_2 in Hx. set_solver.
    + intros []. rewrite HC. apply elem_of_seq.
      apply (cache_ok_lookup_lt _ _ _ Hok) in Hx. unfold objs_of. lia.
  - eapply wp_V_get_miss; [done..|]. apply wp_bind.
    eapply wp_add_vertex; [done| |].
    + rewrite HC. intros Hin%elem_of_seq. lia.
    + intros _. apply HQ; [| |done].
      * split; [by apply cache_ok_alloc|]. simpl.
        eexists. split; [apply list_lookup_insert_eq; by eapply lookup_lt_Some|].
        simpl. unfold objs_of. simpl. rewrite length_app. simpl.
        by rewrite HC, Nat.add_1_r, seq_S.
      * unfold keys. simpl. by rewrite dom_insert_L.
Qed.

Lemma wp_add_and_connect s xi2 xi x_parents fx :
  cube_ok s → func xi2 = inr fx → xi ∈ keys s →
  (∀ x, x ∈ x_parents → x ∈ keys s) →
  wp (add_and_connect xi2 xi x_parents) s
     (ok (λ _ s', cube_ok s' ∧ keys s' = {[xi2]} ∪ keys s ∧ shell s' = shell s)).
Proof.
  intros Hok Hf Hxi Hxp. unfold add_and_connect.
  apply wp_bind, wp_gets.
  eapply wp_lookup_add; [done..|]. intros s1 Hok1 Hk1 Hsh1.
  apply wp_connect_keys_then; [by destruct Hok1|set_solver..|].
  intros s2 Hstep2.
  eapply wp_ok_mono.
  - apply (wp_for_each (λ _ s', heap_step s2 s')).
    + apply heap_step_refl. by destruct Hstep2.
    + intros seen x rest s3 Hl Hstep3.
      assert (x ∈ x_parents) as Hx by (rewrite Hl; set_solver).
      pose proof (heap_step_keys _ _ Hstep2). pose proof (heap_step_keys _ _ Hstep3).
      apply wp_connect_keys; [by destruct Hstep3|set_solver..|].
      intros s4 ? ? Hstep4 _ _ _. simpl. by eapply heap_step_trans.
  - simpl. intros _ s3 Hstep3.
    pose proof (heap_step_trans _ _ _ Hstep2 Hstep3) as Hstep.
    split; [by eapply heap_step_cube_ok|].
    rewrite (heap_step_keys _ _ Hstep). split; [done|].
    destruct Hstep as (_ & _ & _ & -> & _). done.
Qed.

(** ** The vertices of the unit cube *)

(** The corners of the [d]-cube, and the order in which [perm] climbs
    them: [above x y] when [y] has a 1 wherever [x] has one. *)
Definition binary (d : nat) (y : key) : Prop :=
  length y = d ∧ Forall (λ q, q = 0 ∨ q = 1) y.

Definition above (x y : key) : Prop :=
  ∀ i, x !! i = Some 1 → y !! i = Some 1.

Fixpoint corners (d : nat) : list key :=
  match d with
  | O => [[]]
  | S d' => (cons 0 <$> corners d') ++ (cons 1 <$> corners d')
  end.

Lemma Qc_0_1 : (0 : Qc) ≠ 1.
Proof. done. Qed.

Lemma binary_lookup d y i :
  binary d y → (i < d)%nat → y !! i = Some 0 ∨ y !! i = Some 1.
Proof.
  intros [Hlen Hall] Hi. destruct (lookup_lt_is_Some_2 y i) as [q Hq]; [lia|].
  rewrite Hq. destruct (Forall_lookup_1 _ _ _ _ Hall Hq) as [->| ->]; auto.
Qed.

Lemma binary_replicate d q : q = 0 ∨ q = 1 → binary d (replicate d q).
Proof.
  intros Hq. split; [by rewrite length_replicate|].
  by apply Forall_replicate.
Qed.

Lemma binary_insert d y i : binary d y → binary d (<[i := 1]> y).
Proof.
  intros [Hlen Hall]. split; [by rewrite length_insert|].
  apply Forall_insert; auto.
Qed.

Lemma elem_of_corners d y : y ∈ corners d ↔ binary d y.
Proof.
  revert y. induction d as [|d IH]; intros y; simpl.
  - rewrite list_elem_of_singleton. split.
    + intros ->. by split.
    + intros [Hlen _]. by destruct y.
  - rewrite elem_of_app, !list_elem_of_fmap. split.
    + intros [(z & -> & Hz)|(z & -> & Hz)]; apply IH in Hz as [Hlen Hall];
        (split; [simpl; by rewrite Hlen|apply Forall_cons; auto]).
    + intros [Hlen Hall]. destruct y as [|q y]; [done|].
      apply Forall_cons in Hall as [Hq Hall].
      assert (binary d y) as Hy%IH by (split; [simpl in Hlen; lia|done]).
      destruct Hq as [->| ->]; eauto.
Qed.

Lemma NoDup_corners d : NoDup (corners d).
Proof.
  induction d as [|d IH]; simpl; [apply NoDup_singleton|].
  apply NoDup_app. split_and!.
  - apply NoDup_fmap_2; [|done]. by intros ?? [=].
  - intros y (z & -> & _)%list_elem_of_fmap (z' & Hz' & _)%list_elem_of_fmap.
    by injection Hz'.
  - apply NoDup_fmap_2; [|done]. by intros ?? [=].
Qed.

Lemma length_corners d : length (corners d) = (2 ^ d)%nat.
Proof.
  induction d as [|d IH]; simpl; [done|].
  rewrite length_app, !length_fmap, IH. lia.
Qed.

(** A finite set with the elements of a duplicate-free list has the size
    of the list. *)
Lemma size_of_listing `{Countable K} (X : gset K) (l : list K) :
  NoDup l → (∀ y, y ∈ X ↔ y ∈ l) → size X = length l.
Proof.
  intros Hnd Hl. assert (X = list_to_set l) as ->.
  { apply set_eq. intros y. rewrite elem_of_list_to_set. apply Hl. }
  by apply size_list_to_set.
Qed.

Lemma list_differ (x y : key) :
  length x = length y → x ≠ y → ∃ i q r, x !! i = Some q ∧ y !! i = Some r ∧ q ≠ r.
Proof.
  revert y. induction x as [|q x IH]; intros [|r y] Hlen Hne; simplify_eq/=.
  destruct (decide (q = r)) as [->|Hqr].
  - destruct (IH y) as (i & q' & r' & ? & ? & ?); [done|congruence|].
    by exists (S i), q', r'.
  - by exists 0%nat, q, r.
Qed.

Lemma elem_of_iter_range d i_parents i :
  i ∈ iter_range (Z.of_nat d) i_parents ↔ (i < d)%nat ∧ i ∉ i_parents.
Proof.
  unfold iter_range. rewrite list_elem_of_filter, elem_of_seq, Nat2Z.id.
  split; intros [? ?]; split; (done || lia).
Qed.

(** When every coordinate has been flipped nothing is left to visit. *)
Lemma iter_range_full d i_parents :
  NoDup i_parents → (∀ i, i ∈ i_parents → (i < d)%nat) →
  (d ≤ length i_parents)%nat → iter_range (Z.of_nat d) i_parents = [].
Proof.
  intros Hnd Hlt Hlen.
  assert (i_parents ⊆+ seq 0 d) as Hsub.
  { apply NoDup_submseteq; [done|]. intros i Hi. apply elem_of_seq. specialize (Hlt i Hi). lia. }
  assert (i_parents ≡ₚ seq 0 d) as Hperm.
  { apply submseteq_length_Permutation; [done|]. by rewrite length_seq. }
  apply elem_of_nil_inv. intros i [Hi Hni]%elem_of_iter_range.
  apply Hni. rewrite Hperm. apply elem_of_seq. lia.
Qed.

Lemma shell_dim s s' : shell s' = shell s → hc_dim s' = hc_dim s.
Proof. unfold shell. by intros [=]. Qed.

Lemma shell_C0 s s' : shell s' = shell s → hc_C0 s' = hc_C0 s.
Proof. unfold shell. by intros [=]. Qed.

(** The vertices of the symmetric construction: [k] ones followed by
    zeros. *)
Definition chain_vertex (d k : nat) : key := replicate k 1 ++ replicate (d - k) 0.

Lemma length_chain_vertex d k : (k ≤ d)%nat → length (chain_vertex d k) = d.
Proof. intros Hk. unfold chain_vertex. rewrite length_app, !length_replicate. lia. Qed.

Lemma chain_vertex_insert d k :
  (k < d)%nat → <[k := 1]> (chain_vertex d k) = chain_vertex d (S k).
Proof.
  intros Hk. unfold chain_vertex.
  rewrite insert_app_r_alt by (rewrite length_replicate; lia).
  rewrite length_replicate, Nat.sub_diag.
  replace (d - k)%nat with (S (d - S k)) by lia.
  by rewrite (replicate_S_end k), <-app_assoc.
Qed.

Lemma chain_vertex_lookup_1 d k i : (i < k)%nat → chain_vertex d k !! i = Some 1.
Proof.
  intros Hi. unfold chain_vertex.
  rewrite lookup_app_l by (rewrite length_replicate; lia).
  by apply lookup_replicate_2.
Qed.

Lemma chain_vertex_lookup_0 d k i :
  (k ≤ i)%nat → (i < d)%nat → chain_vertex d k !! i = Some 0.
Proof.
  intros Hk Hi. unfold chain_vertex.
  rewrite lookup_app_r by (rewrite length_replicate; lia).
  rewrite length_replicate. apply lookup_replicate_2. lia.
Qed.

Lemma chain_vertex_inj d k k' :
  (k ≤ d)%nat → (k' ≤ d)%nat → chain_vertex d k = chain_vertex d k' → k = k'.
Proof.
  intros Hk Hk' Heq.
  destruct (decide (k < k')%nat).
  - assert (chain_vertex d k !! k = Some 0) as H0 by (apply chain_vertex_lookup_0; lia).
    rewrite Heq, chain_vertex_lookup_1 in H0 by lia. by destruct Qc_0_1.
  - destruct (decide (k' < k)%nat); [|lia].
    assert (chain_vertex d k' !! k' = Some 0) as H0 by (apply chain_vertex_lookup_0; lia).
    rewrite <-Heq, chain_vertex_lookup_1 in H0 by lia. by destruct Qc_0_1.
Qed.

(** The adjacency template of a heap: for every vertex, in the order of
    creation, the indices of its neighbours. *)
Definition template (h : heap) : list (list Z) :=
  (λ a, Z.of_nat <$> iteration a (nn_of h a)) <$> seq 0 (length h).

Lemma arrange_perm a n l : length l = n → arrange a n l ≡ₚ l.
Proof.
  revert l. induction n as [|n IH]; intros l Hlen; simpl.
  - by destruct l.
  - assert (Nat.modulo (next_of nn_order a l) (length l) < length l)%nat as Hlt.
    { apply Nat.mod_upper_bound. lia. }
    destruct (lookup_lt_is_Some_2 _ _ Hlt) as [w Hw]. rewrite Hw.
    rewrite IH.
    + symmetry. by apply delete_Permutation.
    + rewrite length_delete by done. lia.
Qed.

Lemma iteration_perm a X : iteration a X ≡ₚ elements X.
Proof. by apply arrange_perm. Qed.

Lemma elem_of_iteration a X w : w ∈ iteration a X ↔ w ∈ X.
Proof. by rewrite iteration_perm, elem_of_elements. Qed.

Lemma NoDup_iteration a X : NoDup (iteration a X).
Proof. rewrite iteration_perm. apply NoDup_elements. Qed.

Lemma for_collect_pure {St A B} (l : list A) (body : A → M St B) (g : A → B) s :
  (∀ a, a ∈ l → body a s = (inr (g a), s)) →
  for_collect l body s = (inr (g <$> l), s).
Proof.
  induction l as [|a l IH]; intros Hb; simpl; [done|].
  rewrite (bind_ok _ _ _ _ _ (Hb a ltac:(left))).
  rewrite (bind_ok _ _ _ _ _ (IH ltac:(intros; apply Hb; by right))). done.
Qed.

Lemma perm_symmetry_eq fuel i_s x_parents xi :
  perm_symmetry fuel i_s x_parents xi =
  (xi2 <- from_result (list_set xi i_s 1) ;;
   add_and_connect xi2 xi x_parents ;;;
   d <- gets hc_dim ;;
   if bool_decide (Z.of_nat (S i_s) = d) then ret tt
   else match fuel with
        | O => raise OutOfFuel
        | S fuel' => perm_symmetry fuel' (S i_s) (x_parents ++ [xi]) xi2
        end).
Proof. by destruct fuel. Qed.

Lemma on_heap_deref s a v :
  objs_of s !! a = Some v → on_heap (deref a) s = (inr v, s).
Proof.
  intros Ha. unfold on_heap, zoom. fold (objs_of s).
  rewrite (deref_eq _ _ _ Ha). f_equal. apply set_objs_id.
Qed.

Lemma wp_count_minimisers l : ∀ acc s,
  cache_ok (hc_V s) → (∀ a, a ∈ l → (a < length (objs_of s))%nat) →
  wp (count_minimisers l acc) s (ok (λ _ s', heap_step s s')).
Proof.
  induction l as [|a l IH]; intros acc s Hok Hl; simpl.
  - apply wp_ret. simpl. by apply heap_step_refl.
  - apply wp_bind_ok, wp_on_heap.
    pose proof Hok as (Hhok & Hsym & Hloop & _).
    destruct (minimiser_wf _ a Hhok Hsym Hloop)
      as (m & h' & Hm & Hok' & Hsym' & Hloop' & Hids & Hg); [apply Hl; by left|].
    eapply wp_intro; [done|]. simpl.
    assert (heap_step s (set_objs h' s)) as Hstep.
    { split_and!; try done.
      - by apply cache_ok_with_objs.
      - intros c. unfold objs_of. simpl. by rewrite !nn_of_graph, Hg. }
    eapply wp_ok_mono.
    + apply IH; [by destruct Hstep|]. intros a' Ha'. unfold objs_of. simpl.
      rewrite (ids_length _ _ Hids). apply Hl. by right.
    + intros n s' Hstep'. by eapply heap_step_trans.
Qed.

Lemma cube_ok_set_cell s c0 cell0 cell0' :
  cube_ok s → c0 = hc_C0 s → hc_cells s !! c0 = Some cell0 →
  c_C cell0' = c_C cell0 →
  cube_ok (set_cells (<[c0 := cell0']> (hc_cells s)) s).
Proof.
  intros (Hok & cell & Hc & HC) -> Hc0 HC'. split; [done|]. simpl.
  exists cell0'. split.
  - apply list_lookup_insert_eq. by eapply lookup_lt_Some.
  - rewrite HC'. unfold objs_of in *. simpl. congruence.
Qed.

Lemma wp_homology_group_rank s c0 :
  cube_ok s → c0 = hc_C0 s →
  wp (homology_group_rank c0) s
     (ok (λ _ s', cube_ok s' ∧ keys s' = keys s ∧ shell s' = shell s)).
Proof.
  intros Hok ->. pose proof Hok as (Hcok & cell0 & Hc0 & HC).
  unfold homology_group_rank. apply wp_bind_ok.
  eapply wp_cell_deref; [done|]. simpl.
  destruct (c_hg_n cell0) as [n|]; [by apply wp_ret|].
  apply wp_bind_ok. eapply wp_ok_mono.
  { apply wp_count_minimisers; [done|]. rewrite HC. intros a Ha%elem_of_seq. lia. }
  intros n s1 Hstep.
  pose proof (heap_step_cube_ok _ _ Hok Hstep) as Hok1.
  pose proof (heap_step_keys _ _ Hstep) as Hk1.
  destruct Hstep as (_ & _ & Hcells & Hsh & _).
  apply wp_bind_ok. eapply wp_cell_update.
  { by rewrite Hcells. }
  simpl. apply wp_ret. simpl. split_and!; [|done|done].
  eapply (cube_ok_set_cell s1 _ cell0); [done|by rewrite (shell_C0 _ _ Hsh)| |done].
  by rewrite Hcells.
Qed.

Lemma wp_graph_map s :
  cube_ok s →
  wp graph_map s (ok (λ _ s', s' = set_graph (template (objs_of s)) s)).
Proof.
  intros (Hcok & cell0 & Hc0 & HC). unfold graph_map.
  apply wp_bind_ok, wp_gets. simpl.
  apply wp_bind_ok. eapply wp_cell_deref; [done|]. simpl.
  apply wp_bind_ok. rewrite HC.
  pose proof Hcok as (Hhok & _ & _ & _ & _ & Hidx & _).
  eapply wp_intro.
  { apply (for_collect_pure _ _ (λ a, Z.of_nat <$> iteration a (nn_of (objs_of s) a))).
    intros a Ha%elem_of_seq.
    destruct (lookup_lt_is_Some_2 (objs_of s) a) as [v Hv]; [lia|].
    rewrite (bind_ok _ _ _ _ _ (on_heap_deref _ _ _ Hv)).
    assert (nn_of (objs_of s) a = v_nn v) as -> by (unfold nn_of; by rewrite Hv).
    apply for_collect_pure. intros w Hw%elem_of_iteration.
    destruct (lookup_lt_is_Some_2 (objs_of s) w) as [v2 Hv2].
    { by apply (heap_ok_lookup _ _ _ Hhok Hv). }
    rewrite (bind_ok _ _ _ _ _ (on_heap_deref _ _ _ Hv2)).
    unfold ret. by rewrite (Hidx _ _ Hv2). }
  simpl. by apply wp_modify.
Qed.

(** ** Building a child cell *)

(** The affine image [origin*(1-u) + suprenum*u] of a template vertex [u],
    as the three array operations compute it on arrays of one length. *)
Definition affine (origin suprenum u : key) : key :=
  zip_with Qcplus (zip_with Qcminus origin (zip_with Qcmult origin u))
                  (zip_with Qcmult suprenum u).

Lemma broadcast2_same op a b :
  length a = length b → broadcast2 op a b = inr (zip_with op a b).
Proof. intros Hlen. unfold broadcast2. by rewrite decide_True. Qed.

Lemma length_affine origin suprenum u n :
  length origin = n → length suprenum = n → length u = n →
  length (affine origin suprenum u) = n.
Proof.
  intros Ho Hs Hu. unfold affine. rewrite !length_zip_with. lia.
Qed.

Lemma child_key_affine origin suprenum u n :
  length origin = n → length suprenum = n → length u = n →
  exn_bind (generate_sub_cell_t1 origin u) (λ t1,
    exn_bind (generate_sub_cell_t2 suprenum u) (λ t2,
      broadcast2 Qcplus t1 t2)) = inr (affine origin suprenum u).
Proof.
  intros Ho Hs Hu. unfold generate_sub_cell_t1, generate_sub_cell_t2.
  rewrite (broadcast2_same Qcmult origin u) by congruence. simpl.
  rewrite broadcast2_same by (rewrite length_zip_with; lia). simpl.
  rewrite (broadcast2_same Qcmult suprenum u) by congruence. simpl.
  rewrite broadcast2_same by (rewrite !length_zip_with; lia). done.
Qed.

Lemma midpoint_same origin suprenum :
  length origin = length suprenum →
  midpoint origin suprenum = inr (zip_with half_sum origin suprenum).
Proof. intros Hlen. unfold midpoint. by rewrite broadcast2_same. Qed.

(** What lookups, additions to the cell [c_new] and connections do to a
    complex whose objective does not raise: the cache and the graph grow,
    and no other cell changes. *)
Definition grows (c_new : addr) (s s' : Complex) : Prop :=
  cache_ok (hc_V s') ∧ shell s' = shell s ∧
  (∀ x a, vc_cache (hc_V s) !! x = Some a → vc_cache (hc_V s') !! x = Some a) ∧
  (∀ a v, objs_of s !! a = Some v → ∃ v', objs_of s' !! a = Some v' ∧ same_id v v') ∧
  (∀ c, nn_of (objs_of s) c ⊆ nn_of (objs_of s') c) ∧
  length (hc_cells s') = length (hc_cells s) ∧
  (∀ c, c ≠ c_new → hc_cells s' !! c = hc_cells s !! c).

Lemma grows_refl c s : cache_ok (hc_V s) → grows c s s.
Proof.
  intros Hok. unfold grows. split_and!; try done.
  intros a v Hv. exists v. split; [done|apply same_id_refl].
Qed.

Lemma grows_trans c s1 s2 s3 : grows c s1 s2 → grows c s2 s3 → grows c s1 s3.
Proof.
  intros (_ & Hsh1 & Hc1 & Hid1 & Hnn1 & Hl1 & Hcell1)
         (Hok & Hsh2 & Hc2 & Hid2 & Hnn2 & Hl2 & Hcell2).
  unfold grows. split_and!; [done|congruence|by auto| | |congruence|].
  - intros a v Hv. destruct (Hid1 _ _ Hv) as (v' & Hv' & Hs').
    destruct (Hid2 _ _ Hv') as (v'' & Hv'' & Hs''). exists v''.
    split; [done|by eapply same_id_trans].
  - intros c'. etrans; [apply Hnn1|apply Hnn2].
  - intros c' Hne. by rewrite Hcell2, Hcell1.
Qed.

Lemma heap_step_grows c s s' : heap_step s s' → grows c s s'.
Proof.
  intros (Hok & Hc & Hcells & Hsh & Hids & Hnn).
  unfold grows. split_and!; try done.
  - intros x a. by rewrite Hc.
  - intros a v Hv. by apply (ids_lookup (objs_of s)).
  - by rewrite Hcells.
  - intros c' _. by rewrite Hcells.
Qed.

Lemma grows_keys c s s' x : grows c s s' → x ∈ keys s → x ∈ keys s'.
Proof.
  intros (_ & _ & Hc & _) [a Ha]%keys_lookup. unfold keys.
  apply elem_of_dom. exists a. by apply Hc.
Qed.

Lemma grows_length c s s' : grows c s s' → (length (objs_of s) ≤ length (objs_of s'))%nat.
Proof.
  intros (_ & _ & _ & Hid & _).
  destruct (decide (length (objs_of s) = 0%nat)) as [|Hne]; [lia|].
  destruct (lookup_lt_is_Some_2 (objs_of s) (pred (length (objs_of s)))) as [v Hv]; [lia|].
  destruct (Hid _ _ Hv) as (v' & Hv'%lookup_lt_Some & _). lia.
Qed.

Lemma wp_lookup_add_cell {B} s x fx c (k : M Complex B) Q :
  cache_ok (hc_V s) → is_Some (hc_cells s !! c) → func x = inr fx →
  (∀ s', grows c s s' → x ∈ keys s' → wp k s' Q) →
  wp (a <- V_get x ;; add_vertex c a ;;; k) s Q.
Proof.
  intros Hok [cell Hcell] Hf HQ. apply wp_bind.
  assert (∀ s1 a, cache_ok (hc_V s1) → hc_cells s1 = hc_cells s →
            grows c s s1 → x ∈ keys s1 →
            wp (add_vertex c a ;;; k) s1 Q) as Hadd.
  { intros s1 a Hok1 Hcells Hg Hx. apply wp_bind.
    eapply wp_add_vertex; [by rewrite Hcells| |].
    - intros _. by apply HQ.
    - intros _. apply HQ; [|done].
      eapply grows_trans; [done|].
      unfold grows. split_and!; try done.
      + intros a' v Hv. exists v. split; [done|apply same_id_refl].
      + simpl. by rewrite length_insert.
      + intros c' Hne. simpl. by rewrite list_lookup_insert_ne. }
  destruct (vc_cache (hc_V s) !! x) as [a|] eqn:Hx.
  - eapply wp_V_get_hit; [done|]. apply Hadd; [done..|by apply grows_refl|].
    unfold keys. by apply elem_of_dom_2 in Hx.
  - eapply wp_V_get_miss; [done..|]. apply Hadd; [by apply cache_ok_alloc|done| |].
    + unfold grows. split_and!; try done.
      * by apply cache_ok_alloc.
      * intros y a Hy. simpl. rewrite lookup_insert_ne; [done|]. congruence.
      * intros a v Hv. exists v. split; [|apply same_id_refl].
        unfold objs_of. simpl. by apply lookup_app_l_Some.
      * intros c'. unfold objs_of. simpl. rewrite nn_of_app.
        case_decide as Hc'; [|done]. subst c'. unfold nn_of.
        rewrite lookup_ge_None_2; [set_solver|done].
    + unfold keys. simpl. rewrite dom_insert_L. set_solver.
Qed.

Lemma generate_sub_cell_t1_same origin u :
  length origin = length u →
  generate_sub_cell_t1 origin u =
    inr (zip_with Qcminus origin (zip_with Qcmult origin u)).
Proof.
  intros Hlen. unfold generate_sub_cell_t1.
  rewrite (broadcast2_same Qcmult origin u) by done. simpl.
  rewrite broadcast2_same by (rewrite length_zip_with; lia). done.
Qed.

Lemma elem_of_removelast {A} (l : list A) (a : A) : a ∈ removelast l → a ∈ l.
Proof.
  rewrite removelast_firstn_len. intros (i & Hi & _)%elem_of_take.
  by eapply list_elem_of_lookup_2.
Qed.

Lemma length_removelast {A} (l : list A) : length (removelast l) = pred (length l).
Proof. rewrite removelast_firstn_len, length_take. lia. Qed.

Lemma lookup_removelast {A} (l : list A) i a :
  removelast l !! i = Some a → l !! i = Some a.
Proof. rewrite removelast_firstn_len. by intros [? _]%lookup_take_Some. Qed.

Lemma wp_for_rows {St} i rows (body : nat → list Z → M St unit) s Q :
  wp (for_each (zip (seq i (length rows)) rows) (λ p, body p.1 p.2)) s Q →
  wp (for_rows i rows body) s Q.
Proof. unfold wp. by rewrite for_rows_for_each. Qed.

Lemma elem_of_zip_seq {A} (l : list A) i (a : A) :
  (i, a) ∈ zip (seq 0 (length l)) l ↔ l !! i = Some a.
Proof.
  rewrite list_elem_of_lookup. split.
  - intros (k & Hk). apply lookup_zip_with_Some in Hk as (i' & a' & [= -> ->] & Hi & Ha).
    apply lookup_seq in Hi as [-> _]. done.
  - intros Ha. exists i. apply lookup_zip_with_Some. exists i, a.
    split; [done|]. split; [|done]. apply lookup_seq. split; [done|].
    by eapply lookup_lt_Some.
Qed.

(** Two positions of [V_new] hold the keys of one vertex or of two
    adjacent vertices. *)
Definition joined (V_new : list key) (s : Complex) (i : nat) (j : Z) : Prop :=
  ∃ ki kj ai aj,
    V_new !! i = Some ki ∧ py_index V_new j = Some kj ∧
    vc_cache (hc_V s) !! ki = Some ai ∧ vc_cache (hc_V s) !! kj = Some aj ∧
    (ai = aj ∨ (aj ∈ nn_of (objs_of s) ai ∧ ai ∈ nn_of (objs_of s) aj)).

Lemma joined_mono V_new s s' i j : heap_step s s' → joined V_new s i j → joined V_new s' i j.
Proof.
  intros (_ & Hc & _ & _ & _ & Hnn) (ki & kj & ai & aj & Hi & Hj & Hai & Haj & Hadj).
  exists ki, kj, ai, aj. rewrite Hc. split_and!; try done.
  destruct Hadj as [?|[? ?]]; [by left|right]. split; by apply Hnn.
Qed.

Lemma wp_replay_graph V_new s :
  cache_ok (hc_V s) → Forall (λ k, k ∈ keys s) V_new →
  length (hc_graph s) = length V_new →
  Forall (Forall (λ j, (0 ≤ j < Z.of_nat (length V_new))%Z)) (hc_graph s) →
  wp (replay_graph V_new) s
     (ok (λ _ s', heap_step s s' ∧
          ∀ i row j, hc_graph s !! i = Some row → j ∈ row → joined V_new s' i j)).
Proof.
  intros Hok Hkeys Hlen Hvalid. unfold replay_graph.
  apply wp_bind_ok, wp_gets. simpl. apply wp_for_rows.
  set (g := hc_graph s) in *.
  eapply wp_ok_mono;
    [apply (wp_for_each (λ seen s', heap_step s s' ∧
              ∀ p j, p ∈ seen → j ∈ p.2 → joined V_new s' p.1 j))|].
  - split; [by apply heap_step_refl|]. intros p j []%elem_of_nil.
  - intros seen [i row] rest s1 Hl [Hstep1 Hseen]. simpl.
    assert (g !! i = Some row) as Hrow.
    { apply elem_of_zip_seq. rewrite Hl. set_solver. }
    assert (i < length V_new)%nat as Hi.
    { rewrite <-Hlen. by eapply lookup_lt_Some. }
    destruct (lookup_lt_is_Some_2 V_new i Hi) as [ki Hki].
    assert (Forall (λ j, (0 ≤ j < Z.of_nat (length V_new))%Z) row) as Hj.
    { eapply Forall_lookup_1; [exact Hvalid|exact Hrow]. }
    eapply wp_ok_mono;
      [apply (wp_for_each (λ seenj s', heap_step s s' ∧
                (∀ p j, p ∈ seen → j ∈ p.2 → joined V_new s' p.1 j) ∧
                ∀ j, j ∈ seenj → joined V_new s' i j))|].
    + split; [done|]. split; [done|]. intros j []%elem_of_nil.
    + intros seenj j restj s2 Hlj (Hstep2 & Hseen2 & Hseenj). simpl.
      assert (j ∈ row) as Hjrow by (rewrite Hlj; set_solver).
      pose proof (proj1 (Forall_forall _ _) Hj j Hjrow) as Hjr. simpl in Hjr.
      assert (py_index V_new j = V_new !! Z.to_nat j) as Hpy.
      { unfold py_index. by rewrite decide_True by lia. }
      destruct (lookup_lt_is_Some_2 V_new (Z.to_nat j)) as [kj Hkj]; [lia|].
      pose proof (heap_step_keys _ _ Hstep2) as Hk2.
      assert (ki ∈ keys s2) as [ai Hai]%keys_lookup.
      { rewrite Hk2. exact (Forall_lookup_1 (λ k, k ∈ keys s) V_new i ki Hkeys Hki). }
      assert (kj ∈ keys s2) as [aj Haj]%keys_lookup.
      { rewrite Hk2. exact (Forall_lookup_1 (λ k, k ∈ keys s) V_new _ kj Hkeys Hkj). }
      pose proof Hstep2 as (Hok2 & _).
      apply wp_bind_ok, wp_from_option. rewrite Hki. simpl.
      apply wp_bind_ok. eapply wp_V_get_hit; [done|]. simpl.
      apply wp_bind_ok, wp_from_option. rewrite Hpy, Hkj. simpl.
      apply wp_bind_ok. eapply wp_V_get_hit; [done|]. simpl.
      apply wp_connect_addrs; [done|by eapply cache_ok_lookup_lt..|].
      intros s3 Hstep3 Hadj. simpl.
      split; [by eapply heap_step_trans|]. split.
      * intros p j' Hp Hj'. eapply joined_mono; [done|]. by apply Hseen2.
      * intros j' [Hj'| ->%list_elem_of_singleton]%elem_of_app.
        -- eapply joined_mono; [done|]. by apply Hseenj.
        -- pose proof Hstep3 as (_ & Hc3 & _).
           exists ki, kj, ai, aj. rewrite Hc3, Hpy. split_and!; try done.
           destruct (decide (ai = aj)); [by left|right; by apply Hadj].
    + intros u s2 (Hstep2 & Hseen2 & Hrowdone). simpl. split; [done|].
      intros p j [Hp| ->%list_elem_of_singleton]%elem_of_app Hj'; [by apply Hseen2|].
      by apply Hrowdone.
  - intros u s1 [Hstep1 Hall]. simpl. split; [done|].
    intros i row j Hrow Hj. apply (Hall (i, row) j); [|done].
    by apply elem_of_zip_seq.
Qed.

(** ** The initial complex *)

Section Cube.

(** The dimension, and the assumption that the objective returns at every
    point of that dimension. *)
Variable d : nat.
Hypothesis func_total : ∀ x : key, length x = d → ∃ fx, func x = inr fx.

Lemma above_differ xi y i_parents :
  binary d xi → binary d y → above xi y → y ≠ xi →
  (∀ i, i ∈ i_parents ↔ xi !! i = Some 1) →
  ∃ i, i ∈ iter_range (Z.of_nat d) i_parents ∧ y !! i = Some 1.
Proof.
  intros Hxi Hy Hab Hne Hip.
  destruct (list_differ y xi) as (i & q & r & Hq & Hr & Hqr);
    [destruct Hxi, Hy; congruence|done|].
  assert (i < d)%nat as Hi by (apply lookup_lt_Some in Hq; destruct Hy; lia).
  exists i. rewrite elem_of_iter_range, Hip.
  destruct (binary_lookup d xi i Hxi Hi) as [H0|H1].
  - destruct (binary_lookup d y i Hy Hi) as [H0'|H1']; [congruence|].
    split; [split; [done|]|done]. rewrite H0. by intros [=].
  - specialize (Hab i H1). congruence.
Qed.

Lemma wp_perm fuel : ∀ i_parents x_parents xi s,
  cube_ok s → hc_dim s = Z.of_nat d →
  binary d xi → NoDup i_parents → (∀ i, i ∈ i_parents ↔ xi !! i = Some 1) →
  (d ≤ fuel + length i_parents)%nat →
  xi ∈ keys s → (∀ x, x ∈ x_parents → x ∈ keys s) →
  wp (perm fuel i_parents x_parents xi) s
     (ok (λ _ s', cube_ok s' ∧ shell s' = shell s ∧
          ∀ y, y ∈ keys s' ↔ y ∈ keys s ∨ (binary d y ∧ above xi y ∧ y ≠ xi))).
Proof.
  induction fuel as [|fuel IH]; intros ip xp xi s Hok Hdim Hbin Hnd Hip Hfuel Hxi Hxp.
  - assert (iter_range (Z.of_nat d) ip = []) as Hnil.
    { apply iter_range_full; [done| |simpl in Hfuel; lia].
      intros i Hi%Hip. apply lookup_lt_Some in Hi. destruct Hbin. lia. }
    simpl. apply wp_bind, wp_gets. rewrite Hdim, Hnil. simpl.
    split; [done|]. split; [done|]. intros y. split; [auto|].
    intros [?|(Hy & Hab & Hne)]; [done|].
    destruct (above_differ xi y ip) as (i & Hi & _); [done..|].
    rewrite Hnil in Hi. by apply elem_of_nil in Hi.
  - simpl. apply wp_bind, wp_gets. rewrite Hdim.
    set (Inv := λ (seen : list nat) (s' : Complex),
           cube_ok s' ∧ shell s' = shell s ∧
           ∀ y, y ∈ keys s' ↔
                y ∈ keys s ∨ (binary d y ∧ above xi y ∧
                              ∃ i, i ∈ seen ∧ y !! i = Some 1)).
    eapply wp_ok_mono; [apply (wp_for_each Inv)|].
    + split; [done|]. split; [done|]. intros y. split; [auto|].
      intros [?|(_ & _ & i & []%elem_of_nil & _)]. done.
    + intros seen a rest s1 Hl (Hok1 & Hsh1 & Hk1).
      assert (a ∈ iter_range (Z.of_nat d) ip) as [Ha Hnip]%elem_of_iter_range.
      { rewrite Hl. set_solver. }
      assert (length xi = d) as Hlen by (by destruct Hbin).
      assert (xi !! a = Some 0) as Ha0.
      { destruct (binary_lookup d xi a Hbin Ha) as [?|H1%Hip]; done. }
      apply wp_bind_ok, wp_from_result.
      unfold list_set. rewrite decide_True by lia. simpl.
      destruct (func_total (<[a := 1]> xi)) as [fx Hfx]; [by rewrite length_insert|].
      apply wp_bind_ok. eapply wp_ok_mono.
      { eapply wp_add_and_connect; [done..| |].
        - apply Hk1. by left.
        - intros x Hx. apply Hk1. left. by apply Hxp. }
      intros u s2 (Hok2 & Hk2 & Hsh2).
      eapply wp_ok_mono.
      { apply IH; [done| | | | | | |].
        - by rewrite (shell_dim _ _ Hsh2), (shell_dim _ _ Hsh1).
        - by apply binary_insert.
        - apply NoDup_app. split_and!; [done| |apply NoDup_singleton].
          intros i Hi ->%list_elem_of_singleton. done.
        - intros i. rewrite elem_of_app, list_elem_of_singleton, Hip.
          destruct (decide (i = a)) as [->|Hia].
          + rewrite list_lookup_insert_eq by lia. naive_solver.
          + rewrite list_lookup_insert_ne by done. naive_solver.
        - rewrite length_app. simpl. lia.
        - rewrite Hk2. set_solver.
        - intros x Hx. rewrite Hk2. apply elem_of_union_r, Hk1. left.
          apply elem_of_app in Hx as [?| ->%list_elem_of_singleton]; auto. }
      intros u' s3 (Hok3 & Hsh3 & Hk3). simpl.
      split; [done|]. split; [congruence|].
      assert (above xi (<[a := 1]> xi)) as Hab2.
      { intros i Hi. destruct (decide (i = a)) as [->|];
          [destruct Qc_0_1; congruence|].
        by rewrite list_lookup_insert_ne. }
      intros y. rewrite Hk3, Hk2, elem_of_union, elem_of_singleton, Hk1. split.
      * intros [[->|[?|(Hy & Hab & i & Hi & Hyi)]]|(Hy & Hab & Hne)].
        -- right. split; [by apply binary_insert|]. split; [done|].
           exists a. split; [set_solver|]. apply list_lookup_insert_eq. lia.
        -- by left.
        -- right. split; [done|]. split; [done|]. exists i. split; [set_solver|done].
        -- right. split; [done|]. split; [intros i Hi; by apply Hab, Hab2|].
           exists a. split; [set_solver|]. apply Hab, list_lookup_insert_eq. lia.
      * intros [?|(Hy & Hab & i & Hi & Hyi)]; [by auto|].
        apply elem_of_app in Hi as [Hi| ->%list_elem_of_singleton].
        -- left. right. right. split; [done|]. split; [done|]. by exists i.
        -- destruct (decide (y = <[a := 1]> xi)) as [->|Hne]; [by auto|].
           right. split; [done|]. split; [|done].
           intros i. destruct (decide (i = a)) as [->|]; [done|].
           rewrite list_lookup_insert_ne by done. apply Hab.
    + simpl. intros u s' (Hok' & Hsh' & Hk'). split; [done|]. split; [done|].
      intros y. rewrite Hk'. split.
      * intros [?|(Hy & Hab & i & [Hi Hni]%elem_of_iter_range & Hyi)]; [by left|].
        right. split; [done|]. split; [done|]. intros ->. by apply Hni, Hip.
      * intros [?|(Hy & Hab & Hne)]; [by left|]. right. split; [done|].
        split; [done|]. by apply (above_differ xi y ip).
Qed.

Lemma wp_perm_symmetry fuel : ∀ i_s x_parents s,
  cube_ok s → hc_dim s = Z.of_nat d →
  (i_s < d)%nat → (d ≤ fuel + S i_s)%nat →
  chain_vertex d i_s ∈ keys s → (∀ x, x ∈ x_parents → x ∈ keys s) →
  wp (perm_symmetry fuel i_s x_parents (chain_vertex d i_s)) s
     (ok (λ _ s', cube_ok s' ∧ shell s' = shell s ∧
          ∀ y, y ∈ keys s' ↔
               y ∈ keys s ∨ ∃ k, (i_s < k ≤ d)%nat ∧ y = chain_vertex d k)).
Proof.
  induction fuel as [|fuel IH]; intros i_s xp s Hok Hdim Hi Hfuel Hxi Hxp;
    rewrite perm_symmetry_eq.
  all: apply wp_bind_ok, wp_from_result; unfold list_set;
    rewrite decide_True by (rewrite length_chain_vertex; lia); simpl;
    rewrite chain_vertex_insert by done;
    destruct (func_total (chain_vertex d (S i_s))) as [fx Hfx];
      [apply length_chain_vertex; lia|];
    apply wp_bind_ok; (eapply wp_ok_mono; [by eapply wp_add_and_connect|]);
    intros u s1 (Hok1 & Hk1 & Hsh1);
    apply wp_bind_ok, wp_gets; simpl;
    rewrite (shell_dim _ _ Hsh1), Hdim.
  - rewrite bool_decide_eq_true_2 by lia. apply wp_ret. simpl.
    split; [done|]. split; [done|]. intros y. rewrite Hk1.
    rewrite elem_of_union, elem_of_singleton. split.
    + intros [->|?]; [|by left]. right. exists (S i_s). split; [lia|done].
    + intros [?|(k & Hk & ->)]; [by right|]. left. f_equal. lia.
  - case_bool_decide as Hlast.
    + apply wp_ret. simpl.
      split; [done|]. split; [done|]. intros y. rewrite Hk1.
      rewrite elem_of_union, elem_of_singleton. split.
      * intros [->|?]; [|by left]. right. exists (S i_s). split; [lia|done].
      * intros [?|(k & Hk & ->)]; [by right|]. left. f_equal. lia.
    + eapply wp_ok_mono.
      { apply IH; [done| | | | |].
        - by rewrite (shell_dim _ _ Hsh1).
        - lia.
        - lia.
        - rewrite Hk1. set_solver.
        - intros x Hx. rewrite Hk1. apply elem_of_union_r.
          apply elem_of_app in Hx as [?| ->%list_elem_of_singleton]; auto. }
      intros u' s2 (Hok2 & Hsh2 & Hk2). simpl.
      split; [done|]. split; [congruence|]. intros y. rewrite Hk2, Hk1.
      rewrite elem_of_union, elem_of_singleton. split.
      * intros [[->|?]|(k & Hk & ->)].
        -- right. exists (S i_s). split; [lia|done].
        -- by left.
        -- right. exists k. split; [lia|done].
      * intros [?|(k & Hk & ->)]; [by auto|].
        destruct (decide (k = S i_s)) as [->|]; [by auto|].
        right. exists k. split; [lia|done].
Qed.

Lemma chain_vertex_0 : chain_vertex d 0 = replicate d 0.
Proof. unfold chain_vertex. simpl. by rewrite Nat.sub_0_r. Qed.

Lemma chain_vertex_full : chain_vertex d d = replicate d 1.
Proof. unfold chain_vertex. by rewrite Nat.sub_diag, app_nil_r. Qed.

(** The corners of the initial complex: the whole cube, or with symmetry
    the chain from the origin to the supremum. *)
Definition initial_key (symmetry : bool) (y : key) : Prop :=
  if symmetry then ∃ k, (k ≤ d)%nat ∧ y = chain_vertex d k else binary d y.

Lemma wp_n_cube symmetry s :
  hc_V s = VertexCache_init → hc_dim s = Z.of_nat d →
  (symmetry = true → (0 < d)%nat) →
  wp (n_cube (Z.of_nat d) symmetry) s
     (ok (λ _ s', cube_ok s' ∧ hc_dim s' = hc_dim s ∧
          hc_symmetry s' = hc_symmetry s ∧ hc_H s' = hc_H s ∧
          hc_gen s' = hc_gen s ∧
          ∀ y, y ∈ keys s' ↔ initial_key symmetry y)).
Proof.
  intros HV Hdim Hsym. unfold n_cube.
  rewrite decide_False by lia. rewrite Nat2Z.id.
  apply wp_bind_ok, wp_ret. simpl.
  apply wp_bind_ok, wp_modify. simpl.
  unfold new_cell. apply wp_bind_ok, wp_bind_ok, wp_get. simpl.
  apply wp_bind_ok, wp_put. simpl. apply wp_ret. simpl.
  apply wp_bind_ok, wp_modify. simpl.
  set (origin := replicate d 0). set (supremum := replicate d 1).
  set (cell0 := mkCell 0 (Some 0%nat) 0 None [] origin supremum None).
  set (s0 := set_C0 _ _).
  assert (cube_ok s0) as Hok0.
  { split; [simpl; rewrite HV; apply cache_ok_init|].
    exists cell0. split; [by apply list_lookup_middle|].
    unfold objs_of. simpl. by rewrite HV. }
  assert (keys s0 = ∅) as Hk0.
  { unfold keys. simpl. rewrite HV. simpl. apply dom_empty_L. }
  destruct (func_total origin) as [fo Hfo]; [apply length_replicate|].
  destruct (func_total supremum) as [fs Hfs]; [apply length_replicate|].
  eapply wp_lookup_add; [done..|]. intros s1 Hok1 Hk1 Hsh1.
  eapply wp_lookup_add; [done|by rewrite (shell_C0 _ _ Hsh1)|done|].
  intros s2 Hok2 Hk2 Hsh2.
  assert (shell s2 = shell s0) as Hsh by congruence.
  assert (hc_dim s2 = Z.of_nat d) as Hdim2.
  { rewrite (shell_dim _ _ Hsh). simpl. done. }
  destruct symmetry.
  - eapply wp_ok_mono.
    { subst origin. rewrite <-chain_vertex_0.
      apply wp_perm_symmetry; [done|done|by auto|lia| |].
      - rewrite chain_vertex_0, Hk2, Hk1. set_solver.
      - intros x ->%list_elem_of_singleton. rewrite chain_vertex_0, Hk2, Hk1.
        set_solver. }
    intros u s3 (Hok3 & Hsh3 & Hk3). simpl.
    assert (shell s3 = shell s0) as Hsh' by congruence.
    unfold shell in Hsh'. simpl in Hsh'. simplify_eq.
    split_and!; try done.
    intros y. rewrite Hk3, Hk2, Hk1, Hk0. split.
    + intros [Hy|(k & Hk & ->)]; [|exists k; split; [lia|done]].
      apply elem_of_union in Hy as [->%elem_of_singleton|Hy].
      * exists d. split; [done|]. by rewrite chain_vertex_full.
      * exists 0%nat. split; [lia|]. rewrite chain_vertex_0. set_solver.
    + intros (k & Hk & ->). destruct (decide (k = 0%nat)) as [->|].
      * left. rewrite chain_vertex_0. set_solver.
      * right. exists k. split; [lia|done].
  - eapply wp_ok_mono.
    { apply wp_perm; [done|done| |apply NoDup_nil_2| |simpl; lia| |].
      - by apply binary_replicate; left.
      - intros i. split; [by intros ?%elem_of_nil|].
        intros [H01 _]%lookup_replicate_1. destruct Qc_0_1; congruence.
      - rewrite Hk2, Hk1. set_solver.
      - intros x ->%list_elem_of_singleton. rewrite Hk2, Hk1. set_solver. }
    intros u s3 (Hok3 & Hsh3 & Hk3). simpl.
    assert (shell s3 = shell s0) as Hsh' by congruence.
    unfold shell in Hsh'. simpl in Hsh'. simplify_eq.
    split_and!; try done.
    intros y. rewrite Hk3, Hk2, Hk1, Hk0. split.
    + intros [Hy|(Hy & _)]; [|done].
      apply elem_of_union in Hy as [->%elem_of_singleton|Hy].
      * by apply binary_replicate; right.
      * assert (y = replicate d 0) as -> by set_solver.
        by apply binary_replicate; left.
    + intros Hy. destruct (decide (y = replicate d 0)) as [->|Hne]; [left; set_solver|].
      right. split; [done|]. split; [|done].
      intros i [H01 _]%lookup_replicate_1. destruct Qc_0_1; congruence.
Qed.

(** What the constructor establishes. *)
Definition initial_ok (symmetry : bool) (s : Complex) : Prop :=
  cube_ok s ∧ (∀ y, y ∈ keys s ↔ initial_key symmetry y) ∧
  hc_dim s = Z.of_nat d ∧ hc_symmetry s = symmetry ∧
  hc_H s = [[hc_C0 s]] ∧ hc_gen s = 0%nat ∧
  hc_graph s = template (objs_of s).

Lemma wp_init_body symmetry :
  (symmetry = true → (0 < d)%nat) →
  wp init_body (blank (Z.of_nat d) symmetry) (ok (λ _ s, initial_ok symmetry s)).
Proof.
  intros Hsym. unfold init_body.
  apply wp_bind_ok, wp_gets. simpl. apply wp_bind_ok, wp_gets. simpl.
  apply wp_bind_ok. eapply wp_ok_mono; [by apply wp_n_cube|].
  intros u s1 (Hok1 & Hdim1 & Hsym1 & HH1 & Hgen1 & Hk1). simpl in *.
  apply wp_bind_ok.
  eapply (wp_ok_mono _ _ (λ _ s2, cube_ok s2 ∧ keys s2 = keys s1 ∧
            hc_dim s2 = Z.of_nat d ∧ hc_symmetry s2 = symmetry ∧
            hc_H s2 = [] ∧ hc_gen s2 = 0%nat)).
  { destruct symmetry; [|by apply wp_ret].
    pose proof Hok1 as (Hcok & cell0 & Hc0 & HC).
    apply wp_bind_ok, wp_gets. simpl.
    apply wp_bind_ok. eapply wp_cell_deref; [done|]. simpl.
    apply wp_bind_ok, wp_from_option.
    destruct (list.last (c_C cell0)) as [a|] eqn:Hlast.
    - apply last_Some_elem_of in Hlast. rewrite HC in Hlast.
      apply elem_of_seq in Hlast.
      destruct (lookup_lt_is_Some_2 (objs_of s1) a) as [v Hv]; [lia|].
      simpl. apply wp_bind_ok.
      eapply wp_intro; [by apply on_heap_deref|]. simpl.
      apply wp_bind_ok, wp_modify. simpl.
      eapply wp_cell_update; [simpl; done|]. simpl.
      split_and!; try done. split; [done|]. simpl.
      eexists. split; [apply list_lookup_insert_eq; by eapply lookup_lt_Some|].
      simpl. done.
    - apply last_None in Hlast. rewrite HC in Hlast. apply seq_nil in Hlast.
      assert (chain_vertex d 0 ∈ keys s1) as [a Ha]%keys_lookup.
      { apply Hk1. exists 0%nat. split; [lia|done]. }
      apply (cache_ok_lookup_lt _ _ _ Hcok) in Ha. unfold objs_of in Hlast. lia. }
  intros u2 s2 (Hok2 & Hk2 & Hdim2 & Hsym2 & HH2 & Hgen2).
  apply wp_bind_ok, wp_modify. simpl.
  apply wp_bind_ok, wp_gets. simpl. apply wp_bind_ok, wp_gets. simpl.
  rewrite HH2. simpl.
  apply wp_bind_ok, wp_ret. simpl. apply wp_bind_ok, wp_modify. simpl.
  apply wp_bind_ok. eapply wp_ok_mono.
  { apply wp_homology_group_rank; [|reflexivity]. exact Hok2. }
  intros n s3 (Hok3 & Hk3 & Hsh3). simpl.
  apply wp_bind_ok, wp_modify. simpl.
  eapply wp_ok_mono.
  { apply wp_graph_map. exact Hok3. }
  intros u4 s4 ->. unfold shell in Hsh3. simpl in Hsh3. simplify_eq.
  unfold initial_ok. split_and!; simpl; try done; try congruence.
  intros y. rewrite <-Hk1, <-Hk2. unfold keys in *. simpl in *. by rewrite Hk3.
Qed.

Lemma Complex_init_total symmetry :
  (symmetry = true → (0 < d)%nat) →
  ∃ s, Complex_init (Z.of_nat d) symmetry = inr s ∧ initial_ok symmetry s.
Proof.
  intros Hsym. destruct (wp_ok_elim _ _ _ (wp_init_body symmetry Hsym))
    as ([] & s & Hinit & Hok).
  exists s. unfold Complex_init. by rewrite Hinit.
Qed.

Lemma initial_ok_counts symmetry s (listing : list key) :
  initial_ok symmetry s → NoDup listing →
  (∀ y, initial_key symmetry y ↔ y ∈ listing) →
  ∃ cell, hc_cells s !! hc_C0 s = Some cell ∧
    size (dom (vc_cache (hc_V s))) = length listing ∧
    length (vc_objs (hc_V s)) = length listing ∧
    length (c_C cell) = length listing ∧ NoDup (c_C cell) ∧
    ∀ x a, vc_cache (hc_V s) !! x = Some a → a ∈ c_C cell.
Proof.
  intros ((Hcok & cell & Hc0 & HC) & Hk & _) Hnd Hl.
  assert (size (dom (vc_cache (hc_V s))) = length listing) as Hsize.
  { apply size_of_listing; [done|]. intros y. rewrite <-Hl. apply Hk. }
  assert (length (vc_objs (hc_V s)) = length listing) as Hlen.
  { destruct Hcok as (_ & _ & _ & _ & _ & _ & <-). by rewrite <-size_dom. }
  exists cell. split_and!; try done.
  - rewrite HC, length_seq. done.
  - rewrite HC. apply NoDup_seq.
  - intros x a Ha. rewrite HC. apply elem_of_seq.
    apply (cache_ok_lookup_lt _ _ _ Hcok) in Ha. unfold objs_of. lia.
Qed.

(** X21. For a positive dimension [d] and an objective that returns at
    every point of that dimension, the constructor returns; without
    symmetry the cache then holds exactly [2^d] keys and as many vertices,
    all of them in the initial cell, which lists [2^d] distinct vertices;
    with symmetry the numbers are [d+1]. *)
Theorem initial_vertex_count :
  (0 < d)%nat →
  (∃ s cell, Complex_init (Z.of_nat d) false = inr s ∧
     hc_cells s !! hc_C0 s = Some cell ∧
     size (dom (vc_cache (hc_V s))) = (2 ^ d)%nat ∧
     length (vc_objs (hc_V s)) = (2 ^ d)%nat ∧
     length (c_C cell) = (2 ^ d)%nat ∧ NoDup (c_C cell) ∧
     ∀ x a, vc_cache (hc_V s) !! x = Some a → a ∈ c_C cell) ∧
  (∃ s cell, Complex_init (Z.of_nat d) true = inr s ∧
     hc_cells s !! hc_C0 s = Some cell ∧
     size (dom (vc_cache (hc_V s))) = (d + 1)%nat ∧
     length (vc_objs (hc_V s)) = (d + 1)%nat ∧
     length (c_C cell) = (d + 1)%nat ∧ NoDup (c_C cell) ∧
     ∀ x a, vc_cache (hc_V s) !! x = Some a → a ∈ c_C cell).
Proof.
  intros Hd. split.
  - destruct (Complex_init_total false) as (s & Hinit & Hok); [done|].
    destruct (initial_ok_counts false s (corners d) Hok (NoDup_corners d))
      as (cell & Hcell); [intros y; symmetry; apply elem_of_corners|].
    rewrite length_corners in Hcell. by exists s, cell.
  - destruct (Complex_init_total true) as (s & Hinit & Hok); [done|].
    destruct (initial_ok_counts true s (chain_vertex d <$> seq 0 (S d)) Hok)
      as (cell & Hcell).
    + apply NoDup_fmap_2_strong; [|apply NoDup_seq].
      intros k k' Hk%elem_of_seq Hk'%elem_of_seq. apply chain_vertex_inj; lia.
    + intros y. rewrite list_elem_of_fmap. unfold initial_key. split.
      * intros (k & Hk & ->). exists k. split; [done|]. apply elem_of_seq. lia.
      * intros (k & -> & Hk%elem_of_seq). exists k. split; [lia|done].
    + rewrite length_fmap, length_seq in Hcell.
      replace (S d) with (d + 1)%nat in Hcell by lia. by exists s, cell.
Qed.

Lemma initial_key_length symmetry y : initial_key symmetry y → length y = d.
Proof.
  destruct symmetry; simpl.
  - intros (k & Hk & ->). by apply length_chain_vertex.
  - by intros [? _].
Qed.

(** C2, for an objective that returns. For a positive dimension [d] and
    an objective that returns at every point of that dimension, the
    constructor returns a complex with exactly [2^d] vertices when it is
    built without symmetry and exactly [d+1] when it is built with
    symmetry: the cache holds that many vertex objects and that many keys,
    no two of the vertices have the same key, each key has [d] coordinates,
    and the initial cell lists every vertex once, in the order of
    creation. *)
Theorem initial_complex_vertices (symmetry : bool) :
  (0 < d)%nat →
  ∃ s cell, Complex_init (Z.of_nat d) symmetry = inr s ∧
    hc_cells s !! hc_C0 s = Some cell ∧
    length (vc_objs (hc_V s)) = (if symmetry then d + 1 else 2 ^ d)%nat ∧
    size (vc_cache (hc_V s)) = (if symmetry then d + 1 else 2 ^ d)%nat ∧
    NoDup (v_x <$> vc_objs (hc_V s)) ∧
    Forall (λ v, length (v_x v) = d) (vc_objs (hc_V s)) ∧
    c_C cell = seq 0 (length (vc_objs (hc_V s))).
Proof.
  intros Hd.
  destruct (Complex_init_total symmetry) as (s & Hinit & Hok); [done|].
  pose proof Hok as ((Hcok & cell & Hc0 & HC) & Hk & _).
  pose proof Hcok as (_ & _ & _ & _ & Hbij & _ & Hsize).
  assert (length (vc_objs (hc_V s)) = (if symmetry then d + 1 else 2 ^ d)%nat) as Hlen.
  { destruct symmetry.
    - destruct (initial_ok_counts true s (chain_vertex d <$> seq 0 (S d)) Hok)
        as (_ & _ & _ & Hl & _).
      + apply NoDup_fmap_2_strong; [|apply NoDup_seq].
        intros k k' Hk1%elem_of_seq Hk2%elem_of_seq. apply chain_vertex_inj; lia.
      + intros y. rewrite list_elem_of_fmap. unfold initial_key. split.
        * intros (k & Hk1 & ->). exists k. split; [done|]. apply elem_of_seq. lia.
        * intros (k & -> & Hk1%elem_of_seq). exists k. split; [lia|done].
      + rewrite Hl, length_fmap, length_seq. lia.
    - destruct (initial_ok_counts false s (corners d) Hok (NoDup_corners d))
        as (_ & _ & _ & Hl & _); [intros y; symmetry; apply elem_of_corners|].
      by rewrite Hl, length_corners. }
  exists s, cell. split_and!; [done|done|done|congruence| | |done].
  - apply NoDup_alt. intros a b x Ha Hb.
    rewrite list_lookup_fmap in Ha, Hb.
    destruct (vc_objs (hc_V s) !! a) as [va|] eqn:Hva; [|done].
    destruct (vc_objs (hc_V s) !! b) as [vb|] eqn:Hvb; [|done].
    simpl in *. simplify_eq.
    assert (vc_cache (hc_V s) !! v_x va = Some a) as H1 by (apply Hbij; by exists va).
    assert (vc_cache (hc_V s) !! v_x va = Some b) as H2 by (apply Hbij; by exists vb).
    congruence.
  - apply Forall_forall. intros v [a Hv]%list_elem_of_lookup.
    apply (initial_key_length symmetry), Hk.
    unfold keys. apply elem_of_dom. exists a. apply Hbij. by exists v.
Qed.

(** *** Child cells of a complex of dimension [d] *)

(** The state in which child cells are built: the initial cell is not
    empty, its vertices have [d] coordinates, and the template has a row for
    every position of the initial cell, holding positions of that cell. *)
Definition tmpl_ok (s : Complex) : Prop :=
  cache_ok (hc_V s) ∧
  ∃ cell0, hc_cells s !! hc_C0 s = Some cell0 ∧ c_C cell0 ≠ [] ∧
    Forall (λ a, ∃ v, objs_of s !! a = Some v ∧ length (v_x v) = d) (c_C cell0) ∧
    length (hc_graph s) = length (c_C cell0) ∧
    Forall (Forall (λ j, (0 ≤ j < Z.of_nat (length (c_C cell0)))%Z)) (hc_graph s).

Lemma initial_tmpl_ok symmetry s : initial_ok symmetry s → tmpl_ok s.
Proof.
  intros ((Hcok & cell0 & Hc0 & HC) & Hk & _ & _ & _ & _ & Hg).
  pose proof Hcok as (Hhok & _ & _ & _ & Hbij & _).
  split; [done|]. exists cell0. split; [done|].
  assert (length (objs_of s) ≠ 0%nat) as Hne.
  { assert (replicate d 0 ∈ keys s) as [a Ha]%keys_lookup.
    { apply Hk. destruct symmetry; simpl.
      - exists 0%nat. split; [lia|]. by rewrite chain_vertex_0.
      - by apply binary_replicate; left. }
    apply (cache_ok_lookup_lt _ _ _ Hcok) in Ha. unfold objs_of. lia. }
  split_and!.
  - rewrite HC. intros Hnil%seq_nil. done.
  - rewrite HC. apply Forall_forall. intros a Ha%elem_of_seq.
    destruct (lookup_lt_is_Some_2 (objs_of s) a) as [v Hv]; [lia|].
    exists v. split; [done|]. apply (initial_key_length symmetry), Hk.
    unfold keys. apply elem_of_dom. exists a. apply Hbij. by exists v.
  - rewrite Hg, HC. unfold template. by rewrite length_fmap.
  - rewrite Hg, HC, length_seq. unfold template.
    apply Forall_fmap, Forall_forall. intros a Ha. simpl.
    apply Forall_fmap, Forall_forall. intros w Hw%elem_of_iteration.
    unfold compose. apply (nn_of_lt _ _ _ Hhok) in Hw. unfold objs_of in *. lia.
Qed.

Lemma wp_build_V_new s c_new cell0 origin suprenum :
  cache_ok (hc_V s) → hc_cells s !! hc_C0 s = Some cell0 →
  Forall (λ a, ∃ v, objs_of s !! a = Some v ∧ length (v_x v) = d) (c_C cell0) →
  (c_new < length (hc_cells s))%nat →
  length origin = d → length suprenum = d →
  wp (build_V_new c_new origin suprenum) s
     (ok (λ V s', grows c_new s s' ∧
          Forall2 (λ a k, ∃ v, objs_of s !! a = Some v ∧
                               k = affine origin suprenum (v_x v))
                  (removelast (c_C cell0)) V ∧
          Forall (λ k, k ∈ keys s') V)).
Proof.
  intros Hok Hc0 Hvs Hnew Ho Hs. unfold build_V_new.
  apply wp_bind_ok, wp_gets. simpl.
  apply wp_bind_ok. eapply wp_cell_deref; [done|]. simpl.
  apply (wp_for_collect (λ seen V s',
           grows c_new s s' ∧
           Forall2 (λ a k, ∃ v, objs_of s !! a = Some v ∧
                                k = affine origin suprenum (v_x v)) seen V ∧
           Forall (λ k, k ∈ keys s') V)).
  { split; [by apply grows_refl|]. split; [apply Forall2_nil_2|apply Forall_nil_2]. }
  intros seen V a rest s1 Hl (Hg1 & HV1 & Hk1).
  assert (a ∈ c_C cell0) as Ha.
  { apply elem_of_removelast. rewrite Hl. set_solver. }
  destruct (proj1 (Forall_forall _ _) Hvs a Ha) as (v & Hv & Hlen).
  pose proof Hg1 as (Hok1 & _ & _ & Hid1 & _ & Hlen1 & _).
  destruct (Hid1 _ _ Hv) as (v1 & Hv1 & Hx1 & _).
  apply wp_bind_ok. eapply wp_intro; [by apply on_heap_deref|]. simpl.
  rewrite Hx1.
  apply wp_bind_ok, wp_from_result.
  rewrite generate_sub_cell_t1_same by congruence. simpl.
  apply wp_bind_ok, wp_from_result. unfold generate_sub_cell_t2.
  rewrite broadcast2_same by congruence. simpl.
  apply wp_bind_ok, wp_from_result.
  rewrite broadcast2_same by (rewrite !length_zip_with; lia). simpl.
  fold (affine origin suprenum (v_x v)).
  destruct (func_total (affine origin suprenum (v_x v))) as [fx Hfx].
  { by apply length_affine. }
  eapply wp_lookup_add_cell; [done| |done|].
  { apply lookup_lt_is_Some_2. lia. }
  intros s2 Hg2 Hin. apply wp_ret. simpl.
  split; [by eapply grows_trans|]. split.
  - apply Forall2_app; [done|]. apply Forall2_cons. split; [eauto|apply Forall2_nil_2].
  - apply Forall_app. split; [|by apply Forall_singleton].
    eapply Forall_impl; [exact Hk1|]. intros k Hk. by eapply grows_keys.
Qed.

(** The postcondition of [construct_hypercube]: the new cell is stored in
    row [gen], the list [V_new] holds the affine images of the template
    vertices (all but the last) followed by the centroid, it is as long as
    the initial cell, and every pair of positions recorded in the template
    is joined. *)
Definition child_built (s : Complex) (cell0 : Cell) (origin suprenum : key)
    (gen : nat) (c_new : addr) (s' : Complex) : Prop :=
  ∃ centroid V row,
    c_new = length (hc_cells s) ∧
    midpoint origin suprenum = inr centroid ∧
    Forall2 (λ a k, ∃ v, objs_of s !! a = Some v ∧ k = affine origin suprenum (v_x v))
            (removelast (c_C cell0)) V ∧
    length (V ++ [centroid]) = length (c_C cell0) ∧
    hc_H s !! gen = Some row ∧ hc_H s' = <[gen := row ++ [c_new]]> (hc_H s) ∧
    (∀ i r j, hc_graph s !! i = Some r → j ∈ r → joined (V ++ [centroid]) s' i j).

Lemma wp_construct_hypercube s cell0 origin suprenum gen hgr p_hgr_h :
  tmpl_ok s → hc_cells s !! hc_C0 s = Some cell0 →
  length origin = d → length suprenum = d → is_Some (hc_H s !! gen) →
  wp (construct_hypercube origin suprenum gen hgr p_hgr_h) s
     (ok (λ c_new s', child_built s cell0 origin suprenum gen c_new s' ∧
                      tmpl_ok s' ∧ hc_cells s' !! hc_C0 s' = Some cell0 ∧
                      hc_graph s' = hc_graph s)).
Proof.
  intros (Hcok & cell0' & Hc0' & Hne & Hvs & Hglen & Hgvalid) Hc0 Ho Hs [row Hrow].
  assert (cell0' = cell0) as -> by congruence. clear Hc0'.
  assert (hc_C0 s < length (hc_cells s))%nat as HC0lt by (by eapply lookup_lt_Some).
  unfold construct_hypercube, new_cell.
  apply wp_bind_ok, wp_bind_ok, wp_get. simpl.
  apply wp_bind_ok, wp_put. simpl. apply wp_ret. simpl.
  apply wp_bind_ok, wp_from_result.
  rewrite midpoint_same by congruence. simpl.
  set (centroid := zip_with half_sum origin suprenum).
  assert (length centroid = d) as Hcen.
  { unfold centroid. rewrite length_zip_with. lia. }
  apply wp_bind_ok. eapply wp_cell_update; [simpl; by apply list_lookup_middle|].
  simpl. set (s2 := set_cells _ _).
  assert (shell s2 = shell s) as Hsh2 by done.
  apply wp_bind_ok. eapply wp_ok_mono.
  { apply (wp_build_V_new s2 (length (hc_cells s)) cell0); [done| |done| |done|done].
    - simpl. rewrite list_lookup_insert_ne by lia. by apply lookup_app_l_Some.
    - simpl. rewrite length_insert, length_app. simpl. lia. }
  intros V s3 (Hg3 & HV & Hk3). simpl.
  destruct (func_total centroid) as [fc Hfc]; [done|].
  pose proof Hg3 as (Hok3 & Hsh3 & _ & _ & _ & Hlen3 & _).
  eapply wp_lookup_add_cell; [done| |done|].
  { apply lookup_lt_is_Some_2. rewrite Hlen3. simpl.
    rewrite length_insert, length_app. simpl. lia. }
  intros s4 Hg4 Hcin.
  pose proof Hg4 as (Hok4 & Hsh4 & _).
  assert (shell s4 = shell s) as Hsh by congruence.
  assert (hc_graph s4 = hc_graph s) as Hgr by (unfold shell in Hsh; by simplify_eq).
  assert (length (V ++ [centroid]) = length (c_C cell0)) as HlenV.
  { rewrite length_app. simpl. rewrite <-(Forall2_length _ _ _ HV), length_removelast.
    destruct (c_C cell0); [done|]. simpl. lia. }
  apply wp_bind_ok. eapply wp_ok_mono.
  { apply (wp_replay_graph (V ++ [centroid])); [done| | |].
    - apply Forall_app. split; [|by apply Forall_singleton].
      eapply Forall_impl; [exact Hk3|]. intros k Hk. by eapply grows_keys.
    - by rewrite Hgr, HlenV.
    - by rewrite Hgr, HlenV. }
  intros u s5 (Hstep5 & Hjoined). simpl.
  pose proof Hstep5 as (_ & _ & _ & Hsh5 & _).
  assert (hc_H s5 = hc_H s) as HH5.
  { assert (shell s5 = shell s) as Hsh' by congruence.
    unfold shell in Hsh'. by simplify_eq. }
  apply wp_bind_ok, wp_gets. simpl. rewrite HH5.
  apply wp_bind_ok, wp_from_option. rewrite Hrow. simpl.
  apply wp_bind_ok, wp_modify. simpl. apply wp_ret. simpl.
  assert (shell s5 = shell s) as Hsh' by congruence.
  assert (hc_C0 s5 = hc_C0 s) as HC5 by (by apply shell_C0).
  assert (hc_graph s5 = hc_graph s) as Hgr5 by (unfold shell in Hsh'; by simplify_eq).
  assert (hc_cells s5 !! hc_C0 s = Some cell0) as Hc5.
  { destruct Hstep5 as (_ & _ & -> & _).
    destruct Hg4 as (_ & _ & _ & _ & _ & _ & ->); [|lia].
    destruct Hg3 as (_ & _ & _ & _ & _ & _ & ->); [|lia].
    simpl. rewrite list_lookup_insert_ne by lia. by apply lookup_app_l_Some. }
  split; [|split_and!].
  - exists centroid, V, row. split_and!; try done.
    { by apply midpoint_same; congruence. }
    intros i r j Hr Hj. rewrite <-Hgr in Hr.
    destruct (Hjoined i r j Hr Hj) as (ki & kj & ai & aj & H1 & H2 & H3 & H4 & H5).
    by exists ki, kj, ai, aj.
  - split; [by destruct Hstep5|]. exists cell0. simpl. rewrite HC5.
    split_and!; try done; [|congruence|by rewrite Hgr5].
    eapply Forall_impl; [exact Hvs|]. intros a (v & Hv & Hlv). simpl in Hlv.
    destruct Hg3 as (_ & _ & _ & Hid3 & _). destruct Hg4 as (_ & _ & _ & Hid4 & _).
    destruct (Hid3 a v Hv) as (v3 & Hv3 & Hx3 & _).
    destruct (Hid4 a v3 Hv3) as (v4 & Hv4 & Hx4 & _).
    destruct Hstep5 as (_ & _ & _ & _ & Hids5 & _).
    destruct (ids_lookup _ _ _ _ Hids5 Hv4) as (v5 & Hv5 & Hx5 & _).
    exists v5. split; [done|]. congruence.
  - simpl. by rewrite HC5.
  - done.
Qed.

(** The states reached from [s0] by calls of [construct_hypercube] that
    find the row [gen] they append to. *)
Inductive built_from (s0 : Complex) : Complex → Prop :=
  | built_start : built_from s0 s0
  | built_child s origin suprenum gen hgr p_hgr_h c_new s' :
      built_from s0 s → length origin = d → length suprenum = d →
      is_Some (hc_H s !! gen) →
      construct_hypercube origin suprenum gen hgr p_hgr_h s = (inr c_new, s') →
      built_from s0 s'.

Lemma built_from_tmpl_ok s0 cell0 s :
  tmpl_ok s0 → hc_cells s0 !! hc_C0 s0 = Some cell0 → built_from s0 s →
  tmpl_ok s ∧ hc_cells s !! hc_C0 s = Some cell0 ∧ hc_graph s = hc_graph s0.
Proof.
  intros Hok0 Hc0. induction 1 as [|s origin suprenum gen hgr p c_new s' _ IH Ho Hs HH Hrun].
  - done.
  - destruct IH as (Hok & Hc & Hg).
    destruct (wp_ok_elim _ _ _
                (wp_construct_hypercube s cell0 origin suprenum gen hgr p Hok Hc Ho Hs HH))
      as (c & s1 & Hrun' & _ & Hok1 & Hc1 & Hg1).
    assert (s1 = s') as -> by congruence. split_and!; [done|done|congruence].
Qed.

(** C10, as the code has it. In the initial complex built without
    symmetry (positive dimension, an objective that returns at every point
    of that dimension) the vertex at
    position [i] of the initial cell has index [I = i]; the template has one
    row per position and every index it records is a position of the initial
    cell; and in that complex, or after any number of child cells have been
    built in it, [construct_hypercube] called with an origin and a supremum
    of [d] coordinates and a generation row that exists returns, with a
    list [V_new] as long as the initial cell in which, for every template
    entry [(i, j)], positions [i] and [j] are valid and hold the keys of two
    vertices that the replay has connected (or of one and the same
    vertex). *)
Theorem template_indexes_positions :
  (0 < d)%nat →
  ∃ s cell0, Complex_init (Z.of_nat d) false = inr s ∧
    hc_cells s !! hc_C0 s = Some cell0 ∧
    (∀ i a v, c_C cell0 !! i = Some a → vc_objs (hc_V s) !! a = Some v →
              v_I v = Z.of_nat i) ∧
    length (hc_graph s) = length (c_C cell0) ∧
    (∀ i row j, hc_graph s !! i = Some row → j ∈ row →
                (0 ≤ j < Z.of_nat (length (c_C cell0)))%Z) ∧
    ∀ s1 origin suprenum gen hgr p_hgr_h,
      built_from s s1 →
      length origin = d → length suprenum = d → is_Some (hc_H s1 !! gen) →
      hc_graph s1 = hc_graph s ∧ hc_cells s1 !! hc_C0 s1 = Some cell0 ∧
      ∃ c_new s',
        construct_hypercube origin suprenum gen hgr p_hgr_h s1 = (inr c_new, s') ∧
        child_built s1 cell0 origin suprenum gen c_new s'.
Proof.
  intros Hd. destruct (Complex_init_total false) as (s & Hinit & Hok); [done|].
  pose proof (initial_tmpl_ok _ _ Hok) as Htmpl.
  pose proof Hok as ((Hcok & cell0 & Hc0 & HC) & _).
  pose proof Htmpl as (_ & cell0' & Hc0' & _ & _ & Hglen & Hgvalid).
  assert (cell0' = cell0) as -> by congruence.
  exists s, cell0. split_and!; try done.
  - intros i a v Hi Hv. rewrite HC in Hi. apply lookup_seq in Hi as [-> _].
    destruct Hcok as (_ & _ & _ & _ & _ & Hidx & _). by apply Hidx.
  - intros i row j Hrow Hj.
    pose proof (Forall_lookup_1 _ _ _ _ Hgvalid Hrow) as Hr.
    by apply (proj1 (Forall_forall _ _) Hr).
  - intros s1 origin suprenum gen hgr p_hgr_h Hbuilt Ho Hs HH.
    destruct (built_from_tmpl_ok s cell0 s1 Htmpl Hc0 Hbuilt) as (Hok1 & Hc1 & Hg1).
    split; [done|]. split; [done|].
    destruct (wp_ok_elim _ _ _
                (wp_construct_hypercube s1 cell0 origin suprenum gen hgr p_hgr_h
                   Hok1 Hc1 Ho Hs HH)) as (c & s' & Hrun & Hchild & _).
    by exists c, s'.
Qed.

End Cube.

(** ** Construction with a non-positive dimension *)

Lemma wp_V_get_raise s x e Q :
  vc_cache (hc_V s) !! x = None → func x = inl e →
  Q (inl e) (set_V (mkCache (vc_objs (hc_V s)) (vc_cache (hc_V s))
                            (vc_Index (hc_V s) + 1) (vc_calls (hc_V s) ++ [x])) s) →
  wp (V_get x) s Q.
Proof.
  intros Hx Hf HQ. unfold V_get. apply wp_zoom.
  eapply wp_intro; [by apply getitem_miss_raise|]. done.
Qed.

Lemma n_cube_zero_symmetric_raises s :
  hc_V s = VertexCache_init → wp (n_cube 0 true) s (λ r _, ∃ e, r = inl e).
Proof.
  intros HV. unfold n_cube. rewrite decide_False by lia.
  apply wp_bind, wp_ret. simpl. apply wp_bind, wp_modify. simpl.
  unfold new_cell. apply wp_bind, wp_bind, wp_get. simpl.
  apply wp_bind, wp_put. simpl. apply wp_ret. simpl.
  apply wp_bind, wp_modify. simpl.
  set (s0 := set_C0 _ _).
  destruct (func []) as [e|fx] eqn:Hf.
  - apply wp_bind. eapply wp_V_get_raise; [|done|by eexists].
    simpl. by rewrite HV.
  - assert (cube_ok s0) as Hok0.
    { split; [simpl; rewrite HV; apply cache_ok_init|].
      eexists. split; [by apply list_lookup_middle|].
      unfold objs_of. simpl. by rewrite HV. }
    eapply wp_lookup_add; [done..|]. intros s1 Hok1 Hk1 Hsh1.
    eapply wp_lookup_add; [done|by rewrite (shell_C0 _ _ Hsh1)|done|].
    intros s2 Hok2 Hk2 Hsh2.
    apply wp_bind. unfold wp. simpl. by eexists.
Qed.

(** X22. A negative dimension makes the constructor
    raise ([numpy.zeros] refuses it with [ValueError]) and so does
    dimension 0 with symmetry (the assignment [xi2[0] = 1] is out of range,
    unless the objective raised before); dimension 0 without symmetry is
    accepted: whenever the objective returns at the empty key, the
    constructor returns a complex whose root cell holds its single
    vertex, the one of key [()]. *)
Theorem init_nonpositive_dimension :
  (∀ dim symmetry, (dim < 0)%Z → Complex_init dim symmetry = inl ValueError) ∧
  (∃ e, Complex_init 0 true = inl e) ∧
  (∀ fx, func [] = inr fx →
     ∃ s cell, Complex_init 0 false = inr s ∧
       hc_H s = [[hc_C0 s]] ∧ hc_cells s !! hc_C0 s = Some cell ∧
       c_C cell = [0%nat] ∧ dom (vc_cache (hc_V s)) = {[ [] ]} ∧
       length (vc_objs (hc_V s)) = 1%nat).
Proof.
  split_and!.
  - intros dim symmetry Hneg.
    unfold Complex_init, init_body, n_cube, bind, gets. simpl.
    by rewrite decide_True.
  - assert (wp init_body (blank 0 true) (λ r _, ∃ e, r = inl e)) as Hwp.
    { unfold init_body. apply wp_bind, wp_gets. simpl. apply wp_bind, wp_gets. simpl.
      apply wp_bind. eapply wp_mono; [by apply n_cube_zero_symmetric_raises|].
      intros r s1 [e ->]. by exists e. }
    apply wp_elim in Hwp as (r & s1 & Hinit & e & ->).
    exists e. unfold Complex_init. by rewrite Hinit.
  - intros fx Hf.
    destruct (Complex_init_total 0) with (symmetry := false)
      as (s & Hinit & Hok); [|done|].
    { intros [|??] Hlen; [by exists fx|done]. }
    pose proof Hok as ((Hcok & cell & Hc0 & HC) & Hk & _ & _ & HH & _).
    destruct (initial_ok_counts 0 false s [[]] Hok) as (cell' & Hc0' & _ & Hlen & _).
    { apply NoDup_singleton. }
    { intros y. rewrite list_elem_of_singleton. simpl. split.
      - intros [Hlen _]. by destruct y.
      - intros ->. by split. }
    exists s, cell. split_and!; try done.
    + rewrite HC. unfold objs_of. by rewrite Hlen.
    + apply set_eq. intros y. rewrite elem_of_singleton. fold (keys s).
      rewrite Hk. simpl. split.
      * intros [Hl _]. by destruct y.
      * intros ->. by split.
Qed.

Lemma n_cube_zero_symmetric_index_error s fx :
  hc_V s = VertexCache_init → func [] = inr fx →
  wp (n_cube 0 true) s (λ r _, r = inl IndexError).
Proof.
  intros HV Hf. unfold n_cube. rewrite decide_False by lia.
  apply wp_bind, wp_ret. simpl. apply wp_bind, wp_modify. simpl.
  unfold new_cell. apply wp_bind, wp_bind, wp_get. simpl.
  apply wp_bind, wp_put. simpl. apply wp_ret. simpl.
  apply wp_bind, wp_modify. simpl.
  set (s0 := set_C0 _ _).
  assert (cube_ok s0) as Hok0.
  { split; [simpl; rewrite HV; apply cache_ok_init|].
    eexists. split; [by apply list_lookup_middle|].
    unfold objs_of. simpl. by rewrite HV. }
  eapply wp_lookup_add; [done..|]. intros s1 Hok1 Hk1 Hsh1.
  eapply wp_lookup_add; [done|by rewrite (shell_C0 _ _ Hsh1)|done|].
  intros s2 Hok2 Hk2 Hsh2.
  apply wp_bind. unfold wp. simpl. done.
Qed.

(** C7, as the code has it. The constructor has no check of the dimension.
    A negative dimension makes it raise [ValueError] (raised by
    [numpy.zeros]).  With dimension 0 the origin is the empty key: when the
    objective raises there, the constructor raises that exception; when
    the objective returns there, the constructor raises [IndexError] with
    symmetry (the assignment [xi2[0] = 1] is out of range), and without
    symmetry it returns a complex, whose root cell holds its single
    vertex, the one of key [()]. *)
Theorem nonpositive_dimension_outcomes :
  (∀ dim symmetry, (dim < 0)%Z → Complex_init dim symmetry = inl ValueError) ∧
  (∀ symmetry e, func [] = inl e → Complex_init 0 symmetry = inl e) ∧
  (∀ fx, func [] = inr fx →
     Complex_init 0 true = inl IndexError ∧
     ∃ s cell, Complex_init 0 false = inr s ∧
       hc_H s = [[hc_C0 s]] ∧ hc_cells s !! hc_C0 s = Some cell ∧
       c_C cell = [0%nat] ∧ dom (vc_cache (hc_V s)) = {[ [] ]} ∧
       length (vc_objs (hc_V s)) = 1%nat).
Proof.
  split_and!.
  - intros dim symmetry Hneg.
    unfold Complex_init, init_body, n_cube, bind, gets. simpl.
    by rewrite decide_True.
  - intros symmetry e Hf.
    assert (wp init_body (blank 0 symmetry) (λ r _, r = inl e)) as Hwp.
    { unfold init_body. apply wp_bind, wp_gets. simpl. apply wp_bind, wp_gets. simpl.
      apply wp_bind. unfold n_cube. rewrite decide_False by lia.
      apply wp_bind, wp_ret. simpl. apply wp_bind, wp_modify. simpl.
      unfold new_cell. apply wp_bind, wp_bind, wp_get. simpl.
      apply wp_bind, wp_put. simpl. apply wp_ret. simpl.
      apply wp_bind, wp_modify. simpl. apply wp_bind.
      eapply wp_V_get_raise; [done|exact Hf|done]. }
    unfold wp in Hwp. unfold Complex_init.
    destruct (init_body (blank 0 symmetry)) as [r s]. simpl in Hwp. by rewrite Hwp.
  - intros fx Hf. split.
    + assert (wp init_body (blank 0 true) (λ r _, r = inl IndexError)) as Hwp.
      { unfold init_body. apply wp_bind, wp_gets. simpl. apply wp_bind, wp_gets. simpl.
        apply wp_bind. eapply wp_mono; [by eapply n_cube_zero_symmetric_index_error|].
        by intros r s1 ->. }
      unfold wp in Hwp. unfold Complex_init.
      destruct (init_body (blank 0 true)) as [r s]. simpl in Hwp. by rewrite Hwp.
    + destruct (Complex_init_total 0) with (symmetry := false)
        as (s & Hinit & Hok); [|done|].
      { intros [|??] Hlen; [by exists fx|done]. }
      pose proof Hok as ((Hcok & cell & Hc0 & HC) & Hk & _ & _ & HH & _).
      destruct (initial_ok_counts 0 false s [[]] Hok) as (cell' & Hc0' & _ & Hlen & _).
      { apply NoDup_singleton. }
      { intros y. rewrite list_elem_of_singleton. simpl. split.
        - intros [Hlen _]. by destruct y.
        - intros ->. by split. }
      exists s, cell. split_and!; try done.
      * rewrite HC. unfold objs_of. by rewrite Hlen.
      * apply set_eq. intros y. rewrite elem_of_singleton. fold (keys s).
        rewrite Hk. simpl. split.
        -- intros [Hl _]. by destruct y.
        -- intros ->. by split.
Qed.

(** ** Invariants of a generation step, whatever its outcome *)

(** [keeps P m]: [P] holds after [m] when it held before, whether [m]
    returns or raises. *)
Definition keeps {St A} (P : St → Prop) (m : M St A) : Prop :=
  ∀ s, P s → P (m s).2.

Lemma keeps_wp {St A} (P : St → Prop) (m : M St A) s :
  keeps P m → P s → wp m s (λ _ s', P s').
Proof. intros Hm Hs. by apply Hm. Qed.

Lemma keeps_ret {St A} (P : St → Prop) (a : A) : keeps P (ret a).
Proof. by intros s. Qed.

Lemma keeps_raise {St A} (P : St → Prop) e : keeps P (raise (A:=A) e).
Proof. by intros s. Qed.

Lemma keeps_get {St} (P : St → Prop) : keeps P get.
Proof. by intros s. Qed.

Lemma keeps_gets {St A} (P : St → Prop) (q : St → A) : keeps P (gets q).
Proof. by intros s. Qed.

Lemma keeps_from_option {St A} (P : St → Prop) e (o : option A) :
  keeps P (from_option e o).
Proof. destruct o; by intros s. Qed.

Lemma keeps_from_result {St A} (P : St → Prop) (r : exn + A) :
  keeps P (from_result r).
Proof. destruct r; by intros s. Qed.

Lemma keeps_modify {St} (P : St → Prop) (g : St → St) :
  (∀ s, P s → P (g s)) → keeps P (modify g).
Proof. intros Hg s. apply Hg. Qed.

Lemma keeps_bind {St A B} (P : St → Prop) (m : M St A) (k : A → M St B) :
  keeps P m → (∀ a, keeps P (k a)) → keeps P (bind m k).
Proof.
  intros Hm Hk s Hs. unfold bind. specialize (Hm s Hs).
  destruct (m s) as [[e|a] s']; simpl in *; [done|]. by apply Hk.
Qed.

Lemma keeps_for_each {St A} (P : St → Prop) (l : list A) (body : A → M St unit) :
  (∀ a, keeps P (body a)) → keeps P (for_each l body).
Proof.
  intros Hb. induction l as [|a l IH]; simpl; [apply keeps_ret|].
  apply keeps_bind; auto.
Qed.

Lemma keeps_for_collect {St A B} (P : St → Prop) (l : list A) (body : A → M St B) :
  (∀ a, keeps P (body a)) → keeps P (for_collect l body).
Proof.
  intros Hb. induction l as [|a l IH]; simpl; [apply keeps_ret|].
  apply keeps_bind; [done|]. intros b.
  apply keeps_bind; [done|]. intros bs. apply keeps_ret.
Qed.

Lemma keeps_for_rows {St} (P : St → Prop) i rows (body : nat → list Z → M St unit) :
  (∀ i row, keeps P (body i row)) → keeps P (for_rows i rows body).
Proof.
  intros Hb. revert i. induction rows as [|row rows IH]; intros i; simpl;
    [apply keeps_ret|].
  apply keeps_bind; auto.
Qed.

Lemma keeps_try_pass {St} (P : St → Prop) e (m : M St unit) :
  keeps P m → keeps P (try_pass e m).
Proof.
  intros Hm s Hs. unfold try_pass. specialize (Hm s Hs).
  destruct (m s) as [[e'|[]] s']; simpl in *; [|done].
  by destruct (decide (e' = e)).
Qed.

Ltac keep :=
  repeat first
    [ progress intros
    | match goal with
      | |- keeps _ (ret _) => apply keeps_ret
      | |- keeps _ (raise _) => apply keeps_raise
      | |- keeps _ get => apply keeps_get
      | |- keeps _ (gets _) => apply keeps_gets
      | |- keeps _ (from_option _ _) => apply keeps_from_option
      | |- keeps _ (from_result _) => apply keeps_from_result
      | |- keeps _ (bind _ _) => apply keeps_bind
      | |- keeps _ (for_each _ _) => apply keeps_for_each
      | |- keeps _ (for_collect _ _) => apply keeps_for_collect
      | |- keeps _ (for_rows _ _ _) => apply keeps_for_rows
      | |- keeps _ (try_pass _ _) => apply keeps_try_pass
      | |- keeps _ (if ?b then _ else _) => destruct b
      | |- keeps _ (match ?o with Some _ => _ | None => _ end) => destruct o
      | |- keeps _ (match ?o with inl _ => _ | inr _ => _ end) => destruct o
      end ].

(** An invariant that no change of the cache can break, as long as the
    vertices already allocated keep their place, key, value and index. *)
Definition heap_inv (P : Complex → Prop) : Prop :=
  ∀ s V', P s → ids (objs_of s) `prefix_of` ids (vc_objs V') → P (set_V V' s).

(** An invariant that adding a vertex to the cell [c] cannot break. *)
Definition add_inv (c : addr) (P : Complex → Prop) : Prop :=
  ∀ s cell l, P s → hc_cells s !! c = Some cell →
    P (set_cells (<[c := set_C l cell]> (hc_cells s)) s).

Lemma getitem_ids_prefix x c : ids (vc_objs c) `prefix_of` ids (vc_objs (getitem x c).2).
Proof.
  destruct (vc_cache c !! x) as [a|] eqn:Hx.
  - by rewrite (getitem_hit _ _ _ Hx).
  - destruct (func x) as [e|fx] eqn:Hf.
    + by rewrite (getitem_miss_raise _ _ _ Hx Hf).
    + rewrite (getitem_miss _ _ _ Hx Hf). simpl. unfold ids.
      rewrite fmap_app. by apply prefix_app_r.
Qed.

Lemma keeps_V_get P x : heap_inv P → keeps P (V_get x).
Proof.
  intros HP s Hs. unfold V_get, zoom.
  pose proof (getitem_ids_prefix x (hc_V s)) as Hpre.
  destruct (getitem x (hc_V s)) as [r c']. simpl in *. by apply HP.
Qed.

Lemma keeps_on_heap {A} P (m : M heap A) :
  heap_inv P → preserves ids m → keeps P (on_heap m).
Proof.
  intros HP Hm s Hs. unfold on_heap, zoom. specialize (Hm (vc_objs (hc_V s))).
  destruct (m (vc_objs (hc_V s))) as [r h']. simpl in *. apply HP; [done|].
  simpl. unfold objs_of. by rewrite Hm.
Qed.

Lemma deref_ids a : preserves ids (deref a).
Proof. unfold deref. frame. Qed.

Lemma keeps_cell_deref P c : keeps P (cell_deref c).
Proof. unfold cell_deref. keep. Qed.

Lemma keeps_add_vertex P c a : add_inv c P → keeps P (add_vertex c a).
Proof.
  intros HP s Hs. unfold add_vertex, cell_update, cell_deref, bind, get, from_option.
  destruct (hc_cells s !! c) as [cell|] eqn:Hc; simpl; [|done].
  case_bool_decide; simpl; [done|]. rewrite Hc. simpl. by apply HP.
Qed.

Lemma keeps_build_V_new P c origin suprenum :
  heap_inv P → add_inv c P → keeps P (build_V_new c origin suprenum).
Proof.
  intros HP Hadd. unfold build_V_new. keep;
    first [ by apply keeps_cell_deref | by apply keeps_V_get
          | by apply keeps_add_vertex
          | by apply keeps_on_heap; [|apply deref_ids] ].
Qed.

Lemma keeps_replay_graph P V_new : heap_inv P → keeps P (replay_graph V_new).
Proof.
  intros HP. unfold replay_graph. keep;
    first [ by apply keeps_V_get | by apply keeps_on_heap; [|apply connect_ids] ].
Qed.

Lemma keeps_disconnect_rows P C_i centroid_index rows :
  heap_inv P → ∀ i, keeps P (disconnect_rows C_i centroid_index i rows).
Proof.
  intros HP. induction rows as [|row rows IH]; intros i; simpl; [apply keeps_ret|].
  case_bool_decide; [apply keeps_ret|].
  apply keeps_bind; [|by intros; apply IH]. keep;
    first [ by apply keeps_cell_deref
          | by apply keeps_on_heap; [|apply disconnect_ids] ].
Qed.

(** The attributes of a complex other than its cache, its cells and the
    rows of [H]. *)
Definition frame_of (s : Complex) :=
  (hc_dim s, hc_symmetry s, hc_gen s, hc_origin s, hc_suprenum s,
   hc_C0 s, hc_centroid s, hc_hgr s, hc_hgrd s, hc_graph s).

(** [kept n base s]: what building cells from the state [base] never
    changes, in any state [s] it goes through.  The attributes of
    [frame_of] are the same; the cells and the vertices allocated in [base]
    are still there, with the same attributes for the cells and the same
    key, value and index for the vertices; and the first [n] rows of [H]
    hold the same cells. *)
Definition kept (n : nat) (base s : Complex) : Prop :=
  frame_of s = frame_of base ∧
  take (length (hc_cells base)) (hc_cells s) = hc_cells base ∧
  ids (objs_of base) `prefix_of` ids (objs_of s) ∧
  ∀ g, (g < n)%nat → hc_H s !! g = hc_H base !! g.

Lemma kept_refl n s : kept n s s.
Proof. unfold kept. split_and!; try done. by rewrite take_ge. Qed.

Lemma kept_cells_length n base s :
  kept n base s → (length (hc_cells base) ≤ length (hc_cells s))%nat.
Proof.
  intros (_ & Hc & _). apply (f_equal length) in Hc.
  rewrite length_take in Hc. lia.
Qed.

Lemma kept_trans n a b c : kept n a b → kept n b c → kept n a c.
Proof.
  intros Hab Hbc. pose proof (kept_cells_length _ _ _ Hab) as Hlen.
  destruct Hab as (Hf1 & Hc1 & Hi1 & HH1).
  destruct Hbc as (Hf2 & Hc2 & Hi2 & HH2).
  unfold kept. split_and!.
  - congruence.
  - transitivity (take (length (hc_cells a)) (take (length (hc_cells b)) (hc_cells c))).
    + rewrite take_take. f_equal. lia.
    + by rewrite Hc2.
  - by etrans.
  - intros g Hg. rewrite HH2, HH1; done.
Qed.

Lemma kept_weaken n m base s : (m ≤ n)%nat → kept n base s → kept m base s.
Proof.
  intros Hmn (Hf & Hc & Hi & HH). unfold kept. split_and!; try done.
  intros g Hg. apply HH. lia.
Qed.

Lemma kept_gen n base s : kept n base s → hc_gen s = hc_gen base.
Proof. intros (Hf & _). unfold frame_of in Hf. congruence. Qed.

Lemma kept_graph n base s : kept n base s → hc_graph s = hc_graph base.
Proof. intros (Hf & _). unfold frame_of in Hf. congruence. Qed.

Lemma kept_cell n base s c cell :
  kept n base s → hc_cells base !! c = Some cell → hc_cells s !! c = Some cell.
Proof.
  intros (_ & Hc & _) Hcell. rewrite <-Hc in Hcell.
  by apply lookup_take_Some in Hcell as [? _].
Qed.

Lemma kept_vertex n base s a v :
  kept n base s → objs_of base !! a = Some v →
  ∃ v', objs_of s !! a = Some v' ∧ same_id v v'.
Proof.
  intros (_ & _ & [rest Hi] & _) Hv.
  assert (ids (objs_of s) !! a = ids (objs_of base) !! a) as Hlook.
  { rewrite Hi. apply lookup_app_l. unfold ids. rewrite length_fmap.
    by eapply lookup_lt_Some. }
  unfold ids in Hlook. rewrite !list_lookup_fmap, Hv in Hlook.
  destruct (objs_of s !! a) as [v'|]; [|done]. simpl in Hlook.
  exists v'. split; [done|]. unfold same_id. by simplify_eq.
Qed.

Lemma heap_inv_kept n base : heap_inv (kept n base).
Proof.
  intros s V' (Hf & Hc & Hi & HH) Hpre.
  unfold kept. simpl. split_and!; try done. unfold objs_of. simpl. by etrans.
Qed.

Lemma add_inv_kept n base c :
  (length (hc_cells base) ≤ c)%nat → add_inv c (kept n base).
Proof.
  intros Hc s cell l (Hf & Hcs & Hi & HH) Hcell.
  unfold kept. simpl. split_and!; try done. by rewrite take_insert_ge.
Qed.

Lemma heap_inv_and P Q : heap_inv P → heap_inv Q → heap_inv (λ s, P s ∧ Q s).
Proof. intros HP HQ s V' [? ?] Hpre. split; auto. Qed.

Lemma add_inv_and c P Q : add_inv c P → add_inv c Q → add_inv c (λ s, P s ∧ Q s).
Proof. intros HP HQ s cell l [? ?] Hc. split; eauto. Qed.

(** The cell [c_new] while [construct_hypercube] fills it. *)
Definition under_construction (c_new : addr) (o sp : key) (gen : nat)
    (hgr : option nat) (p_hgr_h : nat) (cen : key) (H0 : list (list addr))
    (s : Complex) : Prop :=
  length (hc_cells s) = S c_new ∧ hc_H s = H0 ∧
  ∃ child, hc_cells s !! c_new = Some child ∧
    c_origin child = o ∧ c_suprenum child = sp ∧ c_p_gen child = gen ∧
    c_p_hgr child = hgr ∧ c_p_hgr_h child = p_hgr_h ∧
    c_centroid child = Some cen.

Lemma heap_inv_under_construction c o sp gen hgr p cen H0 :
  heap_inv (under_construction c o sp gen hgr p cen H0).
Proof. by intros s V' ?. Qed.

Lemma add_inv_under_construction c o sp gen hgr p cen H0 :
  add_inv c (under_construction c o sp gen hgr p cen H0).
Proof.
  intros s cell l (Hlen & HH & child & Hc & Ho & Hs & Hg & Hh & Hp & Hcen) Hcell.
  assert (cell = child) as -> by congruence.
  unfold under_construction. simpl. rewrite length_insert. split_and!; try done.
  exists (set_C l child). split; [|done].
  apply list_lookup_insert_eq. by eapply lookup_lt_Some.
Qed.

(** What a call of [construct_hypercube] that returns [c] has stored. *)
Definition child_stored (s : Complex) (o sp : key) (gen : nat)
    (hgr : option nat) (p_hgr_h : nat) (c : addr) (s' : Complex) : Prop :=
  c = length (hc_cells s) ∧
  (∃ child cen, hc_cells s' !! c = Some child ∧
     c_origin child = o ∧ c_suprenum child = sp ∧ c_p_gen child = gen ∧
     c_p_hgr child = hgr ∧ c_p_hgr_h child = p_hgr_h ∧
     midpoint o sp = inr cen ∧ c_centroid child = Some cen) ∧
  ∃ row, hc_H s !! gen = Some row ∧ hc_H s' = <[gen := row ++ [c]]> (hc_H s).

Lemma wp_bind_keeps {A B} (K : Complex → Prop) (m : M Complex A)
    (k : A → M Complex B) s Q :
  keeps K m → K s → (∀ e s1, K s1 → Q (inl e) s1) →
  (∀ a s1, K s1 → wp (k a) s1 Q) → wp (bind m k) s Q.
Proof.
  intros Hm Hs He Hk. apply wp_bind. eapply wp_mono; [by apply keeps_wp|].
  intros [e|a] s1 H1; auto.
Qed.

Lemma wp_construct_hypercube_any n base s o sp gen hgr p_hgr_h :
  kept n base s → (n ≤ gen)%nat →
  wp (construct_hypercube o sp gen hgr p_hgr_h) s
     (λ r s', kept n base s' ∧
        if_ok (λ c s', child_stored s o sp gen hgr p_hgr_h c s') r s').
Proof.
  intros Hk Hgen. pose proof (kept_cells_length _ _ _ Hk) as Hlen.
  unfold construct_hypercube, new_cell.
  apply wp_bind, wp_bind, wp_get. simpl. apply wp_bind, wp_put. simpl.
  apply wp_ret. simpl.
  set (s1 := set_cells _ s).
  assert (kept n base s1) as Hk1.
  { destruct Hk as (Hf & Hcs & Hi & HH).
    unfold kept. simpl. split_and!; try done. by rewrite take_app_le. }
  apply wp_bind, wp_from_result.
  destruct (midpoint o sp) as [e|cen] eqn:Hmid; simpl; [done|].
  apply wp_bind. eapply wp_cell_update; [simpl; by apply list_lookup_middle|]. simpl.
  set (s2 := set_cells _ s1).
  set (K := λ s', kept n base s' ∧
                  under_construction (length (hc_cells s)) o sp gen hgr p_hgr_h
                    cen (hc_H s) s').
  assert (heap_inv K) as HKh.
  { apply heap_inv_and; [apply heap_inv_kept|apply heap_inv_under_construction]. }
  assert (add_inv (length (hc_cells s)) K) as HKa.
  { apply add_inv_and; [by apply add_inv_kept|apply add_inv_under_construction]. }
  assert (K s2) as HK2.
  { split.
    - destruct Hk as (Hf & Hcs & Hi & HH).
      unfold kept. simpl. split_and!; try done.
      rewrite take_insert_ge by done. by rewrite take_app_le.
    - unfold under_construction. simpl. rewrite length_insert, length_app. simpl.
      split; [lia|]. split; [done|]. eexists.
      split; [apply list_lookup_insert_eq; rewrite length_app; simpl; lia|done]. }
  assert (∀ (e : exn) s', K s' → kept n base s' ∧ True) as Hfail
    by (by intros e s' [? _]).
  apply (wp_bind_keeps K); [by apply keeps_build_V_new|done|by apply Hfail|].
  intros V s3 HK3.
  apply (wp_bind_keeps K); [by apply keeps_V_get|done|by apply Hfail|].
  intros ac s4 HK4.
  apply (wp_bind_keeps K); [by apply keeps_add_vertex|done|by apply Hfail|].
  intros u s5 HK5.
  apply (wp_bind_keeps K); [by apply keeps_replay_graph|done|by apply Hfail|].
  intros u' s6 (Hk6 & Hlen6 & HH6 & child & Hc6 & Ho6 & Hs6 & Hg6 & Hh6 & Hp6 & Hcen6).
  apply wp_bind, wp_gets. simpl. rewrite HH6.
  apply wp_bind, wp_from_option.
  destruct (hc_H s !! gen) as [row|] eqn:Hrow; simpl; [|done].
  apply wp_bind, wp_modify. simpl. apply wp_ret. simpl. split.
  - destruct Hk6 as (Hf & Hcs & Hi & HH).
    unfold kept. simpl. split_and!; try done.
    intros g Hg. rewrite list_lookup_insert_ne by lia. rewrite <-HH6. by apply HH.
  - split; [done|]. split; [by exists child, cen|]. by exists row.
Qed.

(** Loops, with an invariant [P] that holds however the loop ends and an
    invariant [Inv] of the iterations completed. *)
Lemma wp_for_collect_both {St A B} (P : St → Prop)
    (Inv : list A → list B → St → Prop) (l : list A) (body : A → M St B) s :
  P s → Inv [] [] s →
  (∀ seen bs a s1, P s1 → Inv seen bs s1 →
     wp (body a) s1 (λ r s2, P s2 ∧ if_ok (Inv (seen ++ [a]) ∘ (λ b, bs ++ [b])) r s2)) →
  wp (for_collect l body) s (λ r s', P s' ∧ if_ok (Inv l) r s').
Proof.
  intros HP0 H0 Hstep.
  assert (∀ rest seen bs s1, l = seen ++ rest → P s1 → Inv seen bs s1 →
            wp (for_collect rest body) s1
               (λ r s', P s' ∧ if_ok (λ bs' s', Inv l (bs ++ bs') s') r s')) as Hgen.
  { induction rest as [|a rest IH]; intros seen bs s1 Hl HP1 Hinv; simpl.
    - rewrite app_nil_r in Hl. subst. apply wp_ret. simpl. by rewrite app_nil_r.
    - apply wp_bind. eapply wp_mono; [by apply Hstep|].
      intros [e|b] s2 [HP2 Hinv2]; simpl in *; [done|]. apply wp_bind.
      eapply wp_mono; [apply (IH (seen ++ [a]) (bs ++ [b]));
                       [by rewrite <-app_assoc|done|done]|].
      intros [e|bs'] s3 [HP3 Hinv3]; simpl in *; [done|]. apply wp_ret. simpl.
      split; [done|]. by rewrite <-app_assoc in Hinv3. }
  by apply (Hgen l [] []).
Qed.

Lemma wp_for_each_both {St A} (P : St → Prop) (Inv : list A → St → Prop)
    (l : list A) (body : A → M St unit) s :
  P s → Inv [] s →
  (∀ seen a s1, P s1 → Inv seen s1 →
     wp (body a) s1 (λ r s2, P s2 ∧ if_ok (λ _, Inv (seen ++ [a])) r s2)) →
  wp (for_each l body) s (λ r s', P s' ∧ if_ok (λ _, Inv l) r s').
Proof.
  intros HP0 H0 Hstep.
  assert (∀ rest seen s1, l = seen ++ rest → P s1 → Inv seen s1 →
            wp (for_each rest body) s1
               (λ r s', P s' ∧ if_ok (λ _, Inv l) r s')) as Hgen.
  { induction rest as [|a rest IH]; intros seen s1 Hl HP1 Hinv; simpl.
    - rewrite app_nil_r in Hl. subst. by apply wp_ret.
    - apply wp_bind. eapply wp_mono; [by apply Hstep|].
      intros [e|[]] s2 [HP2 Hinv2]; simpl in *; [done|].
      apply (IH (seen ++ [a])); [by rewrite <-app_assoc|done|done]. }
  by apply (Hgen l []).
Qed.

Lemma on_heap_deref_bad s a :
  objs_of s !! a = None → on_heap (deref a) s = (inl BadRef, s).
Proof.
  intros Ha. unfold on_heap, zoom. fold (objs_of s).
  rewrite (deref_bad _ _ Ha). f_equal. apply set_objs_id.
Qed.

(** The child cell [c] that [sub_generate_cell] has built in generation
    [gen] from the vertex [a] of a cell [parent] of centroid [o]. *)
Definition child_of (s' : Complex) (gen : nat) (parent : Cell) (o : key)
    (a c : addr) : Prop :=
  ∃ v child cen, objs_of s' !! a = Some v ∧ hc_cells s' !! c = Some child ∧
    c_p_gen child = gen ∧ c_p_hgr child = c_hg_n parent ∧
    c_p_hgr_h child = c_p_hgr_h parent ∧
    c_origin child = o ∧ c_suprenum child = v_x v ∧
    midpoint o (v_x v) = inr cen ∧ c_centroid child = Some cen.

Lemma child_of_kept n s s' gen parent o a c :
  kept n s s' → child_of s gen parent o a c → child_of s' gen parent o a c.
Proof.
  intros Hk (v & child & cen & Hv & Hc & Hrest).
  destruct (kept_vertex _ _ _ _ _ Hk Hv) as (v' & Hv' & Hx & _).
  exists v', child, cen. rewrite Hx. split; [done|].
  split; [by eapply kept_cell|done].
Qed.

(** What [sub_generate_cell] has done when it returns. *)
Definition split_of (s : Complex) (C_i : addr) (gen : nat) (H_new : list addr)
    (s' : Complex) : Prop :=
  ∃ cell o, hc_cells s !! C_i = Some cell ∧ c_centroid cell = Some o ∧
    Forall2 (child_of s' gen cell o) (removelast (c_C cell)) H_new ∧
    default [] (hc_H s' !! gen) = default [] (hc_H s !! gen) ++ H_new.

Lemma wp_sub_generate_cell n base s C_i gen :
  kept n base s → (n ≤ gen)%nat → (n ≤ length (hc_H s))%nat →
  wp (sub_generate_cell C_i gen) s
     (λ r s', kept n base s' ∧ if_ok (split_of s C_i gen) r s').
Proof.
  intros Hk Hn Hlen. unfold sub_generate_cell, cell_deref.
  apply wp_bind, wp_bind, wp_get. simpl. apply wp_from_option.
  destruct (hc_cells s !! C_i) as [cell|] eqn:Hcell; simpl; [|done].
  apply wp_bind, wp_from_option.
  destruct (c_centroid cell) as [o|] eqn:Hcen; simpl; [|done].
  apply wp_bind, wp_gets. simpl.
  set (rest := (H_new <- for_collect _ _ ;; _)%m).
  assert (∀ s1, kept n base s1 → kept 0 s s1 →
            default [] (hc_H s1 !! gen) = default [] (hc_H s !! gen) →
            wp rest s1 (λ r s', kept n base s' ∧ if_ok (split_of s C_i gen) r s'))
    as Hrest.
  { intros s1 Hk1 Hs1 Hrow1. subst rest. apply wp_bind.
    eapply wp_mono.
    { apply (wp_for_collect_both
               (λ s', kept n base s' ∧ kept 0 s s')
               (λ seen bs s', Forall2 (child_of s' gen cell o) seen bs ∧
                  default [] (hc_H s' !! gen) = default [] (hc_H s1 !! gen) ++ bs)).
      - done.
      - split; [constructor|by rewrite app_nil_r].
      - intros seen bs a s2 [Hk2 Hs2] [Hch2 Hrow2].
        apply wp_bind. destruct (objs_of s2 !! a) as [v|] eqn:Hv.
        2:{ eapply wp_intro; [by apply on_heap_deref_bad|done]. }
        eapply wp_intro; [by apply on_heap_deref|].
        apply wp_bind, wp_bind, wp_get. simpl. apply wp_from_option.
        rewrite (kept_cell _ _ _ _ _ Hs2 Hcell). simpl.
        eapply wp_mono.
        { apply wp_conj; [apply wp_conj|].
          - by apply (wp_construct_hypercube_any n base s2).
          - apply (wp_construct_hypercube_any 0 s s2); [done|lia].
          - apply (wp_construct_hypercube_any 0 s2 s2); [apply kept_refl|lia]. }
        intros [e|c] s3 [[[Hk3 Hst] [Hs3 _]] [Hss _]]; simpl in *; [done|].
        split; [done|].
        destruct Hst as (-> & (child & cen & Hc & Ho & Hsp & Hg & Hh & Hp & Hmid & Hcn)
                         & row & Hrow & HH3).
        split.
        + apply Forall2_app.
          * eapply Forall2_impl; [done|]. intros a' c'. by apply (child_of_kept 0).
          * apply Forall2_cons. split; [|constructor].
            destruct (kept_vertex _ _ _ _ _ Hss Hv) as (v' & Hv' & Hx & _).
            exists v', child, cen. rewrite Hx. by split_and!.
        + rewrite HH3, list_lookup_insert_eq by (by eapply lookup_lt_Some).
          rewrite Hrow in Hrow2. simpl in *. by rewrite Hrow2, <-app_assoc. }
    intros [e|H_new] s4 [[Hk4 Hs4] Hinv]; simpl in *; [done|].
    destruct Hinv as [Hch4 Hrow4].
    apply wp_bind, wp_gets. simpl.
    set (K := λ s', (kept n base s' ∧ kept 0 s4 s') ∧ hc_H s' = hc_H s4).
    assert (heap_inv K) as HK.
    { apply heap_inv_and; [apply heap_inv_and; apply heap_inv_kept|by intros ???]. }
    apply (wp_bind_keeps K).
    - by apply keeps_disconnect_rows.
    - split; [split; [done|apply kept_refl]|done].
    - by intros e s5 [[? _] _].
    - intros u s5 [[Hk5 Hs5] HH5]. apply wp_ret. simpl. split; [done|].
      exists cell, o. split_and!; try done.
      + eapply Forall2_impl; [done|]. intros a' c'. by apply (child_of_kept 0).
      + by rewrite HH5, Hrow4, Hrow1. }
  apply wp_bind. destruct (decide (gen < length (hc_H s))%nat) as [Hlt|Hge].
  - apply wp_ret. apply Hrest; [done|apply kept_refl|done].
  - apply wp_modify. apply Hrest.
    + destruct Hk as (Hf & Hcs & Hi & HH). unfold kept. simpl. split_and!; try done.
      intros g Hg. rewrite lookup_app_l by lia. by apply HH.
    + unfold kept. simpl. split_and!; try done; [by rewrite take_ge|lia].
    + simpl. rewrite (lookup_ge_None_2 (hc_H s) gen) by lia.
      destruct (decide (gen = length (hc_H s))) as [->|Hne].
      * by rewrite list_lookup_middle.
      * rewrite lookup_ge_None_2; [done|]. rewrite length_app. simpl. lia.
Qed.

(** The children [H_new] that [sub_generate_cell] has built from the cell
    [C_i]: one for each vertex of the cell but the last, in order. *)
Definition children_of (s' : Complex) (gen : nat) (C_i : addr)
    (H_new : list addr) : Prop :=
  ∃ cell o, hc_cells s' !! C_i = Some cell ∧ c_centroid cell = Some o ∧
    Forall2 (child_of s' gen cell o) (removelast (c_C cell)) H_new.

Lemma children_of_kept n s s' gen c H_new :
  kept n s s' → children_of s gen c H_new → children_of s' gen c H_new.
Proof.
  intros Hk (cell & o & Hcell & Hcen & Hch). exists cell, o.
  split; [by eapply kept_cell|]. split; [done|].
  eapply Forall2_impl; [done|]. intros a' c'. by apply (child_of_kept n).
Qed.

Lemma split_cells_no_row s :
  hc_H s !! hc_gen s = None → split_cells s = (inl IndexError, s).
Proof. intros Hrow. unfold split_cells, bind, gets. by rewrite Hrow. Qed.

Lemma wp_split_cells s row :
  hc_H s !! hc_gen s = Some row →
  wp split_cells s
     (λ r s', kept (S (hc_gen s)) s s' ∧
        if_ok (λ _ s', ∃ groups,
                 Forall2 (children_of s' (S (hc_gen s))) row groups ∧
                 default [] (hc_H s' !! S (hc_gen s)) =
                   default [] (hc_H s !! S (hc_gen s)) ++ concat groups) r s').
Proof.
  intros Hrow. unfold split_cells.
  apply wp_bind, wp_gets. simpl. apply wp_bind, wp_gets. simpl.
  apply wp_bind, wp_from_option. rewrite Hrow. simpl.
  apply (wp_for_each_both (kept (S (hc_gen s)) s)
           (λ seen s', ∃ groups,
              Forall2 (children_of s' (S (hc_gen s))) seen groups ∧
              default [] (hc_H s' !! S (hc_gen s)) =
                default [] (hc_H s !! S (hc_gen s)) ++ concat groups)).
  - apply kept_refl.
  - exists []. split; [constructor|]. simpl. by rewrite app_nil_r.
  - intros seen c s1 Hk1 (groups & Hgr & Hnew).
    apply wp_bind, wp_gets. simpl. rewrite (kept_gen _ _ _ Hk1), Nat.add_1_r.
    apply wp_bind. eapply wp_mono.
    { apply wp_conj.
      - apply (wp_sub_generate_cell (S (hc_gen s)) s s1); [done|lia|].
        destruct Hk1 as (_ & _ & _ & HH).
        specialize (HH (hc_gen s)). rewrite Hrow in HH.
        apply Nat.le_succ_l. eapply lookup_lt_Some. apply HH. lia.
      - apply (wp_sub_generate_cell 0 s1 s1); [apply kept_refl|lia..]. }
    intros [e|H_new] s2 [[Hk2 Hsp] [Hs2 _]]; simpl in *; [done|].
    apply wp_ret. simpl. split; [done|].
    destruct Hsp as (cell & o & Hcell & Hcen & Hch & Hrow2).
    exists (groups ++ [H_new]). split.
    + apply Forall2_app.
      * eapply Forall2_impl; [done|]. intros c' g'. by apply (children_of_kept 0).
      * apply Forall2_cons. split; [|constructor]. exists cell, o.
        split; [by eapply kept_cell|done].
    + rewrite Hrow2, Hnew, concat_app. simpl. by rewrite app_nil_r, app_assoc.
Qed.

(** X12. When the loop of [split_generation] over the cells of the current
    generation [g] runs to its end, [split_generation] returns and the
    generation counter is [g+1]; every cell of generation [g] has a centroid,
    and for each of them, in the order of the row [H[g]], one child has been
    built for every vertex of the cell but the last: its origin is the
    centroid of the cell, its supremum the key of that vertex, its centroid
    [(origin + supremum)/2.0] as the machine computes it ([midpoint]), its
    parent generation [g+1] and its parent rank the rank [hg_n] of the
    cell; the children have been appended to the row
    [H[g+1]] in that order.  The cells that existed before are unchanged. *)
Theorem split_generation_children (s s1 : Complex) :
  split_cells s = (inr tt, s1) →
  split_generation s = (inr tt, set_gen (S (hc_gen s)) s1) ∧
  (∀ c cell, hc_cells s !! c = Some cell → hc_cells s1 !! c = Some cell) ∧
  ∃ row groups, hc_H s !! hc_gen s = Some row ∧
    Forall2 (children_of s1 (S (hc_gen s))) row groups ∧
    default [] (hc_H s1 !! S (hc_gen s)) =
      default [] (hc_H s !! S (hc_gen s)) ++ concat groups.
Proof.
  intros Hsc. destruct (hc_H s !! hc_gen s) as [row|] eqn:Hrow.
  2:{ by rewrite (split_cells_no_row _ Hrow) in Hsc. }
  pose proof (wp_split_cells s row Hrow) as Hwp. unfold wp in Hwp.
  rewrite Hsc in Hwp. simpl in Hwp. destruct Hwp as (Hk & groups & Hch & Hnew).
  split_and!.
  - unfold split_generation, bind, try_pass, modify. rewrite Hsc.
    by rewrite (kept_gen _ _ _ Hk), Nat.add_1_r.
  - intros c cell. by eapply kept_cell.
  - by exists row, groups.
Qed.

(** X13. When [split_generation] raises, the exception is not an
    [IndexError] (those are swallowed) and the generation counter has not
    moved; the rows of [H] up to the current generation, the cells that
    existed before and the key, value and index of every vertex are as
    they were.  The cells and vertices built before the exception stay in
    the complex. *)
Theorem split_generation_failure (s s' : Complex) (e : exn) :
  split_generation s = (inl e, s') →
  e ≠ IndexError ∧ hc_gen s' = hc_gen s ∧ frame_of s' = frame_of s ∧
  (∀ g, (g ≤ hc_gen s)%nat → hc_H s' !! g = hc_H s !! g) ∧
  (∀ c cell, hc_cells s !! c = Some cell → hc_cells s' !! c = Some cell) ∧
  (∀ a v, vc_objs (hc_V s) !! a = Some v →
     ∃ v', vc_objs (hc_V s') !! a = Some v' ∧
           v_x v' = v_x v ∧ v_f v' = v_f v ∧ v_I v' = v_I v).
Proof.
  unfold split_generation, bind, try_pass, modify.
  destruct (split_cells s) as [[e1|[]] s1] eqn:Hsc; [|done].
  destruct (decide (e1 = IndexError)) as [->|Hne]; [done|].
  intros [= <- <-].
  destruct (hc_H s !! hc_gen s) as [row|] eqn:Hrow.
  2:{ rewrite (split_cells_no_row _ Hrow) in Hsc. congruence. }
  pose proof (wp_split_cells s row Hrow) as Hwp. unfold wp in Hwp.
  rewrite Hsc in Hwp. simpl in Hwp. destruct Hwp as [Hk _].
  split_and!; try done.
  - by eapply kept_gen.
  - by destruct Hk.
  - intros g Hg. destruct Hk as (_ & _ & _ & HH). apply HH. lia.
  - intros c cell. by eapply kept_cell.
  - intros a v Hv. destruct (kept_vertex _ _ _ _ _ Hk Hv) as (v' & Hv' & ? & ? & ? & ?).
    by exists v'.
Qed.

Lemma sub_generate_cell_no_centroid s c gen cell :
  hc_cells s !! c = Some cell → c_centroid cell = None →
  sub_generate_cell c gen s = (inl TypeError, s).
Proof.
  intros Hcell Hcen. unfold sub_generate_cell.
  erewrite bind_ok; [|unfold cell_deref, bind, get; by rewrite Hcell].
  by rewrite Hcen.
Qed.

(** A cell without a centroid cannot be split. *)
Lemma split_generation_no_centroid (s : Complex) c row cell :
  hc_H s !! hc_gen s = Some (c :: row) →
  hc_cells s !! c = Some cell → c_centroid cell = None →
  split_generation s = (inl TypeError, s).
Proof.
  intros Hrow Hcell Hcen.
  assert (wp split_cells s (λ r s', r = inl TypeError ∧ s' = s)) as Hwp.
  { unfold split_cells. apply wp_bind, wp_gets. simpl.
    apply wp_bind, wp_gets. simpl. apply wp_bind, wp_from_option.
    rewrite Hrow. simpl. apply wp_bind, wp_bind, wp_gets. simpl.
    apply wp_bind. eapply wp_intro; [by eapply sub_generate_cell_no_centroid|done]. }
  unfold wp in Hwp. unfold split_generation, bind, try_pass.
  destruct (split_cells s) as [r s1]. simpl in Hwp. destruct Hwp as [-> ->].
  done.
Qed.

(** X11. When [construct_hypercube] returns, the cell it returns is a new
    one, appended to the row [H[gen]], which existed; its origin, supremum,
    parent generation and parent ranks are the arguments and its centroid is
    [(origin + supremum)/2.0] as the machine computes it, elementwise under
    numpy's broadcasting (so origin and supremum have shapes that numpy can
    add).
    Every other row of [H], every cell that existed before, the other
    attributes of the complex and the key, value and index of every vertex
    are unchanged. *)
Theorem construct_hypercube_result (s s' : Complex) o sp gen hgr p_hgr_h c :
  construct_hypercube o sp gen hgr p_hgr_h s = (inr c, s') →
  c = length (hc_cells s) ∧
  (∃ child cen, hc_cells s' !! c = Some child ∧
     c_origin child = o ∧ c_suprenum child = sp ∧ c_p_gen child = gen ∧
     c_p_hgr child = hgr ∧ c_p_hgr_h child = p_hgr_h ∧
     midpoint o sp = inr cen ∧ c_centroid child = Some cen) ∧
  (∃ row, hc_H s !! gen = Some row ∧ hc_H s' = <[gen := row ++ [c]]> (hc_H s)) ∧
  frame_of s' = frame_of s ∧
  (∀ c' cell, hc_cells s !! c' = Some cell → hc_cells s' !! c' = Some cell) ∧
  (∀ a v, vc_objs (hc_V s) !! a = Some v →
     ∃ v', vc_objs (hc_V s') !! a = Some v' ∧
           v_x v' = v_x v ∧ v_f v' = v_f v ∧ v_I v' = v_I v).
Proof.
  intros Hrun.
  pose proof (wp_construct_hypercube_any 0 s s o sp gen hgr p_hgr_h
                (kept_refl 0 s) (Nat.le_0_l gen)) as Hwp.
  unfold wp in Hwp. rewrite Hrun in Hwp. simpl in Hwp.
  destruct Hwp as (Hk & Hc & Hchild & Hrow).
  split_and!; try done.
  - by destruct Hk.
  - intros c' cell. by eapply kept_cell.
  - intros a v Hv. destruct (kept_vertex _ _ _ _ _ Hk Hv) as (v' & Hv' & ? & ? & ? & ?).
    by exists v'.
Qed.

Lemma cell_deref_eq s c cell :
  hc_cells s !! c = Some cell → cell_deref c s = (inr cell, s).
Proof. intros Hc. unfold cell_deref, bind, get. by rewrite Hc. Qed.

Lemma cell_deref_inv s c cell s' :
  cell_deref c s = (inr cell, s') → hc_cells s !! c = Some cell ∧ s' = s.
Proof.
  unfold cell_deref, bind, get. destruct (hc_cells s !! c); simpl; [|done].
  by intros [= -> ->].
Qed.

Lemma homology_group_rank_cached s c cell n :
  hc_cells s !! c = Some cell → c_hg_n cell = Some n →
  homology_group_rank c s = (inr n, s).
Proof.
  intros Hc Hn. unfold homology_group_rank.
  rewrite (bind_ok _ _ _ _ _ (cell_deref_eq _ _ _ Hc)). by rewrite Hn.
Qed.

(** X7. The rank of a cell is computed once: after a call of
    [homology_group_rank] that returned [n], every later call returns [n]
    and changes nothing, whatever has happened to the vertices and their
    edges in between. *)
Theorem homology_group_rank_is_cached (s s1 : Complex) c n :
  homology_group_rank c s = (inr n, s1) →
  ∀ V', homology_group_rank c (set_V V' s1) = (inr n, set_V V' s1).
Proof.
  intros Hrun V'.
  assert (∃ cell1, hc_cells s1 !! c = Some cell1 ∧ c_hg_n cell1 = Some n)
    as (cell1 & Hc1 & Hn1).
  { unfold homology_group_rank in Hrun.
    apply wp_bind_inv in Hrun as (cell & s0 & [Hc ->]%cell_deref_inv & Hrun).
    destruct (c_hg_n cell) as [n0|] eqn:Hn0.
    - injection Hrun as <- <-. by exists cell.
    - apply wp_bind_inv in Hrun as (n' & s2 & _ & Hrun).
      apply wp_bind_inv in Hrun as ([] & s3 & Hup & Hret).
      injection Hret as <- <-. unfold cell_update in Hup.
      apply wp_bind_inv in Hup as (cell2 & s4 & [Hc2 ->]%cell_deref_inv & Hmod).
      injection Hmod as <-. simpl. exists (set_hg_n (Some n') cell2).
      split; [|done]. apply list_lookup_insert_eq. by eapply lookup_lt_Some. }
  by apply (homology_group_rank_cached _ _ cell1).
Qed.

Lemma sum_ranks_loop cells row ns :
  Forall2 (λ c n, ∃ cell, cells !! c = Some cell ∧ c_hg_n cell = Some n) row ns →
  ∀ s, hc_cells s = cells →
  for_each row (λ c,
    n <- homology_group_rank c ;;
    modify (λ s, set_hgr (hc_hgr s + n) (hc_hgrd s) s)) s =
  (inr tt, set_hgr (hc_hgr s + sum_list ns) (hc_hgrd s) s).
Proof.
  induction 1 as [|c n row ns (cell & Hc & Hn) Hrest IH]; intros s Hs; simpl.
  - rewrite Nat.add_0_r. by destruct s.
  - rewrite <-Hs in Hc.
    erewrite bind_ok; [|erewrite bind_ok; [|by eapply homology_group_rank_cached];
                        reflexivity].
    rewrite IH by done. simpl. by rewrite Nat.add_assoc.
Qed.

(** X15. When every cell of the current generation has its rank cached,
    [complex_homology_group_rank] returns the sum of those ranks, stores
    it in [hgr], stores in [hgrd] its difference with the previous [hgr]
    and changes nothing else. *)
Theorem complex_homology_group_rank_cached (s : Complex) row ns :
  hc_H s !! hc_gen s = Some row →
  Forall2 (λ c n, ∃ cell, hc_cells s !! c = Some cell ∧ c_hg_n cell = Some n) row ns →
  complex_homology_group_rank s =
    (inr (sum_list ns),
     set_hgr (sum_list ns) (Z.of_nat (sum_list ns) - Z.of_nat (hc_hgr s)) s).
Proof.
  intros Hrow Hall. unfold complex_homology_group_rank.
  unfold bind at 1. simpl. unfold bind at 1. simpl. unfold bind at 1. simpl.
  unfold bind at 1. simpl. rewrite Hrow. unfold bind at 1. simpl.
  erewrite bind_ok; [|by apply (sum_ranks_loop (hc_cells s) row ns)]. done.
Qed.

(** X16. A generation without a row.  When [H] has no row for the current
    generation, [split_generation] still returns and increments the
    generation counter, for which [H] has no row either; a call of
    [complex_homology_group_rank] then raises [IndexError], after it has
    reset [hgr] to 0. *)
Theorem rank_after_empty_split (s : Complex) :
  hc_H s !! hc_gen s = None →
  ∃ s1, split_generation s = (inr tt, s1) ∧ s1 = set_gen (S (hc_gen s)) s ∧
        hc_H s1 !! hc_gen s1 = None ∧
        complex_homology_group_rank s1 = (inl IndexError, set_hgr 0 (hc_hgrd s1) s1).
Proof.
  intros Hrow. exists (set_gen (S (hc_gen s)) s).
  assert (hc_H s !! S (hc_gen s) = None) as Hnext.
  { apply lookup_ge_None. apply lookup_ge_None in Hrow. lia. }
  split_and!; try done.
  - unfold split_generation, bind, try_pass, modify.
    rewrite (split_cells_no_row _ Hrow). simpl. by rewrite Nat.add_1_r.
  - unfold complex_homology_group_rank, bind, gets, modify. simpl.
    by rewrite Hnext.
Qed.

(** X1. [minimiser] on a vertex whose flag [check_min] is set: it returns
    whether the value of the vertex is below or equal to that of each of
    its neighbours, stores the answer and clears the flag, so that a second
    call returns the same answer and changes nothing; no edge and no other
    vertex is touched. *)
Theorem minimiser_computes_and_caches (h : heap) a va :
  heap_ok h → h !! a = Some va → v_check_min va = true →
  ∃ m h', minimiser a h = (inr m, h') ∧
    (m = true ↔ is_local_min h a) ∧
    minimiser a h' = (inr m, h') ∧
    ids h' = ids h ∧ graph_of h' = graph_of h ∧
    (∀ c, c ≠ a → h' !! c = h !! c).
Proof.
  intros Hok Ha Hdirty.
  destruct (minimiser_spec h a va Hok Ha)
    as (m & h' & Hrun & Hok' & Hids & Hg & (va' & Ha' & Hclean & Hmin) & Hothers & Hm).
  exists m, h'. split_and!; try done; [by apply Hm|].
  by rewrite (minimiser_eq _ _ _ Ha'), Hclean, Hmin.
Qed.

(** X2. [connect] on a well-formed graph (references valid, adjacency
    symmetric, no loop): it returns and the graph is still well-formed;
    [a.connect(a)] changes nothing; for two distinct vertices the edge is in
    both neighbour sets afterwards and no other neighbour set has changed.
    Keys, values and indices are never touched. *)
Theorem connect_keeps_graph_invariants (h : heap) a b :
  heap_ok h → symmetric_nn h → loop_free h →
  (a < length h)%nat → (b < length h)%nat →
  ∃ h', connect a b h = (inr tt, h') ∧
    heap_ok h' ∧ symmetric_nn h' ∧ loop_free h' ∧ ids h' = ids h ∧
    (a = b → h' = h) ∧
    (a ≠ b → ∀ c, nn_of h' c =
       if decide (c = a) then nn_of h a ∪ {[b]}
       else if decide (c = b) then nn_of h b ∪ {[a]} else nn_of h c).
Proof.
  intros Hok Hsym Hloop Hla Hlb.
  destruct (connect_wf h a b Hok Hsym Hloop Hla Hlb)
    as (h' & Hrun & Hok' & Hsym' & Hloop' & Hids & _).
  exists h'. split_and!; try done.
  - intros ->. destruct (lookup_lt_is_Some_2 h b Hlb) as [vb Hb].
    rewrite (connect_noop h b b vb) in Hrun; [congruence|done|by left].
  - intros Hne c.
    destruct (lookup_lt_is_Some_2 h a Hla) as [va Ha].
    destruct (lookup_lt_is_Some_2 h b Hlb) as [vb Hb].
    destruct (connect_spec h a b va vb Hok Ha Hb) as (h'' & Hrun' & _ & _ & Hg).
    assert (h'' = h') as -> by congruence.
    assert (nn_of h a = v_nn va) as Hna by (unfold nn_of; by rewrite Ha).
    assert (nn_of h b = v_nn vb) as Hnb by (unfold nn_of; by rewrite Hb).
    assert (length (graph_of h) = length h) as Hlen.
    { unfold graph_of. by rewrite length_fmap. }
    rewrite (nn_of_graph h'), Hg. case_bool_decide as Hcase.
    + destruct (decide (c = a)) as [->|Hca].
      * rewrite list_lookup_insert_ne by done.
        rewrite list_lookup_insert_eq by lia. simpl. by rewrite Hna.
      * destruct (decide (c = b)) as [->|Hcb].
        -- rewrite list_lookup_insert_eq by (rewrite length_insert; lia).
           simpl. by rewrite Hnb.
        -- rewrite !list_lookup_insert_ne by done. by rewrite <-nn_of_graph.
    + assert (b ∈ nn_of h a) as Hin.
      { rewrite Hna. destruct (decide (b ∈ v_nn va)); [done|].
        destruct Hcase. by split; [congruence|]. }
      pose proof (Hsym _ _ Hin) as Hin'. rewrite <-nn_of_graph.
      repeat case_decide; subst; set_solver.
Qed.

(** [disconnect] on a well-formed graph. *)
Lemma disconnect_wf (h : heap) a b :
  heap_ok h → symmetric_nn h → loop_free h →
  (a < length h)%nat → (b < length h)%nat →
  ∃ h', disconnect a b h = (inr tt, h') ∧
    heap_ok h' ∧ symmetric_nn h' ∧ loop_free h' ∧ ids h' = ids h ∧
    ∀ c, nn_of h' c =
       if decide (c = a) then nn_of h a ∖ {[b]}
       else if decide (c = b) then nn_of h b ∖ {[a]} else nn_of h c.
Proof.
  intros Hok Hsym Hloop Hla Hlb.
  destruct (lookup_lt_is_Some_2 h a Hla) as [va Ha].
  destruct (lookup_lt_is_Some_2 h b Hlb) as [vb Hb].
  assert (nn_of h a = v_nn va) as Hna by (unfold nn_of; by rewrite Ha).
  assert (nn_of h b = v_nn vb) as Hnb by (unfold nn_of; by rewrite Hb).
  destruct (disconnect_spec h a b va vb Hok Ha Hb) as (h' & Hrun & Hok' & Hids & Hg).
  { intros Hin. rewrite <-Hna in Hin. split.
    - intros ->. by apply (Hloop a).
    - rewrite <-Hnb. by apply Hsym. }
  assert (length (graph_of h) = length h) as Hlen.
  { unfold graph_of. by rewrite length_fmap. }
  assert (∀ c, nn_of h' c =
       if decide (c = a) then nn_of h a ∖ {[b]}
       else if decide (c = b) then nn_of h b ∖ {[a]} else nn_of h c) as Hnn.
  { intros c. rewrite (nn_of_graph h'), Hg. case_bool_decide as Hin.
    - destruct (decide (c = a)) as [->|Hca].
      + rewrite list_lookup_insert_eq by (rewrite length_insert; lia).
        simpl. by rewrite Hna.
      + rewrite list_lookup_insert_ne by done.
        destruct (decide (c = b)) as [->|Hcb].
        * rewrite list_lookup_insert_eq by lia. simpl. by rewrite Hnb.
        * rewrite list_lookup_insert_ne by done. by rewrite <-nn_of_graph.
    - rewrite <-nn_of_graph. rewrite <-Hna in Hin.
      assert (a ∉ nn_of h b) as Hin' by (intros ?; by apply Hin, Hsym).
      repeat case_decide; subst; set_solver. }
  exists h'. split_and!; try done.
  - intros c c'. rewrite !Hnn. pose proof (Hsym c c'). pose proof (Hsym c' c).
    pose proof (Hsym a b). pose proof (Hsym b a).
    clear Hsym Hnn. repeat case_decide; subst; set_solver.
  - intros c. rewrite Hnn. pose proof (Hloop c). clear Hloop Hnn Hsym.
    repeat case_decide; subst; set_solver.
Qed.

(** X3. [disconnect] on a well-formed graph: it returns and the graph is
    still well-formed; the edge between the two vertices is in neither
    neighbour set afterwards, and no other edge has changed (nothing
    changes when the two were not adjacent).  Keys, values and indices are
    never touched. *)
Theorem disconnect_keeps_graph_invariants (h : heap) a b :
  heap_ok h → symmetric_nn h → loop_free h →
  (a < length h)%nat → (b < length h)%nat →
  ∃ h', disconnect a b h = (inr tt, h') ∧
    heap_ok h' ∧ symmetric_nn h' ∧ loop_free h' ∧ ids h' = ids h ∧
    (b ∉ nn_of h' a) ∧ (a ∉ nn_of h' b) ∧
    (∀ c d, {[c; d]} ≠ ({[a; b]} : gset addr) →
            (d ∈ nn_of h' c ↔ d ∈ nn_of h c)) ∧
    (b ∉ nn_of h a → h' = h).
Proof.
  intros Hok Hsym Hloop Hla Hlb.
  destruct (disconnect_wf h a b Hok Hsym Hloop Hla Hlb)
    as (h' & Hrun & Hok' & Hsym' & Hloop' & Hids & Hnn).
  exists h'. split_and!; try done.
  - rewrite Hnn. case_decide; set_solver.
  - rewrite Hnn. pose proof (Hloop a). repeat case_decide; subst; set_solver.
  - intros c d Hcd. rewrite Hnn. repeat case_decide; subst; set_solver.
  - intros Hnin. destruct (lookup_lt_is_Some_2 h a Hla) as [va Ha].
    rewrite (disconnect_noop h a b va) in Hrun; [congruence|done|].
    unfold nn_of in Hnin. by rewrite Ha in Hnin.
Qed.

(** The steps that a well-formed cache can take: a lookup at a key that is
    cached or at which the objective returns, and the methods of vertices
    that the cache has allocated. *)
Definition op_ok (c : VertexCache) (op : cache_op) : Prop :=
  match op with
  | Lookup x => is_Some (vc_cache c !! x) ∨ ∃ fx, func x = inr fx
  | Connect a b | Disconnect a b =>
      (a < length (vc_objs c))%nat ∧ (b < length (vc_objs c))%nat
  | Minimiser a => (a < length (vc_objs c))%nat
  end.

Lemma on_objs_run {A} (m : M heap A) c r h' :
  m (vc_objs c) = (r, h') → on_objs m c = (r, with_objs h' c).
Proof. intros Hm. unfold on_objs, zoom. by rewrite Hm. Qed.

(** X4. The invariant of the cache.  The empty cache satisfies [cache_ok]:
    every key of the dictionary is the key of exactly one vertex, the index
    [I] of a vertex is its rank in the order of creation, [Index] is the
    number of vertices minus one, and the adjacency is symmetric and without
    loops.  Every step of [op_ok] returns and keeps the invariant; the keys
    cached before stay cached at the same vertex, and the vertices keep
    their rank, key, value and index. *)
Theorem cache_invariant_step :
  cache_ok VertexCache_init ∧
  ∀ c op, cache_ok c → op_ok c op →
    ∃ r c', run_op op c = (inr r, c') ∧ cache_ok c' ∧
      vc_cache c ⊆ vc_cache c' ∧ ids (vc_objs c) `prefix_of` ids (vc_objs c').
Proof.
  split; [apply cache_ok_init|].
  intros c op Hok Hop. pose proof Hok as (Hh & Hsym & Hloop & _).
  destruct op as [x|a b|a b|a]; simpl in *.
  - destruct (vc_cache c !! x) as [a|] eqn:Hx.
    + exists (Some a), c. rewrite (bind_ok _ _ _ _ _ (getitem_hit _ _ _ Hx)).
      by split_and!.
    + destruct Hop as [[? [=]]|[fx Hf]].
      exists (Some (length (vc_objs c))), (alloc c x fx).
      rewrite (bind_ok _ _ _ _ _ (getitem_miss _ _ _ Hx Hf)).
      split_and!; [done|by apply cache_ok_alloc| |].
      * simpl. by apply insert_subseteq.
      * simpl. unfold ids. rewrite fmap_app. by apply prefix_app_r.
  - destruct Hop as [Hla Hlb].
    destruct (connect_wf _ a b Hh Hsym Hloop Hla Hlb)
      as (h' & Hrun & Hh' & Hsym' & Hloop' & Hids & _).
    exists None, (with_objs h' c).
    rewrite (bind_ok _ _ _ _ _ (on_objs_run _ _ _ _ Hrun)).
    split_and!; [done|by apply cache_ok_with_objs|done|simpl; by rewrite Hids].
  - destruct Hop as [Hla Hlb].
    destruct (disconnect_wf _ a b Hh Hsym Hloop Hla Hlb)
      as (h' & Hrun & Hh' & Hsym' & Hloop' & Hids & _).
    exists None, (with_objs h' c).
    rewrite (bind_ok _ _ _ _ _ (on_objs_run _ _ _ _ Hrun)).
    split_and!; [done|by apply cache_ok_with_objs|done|simpl; by rewrite Hids].
  - destruct (minimiser_wf _ a Hh Hsym Hloop Hop)
      as (m & h' & Hrun & Hh' & Hsym' & Hloop' & Hids & _).
    exists None, (with_objs h' c).
    rewrite (bind_ok _ _ _ _ _ (on_objs_run _ _ _ _ Hrun)).
    split_and!; [done|by apply cache_ok_with_objs|done|simpl; by rewrite Hids].
Qed.

(** X5. A lookup that fails.  When the objective raises at a key that is
    not cached, the lookup raises the same exception and caches nothing, but
    [Index] has been incremented; and the objective is called again at the
    next lookup of that key.  From then on the index of a vertex is no
    longer its rank: in a cache that was well-formed, the next vertex
    created gets the index of its rank plus one. *)
Theorem failed_lookup_consumes_an_index (c : VertexCache) (x y : key) e fy :
  cache_ok c → vc_cache c !! x = None → func x = inl e →
  vc_cache c !! y = None → func y = inr fy →
  ∃ c1, getitem x c = (inl e, c1) ∧
    vc_cache c1 = vc_cache c ∧ vc_objs c1 = vc_objs c ∧
    vc_Index c1 = (vc_Index c + 1)%Z ∧
    calls_at x c1 = S (calls_at x c) ∧
    (∃ c2, getitem x c1 = (inl e, c2) ∧ calls_at x c2 = S (S (calls_at x c))) ∧
    ∃ a c2 v, getitem y c1 = (inr a, c2) ∧ vc_objs c2 !! a = Some v ∧
              v_x v = y ∧ v_I v = (Z.of_nat a + 1)%Z.
Proof.
  intros Hok Hx Hfx Hy Hfy.
  rewrite (getitem_miss_raise _ _ _ Hx Hfx). eexists. split; [done|]. simpl.
  split_and!; try done.
  - rewrite calls_at_snoc. rewrite decide_True by done. lia.
  - rewrite (getitem_miss_raise _ x e) by done. eexists. split; [done|].
    rewrite !calls_at_snoc. rewrite !decide_True by done. lia.
  - rewrite (getitem_miss _ y fy) by done. simpl.
    exists (length (vc_objs c)). eexists _, _. split; [done|].
    split; [by apply list_lookup_middle|]. simpl.
    destruct Hok as (_ & _ & _ & -> & _). split; [done|]. lia.
Qed.

(** X6. A cell never lists a vertex twice: [add_vertex] appends the vertex
    when the cell does not hold it and changes nothing when it does, so a
    list without duplicates stays so and the vertices already listed keep
    their positions. *)
Theorem add_vertex_no_duplicates (s : Complex) c cell a :
  hc_cells s !! c = Some cell → NoDup (c_C cell) →
  ∃ s' cell', add_vertex c a s = (inr tt, s') ∧
    hc_cells s' !! c = Some cell' ∧ NoDup (c_C cell') ∧ a ∈ c_C cell' ∧
    (a ∈ c_C cell → s' = s) ∧
    (a ∉ c_C cell → c_C cell' = c_C cell ++ [a]) ∧
    c_C cell `prefix_of` c_C cell' ∧
    (∀ c', c' ≠ c → hc_cells s' !! c' = hc_cells s !! c').
Proof.
  intros Hc Hnd.
  assert (wp (add_vertex c a) s (ok (λ _ s', ∃ cell',
            hc_cells s' !! c = Some cell' ∧ NoDup (c_C cell') ∧ a ∈ c_C cell' ∧
            (a ∈ c_C cell → s' = s) ∧
            (a ∉ c_C cell → c_C cell' = c_C cell ++ [a]) ∧
            c_C cell `prefix_of` c_C cell' ∧
            (∀ c', c' ≠ c → hc_cells s' !! c' = hc_cells s !! c')))) as Hwp.
  { eapply wp_add_vertex; [done| |]; intros Hin; simpl.
    - exists cell. by split_and!.
    - exists (set_C (c_C cell ++ [a]) cell). split_and!; try done.
      + apply list_lookup_insert_eq. by eapply lookup_lt_Some.
      + simpl. apply NoDup_app. split_and!; [done| |apply NoDup_singleton].
        intros y Hy ->%list_elem_of_singleton. done.
      + simpl. set_solver.
      + simpl. by apply prefix_app_r.
      + intros c' Hne. by rewrite list_lookup_insert_ne. }
  apply wp_ok_elim in Hwp as ([] & s' & Hrun & cell' & Hrest).
  by exists s', cell'.
Qed.

(** X8. The vertices of a child cell.  For an origin, a supremum and a
    vertex [u] of the unit cube, all of [n] coordinates, the key
    [generate_sub_cell_t1(origin, u) + generate_sub_cell_t2(suprenum, u)]
    takes each coordinate from the origin where [u] has a 0 and from the
    supremum where [u] has a 1; the corner [(0,...,0)] is mapped to the
    origin and the corner [(1,...,1)] to the supremum. *)
Theorem sub_cell_vertex_selects_coordinates (origin suprenum u : key) n :
  length origin = n → length suprenum = n → binary n u →
  ∃ t1 t2 vec,
    generate_sub_cell_t1 origin u = inr t1 ∧
    generate_sub_cell_t2 suprenum u = inr t2 ∧
    broadcast2 Qcplus t1 t2 = inr vec ∧ length vec = n ∧
    (∀ i, u !! i = Some 0 → vec !! i = origin !! i) ∧
    (∀ i, u !! i = Some 1 → vec !! i = suprenum !! i) ∧
    (u = replicate n 0 → vec = origin) ∧
    (u = replicate n 1 → vec = suprenum).
Proof.
  intros Ho Hs [Hu Hbin].
  pose proof (child_key_affine origin suprenum u n Ho Hs Hu) as Hkey.
  unfold generate_sub_cell_t1, generate_sub_cell_t2 in *.
  rewrite (broadcast2_same Qcmult origin u) in * by congruence. simpl in *.
  rewrite (broadcast2_same Qcminus) in * by (rewrite length_zip_with; lia).
  rewrite (broadcast2_same Qcmult suprenum u) in * by congruence. simpl in *.
  assert (∀ i q, u !! i = Some q →
            affine origin suprenum u !! i =
            (o ← (origin !! i); sp ← (suprenum !! i); Some (o - o * q + sp * q))) as Hlook.
  { intros i q Hq. unfold affine. rewrite !lookup_zip_with, Hq.
    destruct (origin !! i) as [o|] eqn:Hoi; simpl.
    - destruct (suprenum !! i) as [sp|] eqn:Hsi; simpl; [done|].
      apply lookup_lt_Some in Hq. apply lookup_ge_None in Hsi. lia.
    - apply lookup_lt_Some in Hq. apply lookup_ge_None in Hoi. lia. }
  assert (∀ i, u !! i = Some 0 → affine origin suprenum u !! i = origin !! i) as H0.
  { intros i Hq. rewrite (Hlook i 0 Hq).
    destruct (origin !! i) as [o|] eqn:Hoi; simpl; [|done].
    destruct (suprenum !! i) as [sp|] eqn:Hsi; simpl.
    - f_equal. ring.
    - apply lookup_lt_Some in Hq. apply lookup_ge_None in Hsi. lia. }
  assert (∀ i, u !! i = Some 1 → affine origin suprenum u !! i = suprenum !! i) as H1.
  { intros i Hq. rewrite (Hlook i 1 Hq).
    destruct (origin !! i) as [o|] eqn:Hoi; simpl.
    - destruct (suprenum !! i) as [sp|] eqn:Hsi; simpl; [|done]. f_equal. ring.
    - apply lookup_lt_Some in Hq. apply lookup_ge_None in Hoi. lia. }
  eexists _, _, _. split; [done|]. split; [done|]. split; [exact Hkey|].
  split; [by apply length_affine|]. split; [done|]. split; [done|]. split.
  - intros ->. apply list_eq. intros i.
    destruct (decide (i < n)%nat).
    + apply H0. by apply lookup_replicate_2.
    + rewrite !lookup_ge_None_2; [done|lia|].
      rewrite (length_affine _ _ _ n); [lia|done..].
  - intros ->. apply list_eq. intros i.
    destruct (decide (i < n)%nat).
    + apply H1. by apply lookup_replicate_2.
    + rewrite !lookup_ge_None_2; [done|lia|].
      rewrite (length_affine _ _ _ n); [lia|done..].
Qed.

(** ** The constructed complex *)

Lemma template_lookup (h : heap) i row :
  template h !! i = Some row ↔
  (i < length h)%nat ∧ row = Z.of_nat <$> iteration i (nn_of h i).
Proof.
  unfold template. rewrite list_lookup_fmap. split.
  - destruct (seq 0 (length h) !! i) as [a|] eqn:Hi; simpl; [|done].
    apply lookup_seq in Hi as [-> Hlt]. by intros [= <-].
  - intros [Hlt ->]. by rewrite lookup_seq_lt.
Qed.

(** No cell of the complex has a centroid. *)
Definition no_centroid (s : Complex) : Prop :=
  ∀ c cell, hc_cells s !! c = Some cell → c_centroid cell = None.

Lemma heap_inv_no_centroid : heap_inv no_centroid.
Proof. by intros s V' ?. Qed.

Lemma add_inv_no_centroid c : add_inv c no_centroid.
Proof.
  intros s cell l HP Hc c' cell'. simpl.
  destruct (decide (c' = c)) as [->|Hne].
  - rewrite list_lookup_insert_eq by (by eapply lookup_lt_Some).
    intros [= <-]. simpl. by eapply HP.
  - rewrite list_lookup_insert_ne by done. apply HP.
Qed.

Lemma keeps_add_and_connect P xi2 xi x_parents :
  heap_inv P → (∀ c, add_inv c P) → keeps P (add_and_connect xi2 xi x_parents).
Proof.
  intros HP Hadd. unfold add_and_connect. keep;
    first [ by apply keeps_V_get | by apply keeps_add_vertex
          | by apply keeps_on_heap; [|apply connect_ids] ].
Qed.

Lemma keeps_perm P fuel : ∀ i_parents x_parents xi,
  heap_inv P → (∀ c, add_inv c P) → keeps P (perm fuel i_parents x_parents xi).
Proof.
  induction fuel as [|fuel IH]; intros ip xp xi HP Hadd; simpl.
  - keep; by apply keeps_add_and_connect.
  - keep; first [ by apply keeps_add_and_connect | by apply IH ].
Qed.

Lemma keeps_count_minimisers P l : ∀ acc,
  heap_inv P → keeps P (count_minimisers l acc).
Proof.
  induction l as [|a l IH]; intros acc HP; simpl; [apply keeps_ret|].
  apply keeps_bind; [by apply keeps_on_heap; [|apply minimiser_ids]|].
  intros m. by apply IH.
Qed.

Lemma keeps_cell_update P c g :
  (∀ s cell, P s → hc_cells s !! c = Some cell →
             P (set_cells (<[c := g cell]> (hc_cells s)) s)) →
  keeps P (cell_update c g).
Proof.
  intros Hg s Hs. unfold cell_update, cell_deref, bind, get, from_option, modify.
  destruct (hc_cells s !! c) as [cell|] eqn:Hc; simpl; [|done]. by apply Hg.
Qed.

Lemma no_centroid_set_hg_n s c cell n :
  no_centroid s → hc_cells s !! c = Some cell →
  no_centroid (set_cells (<[c := set_hg_n n cell]> (hc_cells s)) s).
Proof.
  intros HP Hc c' cell'. simpl. destruct (decide (c' = c)) as [->|Hne].
  - rewrite list_lookup_insert_eq by (by eapply lookup_lt_Some).
    intros [= <-]. simpl. by eapply HP.
  - rewrite list_lookup_insert_ne by done. apply HP.
Qed.

Lemma keeps_no_centroid_new_cell p_gen p_hgr p_hgr_h o sp :
  keeps no_centroid (new_cell p_gen p_hgr p_hgr_h o sp).
Proof.
  intros s Hs c cell. unfold new_cell, bind, get, put, ret. simpl.
  intros Hc. apply lookup_app_Some in Hc as [Hc|[_ Hc]]; [by eapply Hs|].
  apply list_lookup_singleton_Some in Hc as [_ <-]. done.
Qed.

Lemma keeps_no_centroid_init :
  keeps no_centroid
    (dim <- gets hc_dim ;;
     n_cube dim false ;;;
     modify (λ s, set_H (hc_H s ++ [[]]) s) ;;;
     c0 <- gets hc_C0 ;;
     H <- gets hc_H ;;
     row <- from_option IndexError (H !! 0%nat) ;;
     modify (set_H (<[0%nat := row ++ [c0]]> H)) ;;;
     n <- homology_group_rank c0 ;;
     modify (set_hgr n 0) ;;;
     graph_map).
Proof.
  pose proof heap_inv_no_centroid as HP. pose proof add_inv_no_centroid as Hadd.
  unfold n_cube, homology_group_rank, graph_map.
  keep;
    first [ by apply keeps_V_get | by apply keeps_add_vertex
          | by apply keeps_perm | by apply keeps_cell_deref
          | by apply keeps_count_minimisers
          | by apply keeps_no_centroid_new_cell
          | by apply keeps_on_heap; [|apply deref_ids]
          | apply keeps_modify; by intros ??
          | apply keeps_cell_update; intros; by apply no_centroid_set_hg_n ].
Qed.

Section Constructed.

Variable d : nat.
Hypothesis func_total : ∀ x : key, length x = d → ∃ fx, func x = inr fx.

(** X9. The complex that the constructor returns, for an objective that
    returns at every point of dimension [d] (with symmetry, [d] is
    positive): the generation counter is 0 and [H] holds one row with the
    initial cell; the keys of the cache are the [2^d] vertices of the unit
    cube without symmetry, and with symmetry the [d+1] vertices
    [(1,...,1,0,...,0)]; the initial cell lists every vertex of the cache
    once, in the order of creation; and the cache satisfies its
    invariant. *)
Theorem initial_keys_and_layout (symmetry : bool) :
  (symmetry = true → (0 < d)%nat) →
  ∃ s cell0, Complex_init (Z.of_nat d) symmetry = inr s ∧
    hc_dim s = Z.of_nat d ∧ hc_symmetry s = symmetry ∧
    hc_gen s = 0%nat ∧ hc_H s = [[hc_C0 s]] ∧
    hc_cells s !! hc_C0 s = Some cell0 ∧
    c_C cell0 = seq 0 (length (vc_objs (hc_V s))) ∧
    cache_ok (hc_V s) ∧
    ∀ y, is_Some (vc_cache (hc_V s) !! y) ↔
         if symmetry then ∃ k, (k ≤ d)%nat ∧ y = chain_vertex d k
         else length y = d ∧ Forall (λ q, q = 0 ∨ q = 1) y.
Proof.
  intros Hsym.
  destruct (Complex_init_total d func_total symmetry Hsym) as (s & Hinit & Hok).
  destruct Hok as ((Hcok & cell0 & Hc0 & HC) & Hk & Hdim & Hsy & HH & Hgen & Hg).
  exists s, cell0. split_and!; try done.
  intros y. rewrite <-elem_of_dom. fold (keys s). rewrite Hk.
  unfold initial_key, binary. by destruct symmetry.
Qed.

(** X10. The adjacency template of the constructed complex has one row for
    every vertex, in the order of creation; the row of a vertex lists the
    indices of its neighbours, each once and never its own, and [j] is in
    the row of [i] exactly when [i] is in the row of [j]. *)
Theorem initial_template_is_adjacency (symmetry : bool) :
  (symmetry = true → (0 < d)%nat) →
  ∃ s, Complex_init (Z.of_nat d) symmetry = inr s ∧
    length (hc_graph s) = length (vc_objs (hc_V s)) ∧
    (∀ i row, hc_graph s !! i = Some row →
       NoDup row ∧ (Z.of_nat i ∉ row) ∧
       ∀ j, j ∈ row ↔
            ∃ b, j = Z.of_nat b ∧ b ∈ nn_of (vc_objs (hc_V s)) i) ∧
    (∀ i j ri rj, hc_graph s !! i = Some ri → hc_graph s !! j = Some rj →
       Z.of_nat j ∈ ri → Z.of_nat i ∈ rj).
Proof.
  intros Hsym.
  destruct (Complex_init_total d func_total symmetry Hsym) as (s & Hinit & Hok).
  destruct Hok as ((Hcok & _) & _ & _ & _ & _ & _ & Hg).
  destruct Hcok as (Hh & Hsymm & Hloop & _).
  assert (∀ i row j, hc_graph s !! i = Some row →
            (j ∈ row ↔ ∃ b, j = Z.of_nat b ∧ b ∈ nn_of (vc_objs (hc_V s)) i))
    as Hrow.
  { intros i row j Hi. rewrite Hg in Hi. apply template_lookup in Hi as [_ ->].
    rewrite list_elem_of_fmap. by setoid_rewrite elem_of_iteration. }
  exists s. split_and!; [done| | |].
  - rewrite Hg. unfold template. by rewrite length_fmap, length_seq.
  - intros i row Hi. split_and!.
    + rewrite Hg in Hi. apply template_lookup in Hi as [_ ->].
      apply NoDup_fmap_2; [apply Nat2Z.inj'|apply NoDup_iteration].
    + rewrite (Hrow i row _ Hi). intros (b & ->%Nat2Z.inj & Hb).
      by apply (Hloop b).
    + intros j. by apply Hrow.
  - intros i j ri rj Hi Hj Hin.
    apply (Hrow i ri _ Hi) in Hin as (b & ->%Nat2Z.inj & Hb).
    apply (Hrow b rj _ Hj). exists i. split; [done|]. by apply Hsymm.
Qed.

(** X14. A complex built without symmetry cannot be refined: its initial
    cell has no centroid ([centroid] is still [None]), so
    [split_generation] raises [TypeError] on it, and leaves the complex as
    it was. *)
Theorem nonsymmetric_complex_cannot_split :
  ∃ s cell0, Complex_init (Z.of_nat d) false = inr s ∧
    hc_cells s !! hc_C0 s = Some cell0 ∧ c_centroid cell0 = None ∧
    split_generation s = (inl TypeError, s).
Proof.
  assert (wp init_body (blank (Z.of_nat d) false)
            (λ r s, ok (λ _ s, initial_ok d false s) r s ∧ no_centroid s)) as Hwp.
  { apply wp_conj; [by apply wp_init_body|].
    unfold init_body. apply wp_bind, wp_gets. simpl.
    unfold bind at 1. unfold wp. simpl.
    apply (keeps_no_centroid_init (blank (Z.of_nat d) false)).
    by intros c cell. }
  apply wp_elim in Hwp as ([e|[]] & s & Hinit & Hok & Hnc); [done|].
  simpl in Hok. pose proof Hok as ((_ & cell0 & Hc0 & _) & _ & _ & _ & HH & Hgen & _).
  exists s, cell0. split_and!.
  - unfold Complex_init. by rewrite Hinit.
  - done.
  - by eapply Hnc.
  - apply (split_generation_no_centroid s (hc_C0 s) [] cell0); [|done|by eapply Hnc].
    by rewrite Hgen, HH.
Qed.

End Constructed.

(** ** The first refinement of a symmetric complex *)

(** [disconnect_rows] on the vertices of a cell that has a vertex for
    every index of the template. *)
Lemma wp_disconnect_rows_ok C cell rows : ∀ i s,
  cache_ok (hc_V s) → hc_cells s !! C = Some cell →
  Forall (λ a, (a < length (objs_of s))%nat) (c_C cell) →
  (i + length rows ≤ length (c_C cell))%nat →
  Forall (Forall (λ j, (0 ≤ j < Z.of_nat (length (c_C cell)))%Z)) rows →
  wp (disconnect_rows C (Z.of_nat (length (c_C cell)) - 1) i rows) s
     (ok (λ _ s', cache_ok (hc_V s') ∧ hc_cells s' = hc_cells s ∧
                  shell s' = shell s ∧ ids (objs_of s') = ids (objs_of s))).
Proof.
  induction rows as [|row rows IH]; intros i s Hok Hcell Hlt Hlen Hrows; simpl.
  - by apply wp_ret.
  - case_bool_decide as Hi; [by apply wp_ret|].
    apply Forall_cons in Hrows as [Hrow Hrows]. simpl in Hlen.
    destruct (lookup_lt_is_Some_2 (c_C cell) i) as [a1 Ha1]; [lia|].
    apply wp_bind_ok.
    eapply wp_ok_mono.
    { apply (wp_for_each (λ _ s', cache_ok (hc_V s') ∧ hc_cells s' = hc_cells s ∧
                            shell s' = shell s ∧ ids (objs_of s') = ids (objs_of s))).
      - done.
      - intros seen j rest s1 Hsplit (Hok1 & Hc1 & Hsh1 & Hids1).
        assert (j ∈ row) as Hj by (rewrite Hsplit; set_solver).
        apply (proj1 (Forall_forall _ _) Hrow) in Hj.
        apply wp_bind_ok. eapply wp_cell_deref; [by rewrite Hc1|]. simpl.
        apply wp_bind_ok, wp_from_option. rewrite Ha1. simpl.
        apply wp_bind_ok, wp_from_option. unfold py_index.
        rewrite decide_True by lia.
        destruct (lookup_lt_is_Some_2 (c_C cell) (Z.to_nat j)) as [a2 Ha2]; [lia|].
        rewrite Ha2. simpl. apply wp_on_heap.
        pose proof Hok1 as (Hhok & Hsym & Hloop & _).
        pose proof (ids_length _ _ Hids1) as Hlen1.
        destruct (disconnect_wf (objs_of s1) a1 a2 Hhok Hsym Hloop)
          as (h' & Hrun & Hok' & Hsym' & Hloop' & Hids' & _).
        { rewrite Hlen1. eapply (proj1 (Forall_forall _ _) Hlt).
          by eapply list_elem_of_lookup_2. }
        { rewrite Hlen1. eapply (proj1 (Forall_forall _ _) Hlt).
          by eapply list_elem_of_lookup_2. }
        eapply wp_intro; [done|]. simpl. split_and!; try done.
        * by apply cache_ok_with_objs.
        * unfold objs_of in *. simpl. congruence. }
    intros u s1 (Hok1 & Hc1 & Hsh1 & Hids1). simpl.
    eapply wp_ok_mono.
    { apply (IH (S i) s1); try done.
      - by rewrite Hc1.
      - by rewrite (ids_length _ _ Hids1).
      - lia. }
    intros u' s2 (Hok2 & Hc2 & Hsh2 & Hids2). simpl.
    split_and!; try done; congruence.
Qed.

(** The centroid that the constructor gives the initial cell of a
    symmetric complex: the key of the last vertex of the cell. *)
Definition corner_centroid (s : Complex) : Prop :=
  ∃ cell a v, hc_cells s !! hc_C0 s = Some cell ∧ list.last (c_C cell) = Some a ∧
    objs_of s !! a = Some v ∧ c_centroid cell = Some (v_x v).

Lemma heap_inv_corner_centroid : heap_inv corner_centroid.
Proof.
  intros s V' (cell & a & v & Hc & Hlast & Hv & Hcen) [rest Hpre].
  assert (ids (vc_objs V') !! a = ids (objs_of s) !! a) as Hlook.
  { rewrite Hpre. apply lookup_app_l. unfold ids. rewrite length_fmap.
    by eapply lookup_lt_Some. }
  unfold ids in Hlook. rewrite !list_lookup_fmap, Hv in Hlook.
  destruct (vc_objs V' !! a) as [v'|] eqn:Hv'; [|done]. simpl in Hlook.
  exists cell, a, v'. split_and!; try done. rewrite Hcen.
  injection Hlook as Hx _ _ _. by rewrite Hx.
Qed.

Lemma corner_centroid_set_hg_n s c cell n :
  corner_centroid s → hc_cells s !! c = Some cell →
  corner_centroid (set_cells (<[c := set_hg_n n cell]> (hc_cells s)) s).
Proof.
  intros (cell0 & a & v & Hc0 & Hlast & Hv & Hcen) Hc.
  destruct (decide (c = hc_C0 s)) as [->|Hne].
  - assert (cell = cell0) as -> by congruence.
    exists (set_hg_n n cell0), a, v. split_and!; try done. simpl.
    apply list_lookup_insert_eq. by eapply lookup_lt_Some.
  - exists cell0, a, v. split_and!; try done. simpl.
    by rewrite list_lookup_insert_ne.
Qed.

Lemma keeps_corner_centroid_suffix :
  keeps corner_centroid
    (modify (λ s, set_H (hc_H s ++ [[]]) s) ;;;
     c0 <- gets hc_C0 ;;
     H <- gets hc_H ;;
     row <- from_option IndexError (H !! 0%nat) ;;
     modify (set_H (<[0%nat := row ++ [c0]]> H)) ;;;
     n <- homology_group_rank c0 ;;
     modify (set_hgr n 0) ;;;
     graph_map).
Proof.
  pose proof heap_inv_corner_centroid as HP.
  unfold homology_group_rank, graph_map.
  keep;
    first [ by apply keeps_cell_deref
          | by apply keeps_count_minimisers
          | by apply keeps_on_heap; [|apply deref_ids]
          | apply keeps_modify; by intros ??
          | apply keeps_cell_update; intros; by apply corner_centroid_set_hg_n ].
Qed.

Lemma wp_any {St A} (m : M St A) s (Q : exn + A → St → Prop) :
  (∀ r s', m s = (r, s') → Q r s') → wp m s Q.
Proof. intros HQ. unfold wp. apply HQ. by destruct (m s). Qed.

Lemma init_body_corner_centroid dim s :
  init_body (blank dim true) = (inr tt, s) → corner_centroid s.
Proof.
  intros Hrun.
  assert (wp init_body (blank dim true) (if_ok (λ _ s, corner_centroid s))) as Hwp.
  { unfold init_body. apply wp_bind, wp_gets. simpl. apply wp_bind, wp_gets. simpl.
    apply wp_bind, wp_any. intros [e|[]] s1 _; [done|].
    apply wp_bind, wp_bind, wp_gets. simpl.
    apply wp_bind. unfold cell_deref. apply wp_bind, wp_get. simpl.
    apply wp_from_option.
    destruct (hc_cells s1 !! hc_C0 s1) as [cell|] eqn:Hc; simpl; [|done].
    apply wp_bind, wp_from_option.
    destruct (list.last (c_C cell)) as [a|] eqn:Hlast; simpl; [|done].
    apply wp_bind. destruct (objs_of s1 !! a) as [v|] eqn:Hv.
    2:{ eapply wp_intro; [by apply on_heap_deref_bad|done]. }
    eapply wp_intro; [by apply on_heap_deref|].
    apply wp_bind, wp_modify. simpl.
    eapply wp_cell_update; [simpl; done|]. simpl.
    eapply wp_mono; [apply keeps_wp; [apply keeps_corner_centroid_suffix|]|].
    - exists (set_centroid (Some (v_x v)) cell), a, v. simpl. split_and!; try done.
      apply list_lookup_insert_eq. by eapply lookup_lt_Some.
    - by intros [e|[]] s2 Hs2. }
  unfold wp in Hwp. by rewrite Hrun in Hwp.
Qed.

Section Symmetric.

Variable d : nat.
Hypothesis func_total : ∀ x : key, length x = d → ∃ fx, func x = inr fx.

(** The state in which the initial cell is split. *)
Definition splitting (s0 : Complex) (cell0 : Cell) (gen : nat) (s : Complex) : Prop :=
  tmpl_ok d s ∧ hc_C0 s = hc_C0 s0 ∧ hc_cells s !! hc_C0 s0 = Some cell0 ∧
  hc_graph s = hc_graph s0 ∧ is_Some (hc_H s !! gen).

Lemma wp_sub_generate_cell_ok s cell0 o gen :
  tmpl_ok d s → hc_cells s !! hc_C0 s = Some cell0 →
  c_centroid cell0 = Some o → length o = d → (gen ≤ length (hc_H s))%nat →
  wp (sub_generate_cell (hc_C0 s) gen) s (ok (λ _ _, True)).
Proof.
  intros Htm Hc0 Hcen Hlo Hgen. unfold sub_generate_cell.
  apply wp_bind_ok. eapply wp_cell_deref; [done|]. simpl.
  apply wp_bind_ok, wp_from_option. rewrite Hcen. simpl.
  apply wp_bind_ok, wp_gets. simpl.
  apply wp_bind_ok.
  eapply (wp_ok_mono _ _ (λ _ s1, splitting s cell0 gen s1)).
  { destruct (decide (gen < length (hc_H s))%nat) as [Hlt|Hge].
    - apply wp_ret. simpl. split_and!; try done. by apply lookup_lt_is_Some_2.
    - apply wp_modify. simpl. split_and!; try done. simpl.
      apply lookup_lt_is_Some_2. rewrite length_app. simpl. lia. }
  intros u s1 Hs1. simpl.
  apply wp_bind_ok.
  eapply wp_ok_mono.
  { apply (wp_for_collect (λ _ _ s', splitting s cell0 gen s')); [done|].
    intros seen bs a rest s2 Hsplit (Htm2 & HC2 & Hc2 & Hg2 & HH2).
    assert (a ∈ c_C cell0) as Ha.
    { apply elem_of_removelast. rewrite Hsplit. set_solver. }
    pose proof Htm2 as (_ & cell0' & Hc0' & _ & Hall & _).
    rewrite HC2, Hc2 in Hc0'. injection Hc0' as <-.
    destruct (proj1 (Forall_forall _ _) Hall a Ha) as (v & Hv & Hlv).
    apply wp_bind_ok. eapply wp_intro; [by apply on_heap_deref|]. simpl.
    apply wp_bind_ok. eapply wp_cell_deref; [done|]. simpl.
    eapply wp_mono.
    { apply wp_conj.
      - apply (wp_construct_hypercube d func_total s2 cell0 o (v_x v) gen);
          [done|by rewrite HC2|done..].
      - apply (wp_construct_hypercube_any 0 s2 s2); [apply kept_refl|lia]. }
    intros [e|c] s3 [Hbuilt [Hk _]]; simpl in *; [done|].
    destruct Hbuilt as ((cen & V & row & _ & _ & _ & _ & Hrow & HH3 & _) & Htm3 & Hc3 & Hg3).
    destruct Hk as (Hf & _). unfold frame_of in Hf.
    assert (hc_C0 s3 = hc_C0 s2) as HC3 by congruence.
    split_and!; try done; try congruence.
    rewrite HH3. apply lookup_lt_is_Some_2. rewrite length_insert.
    by eapply lookup_lt_Some. }
  intros H_new s4 (Htm4 & HC4 & Hc4 & Hg4 & HH4). simpl.
  apply wp_bind_ok, wp_gets. simpl.
  pose proof Htm4 as (Hcok & cell0' & Hc0' & _ & Hall & Hglen & Hgrange).
  rewrite HC4, Hc4 in Hc0'. injection Hc0' as <-.
  apply wp_bind_ok. eapply wp_ok_mono.
  { apply (wp_disconnect_rows_ok (hc_C0 s) cell0); try done.
    - eapply Forall_impl; [exact Hall|]. intros a (v & Hv & _).
      by eapply lookup_lt_Some.
    - lia. }
  intros u' s5 _. by apply wp_ret.
Qed.

(** X17. The first refinement of a symmetric complex.  For a positive
    dimension [d] and an objective that returns at every point of that
    dimension, the constructor with symmetry returns a complex whose
    initial cell has for centroid the key of its last vertex, a vertex of
    the cube and not the centre of the cell.  [split_generation] returns
    on it: the generation counter is then 1, the row [H[0]] still holds the
    initial cell, and the row [H[1]] holds [d] children, one for each vertex
    of the initial cell but the last, with that centroid for origin, the key
    of the vertex for supremum and [(origin + supremum)/2.0], as the
    machine computes it, for centroid. *)
Theorem symmetric_complex_splits_once :
  (0 < d)%nat →
  ∃ s cell0 a v s' children,
    Complex_init (Z.of_nat d) true = inr s ∧
    hc_cells s !! hc_C0 s = Some cell0 ∧ list.last (c_C cell0) = Some a ∧
    vc_objs (hc_V s) !! a = Some v ∧ c_centroid cell0 = Some (v_x v) ∧
    is_Some (vc_cache (hc_V s) !! v_x v) ∧
    split_generation s = (inr tt, s') ∧ hc_gen s' = 1%nat ∧
    hc_H s' !! 0%nat = Some [hc_C0 s] ∧ hc_H s' !! 1%nat = Some children ∧
    length children = d ∧
    Forall2 (child_of s' 1 cell0 (v_x v)) (removelast (c_C cell0)) children.
Proof.
  intros Hd.
  destruct (Complex_init_total d func_total true) as (s & Hinit & Hok); [done|].
  assert (init_body (blank (Z.of_nat d) true) = (inr tt, s)) as Hbody.
  { unfold Complex_init in Hinit.
    destruct (init_body (blank (Z.of_nat d) true)) as [[e|[]] s0]; congruence. }
  destruct (init_body_corner_centroid _ _ Hbody) as (cell0 & a & v & Hc0 & Hlast & Hv & Hcen).
  pose proof (initial_tmpl_ok d true s Hok) as Htm.
  pose proof Hok as ((Hcok & cell0' & Hc0' & HC) & Hk & _ & _ & HH & Hgen & _).
  assert (cell0' = cell0) as -> by congruence.
  destruct (initial_ok_counts d true s (chain_vertex d <$> seq 0 (S d)) Hok)
    as (cell0' & Hc0'' & _ & _ & Hlen & _).
  { apply NoDup_fmap_2_strong; [|apply NoDup_seq].
    intros k k' Hk1%elem_of_seq Hk2%elem_of_seq. apply chain_vertex_inj; lia. }
  { intros y. rewrite list_elem_of_fmap. unfold initial_key. split.
    - intros (k & Hk1 & ->). exists k. split; [done|]. apply elem_of_seq. lia.
    - intros (k & -> & Hk1%elem_of_seq). exists k. split; [lia|done]. }
  assert (cell0' = cell0) as -> by congruence.
  rewrite length_fmap, length_seq in Hlen.
  assert (length (v_x v) = d) as Hlv.
  { destruct Htm as (_ & cell0' & Hc0''' & _ & Hall & _).
    assert (cell0' = cell0) as -> by congruence.
    apply last_Some_elem_of in Hlast.
    destruct (proj1 (Forall_forall _ _) Hall a Hlast) as (v' & Hv' & Hl).
    unfold objs_of in *. congruence. }
  assert (wp split_cells s (ok (λ _ _, True))) as Hrun.
  { unfold split_cells. apply wp_bind_ok, wp_gets. simpl.
    apply wp_bind_ok, wp_gets. simpl. rewrite Hgen, HH. simpl.
    apply wp_bind_ok, wp_ret. simpl.
    apply wp_bind_ok, wp_bind_ok, wp_gets. simpl. rewrite Hgen.
    apply wp_bind_ok. eapply wp_ok_mono.
    { apply (wp_sub_generate_cell_ok s cell0 (v_x v)); try done.
      rewrite HH. simpl. lia. }
    intros H_new s1 _. simpl. apply wp_ret. simpl. by apply wp_ret. }
  apply wp_ok_elim in Hrun as ([] & s1 & Hsc & _).
  assert (hc_H s !! hc_gen s = Some [hc_C0 s]) as Hrow by (by rewrite Hgen, HH).
  pose proof (wp_split_cells s _ Hrow) as Hwp. unfold wp in Hwp.
  rewrite Hsc in Hwp. simpl in Hwp. destruct Hwp as (Hk1 & groups & Hch & Hnew).
  apply Forall2_cons_inv_l in Hch as (g & groups' & Hg & Hnil & ->).
  apply Forall2_nil_inv_l in Hnil as ->.
  destruct Hg as (cell & o & Hcell & Hcen' & Hchildren).
  rewrite (kept_cell _ _ _ _ _ Hk1 Hc0) in Hcell. injection Hcell as <-.
  rewrite Hcen in Hcen'. injection Hcen' as <-.
  rewrite Hgen, HH in Hnew. simpl in Hnew. rewrite app_nil_r in Hnew.
  assert (length g = d) as Hlg.
  { rewrite <-(Forall2_length _ _ _ Hchildren), length_removelast, Hlen. done. }
  exists s, cell0, a, v, (set_gen 1 s1), g. split_and!; try done.
  - destruct Hcok as (_ & _ & _ & _ & Hbij & _).
    exists a. apply Hbij. by exists v.
  - unfold split_generation, bind, try_pass, modify. rewrite Hsc. simpl.
    by rewrite (kept_gen _ _ _ Hk1), Hgen.
  - simpl. destruct Hk1 as (_ & _ & _ & Hrows).
    rewrite Hrows by (rewrite Hgen; lia). by rewrite HH.
  - simpl. destruct (hc_H s1 !! 1%nat) as [g'|]; simpl in Hnew; [by rewrite Hnew|].
    subst g. simpl in Hlg. lia.
  - rewrite Hgen in Hchildren. eapply Forall2_impl; [exact Hchildren|].
    intros a' c' Hc'. exact Hc'.
Qed.

End Symmetric.

(** ** The rank of a cell *)

(** The cached answer of a vertex, when it has one, is right. *)
Definition valid_min (h : heap) (a : addr) : Prop :=
  ∀ va, h !! a = Some va → v_check_min va = false →
    ∃ m, v_min va = Some m ∧ (m = true ↔ is_local_min h a).

Lemma same_graph_lookup (h h' : heap) a va :
  ids h' = ids h → graph_of h' = graph_of h → h !! a = Some va →
  ∃ va', h' !! a = Some va' ∧ v_f va' = v_f va ∧ v_nn va' = v_nn va.
Proof.
  intros Hids Hg Ha. destruct (ids_lookup _ _ _ _ Hids Ha) as (va' & Ha' & _ & _ & Hf & _).
  exists va'. split_and!; try done.
  apply (f_equal (λ l, l !! a)) in Hg. unfold graph_of in Hg.
  rewrite !list_lookup_fmap, Ha, Ha' in Hg. simpl in Hg. congruence.
Qed.

Lemma is_local_min_same (h h' : heap) a :
  ids h' = ids h → graph_of h' = graph_of h →
  is_local_min h' a ↔ is_local_min h a.
Proof.
  assert (∀ h h' : heap, ids h' = ids h → graph_of h' = graph_of h →
            is_local_min h a → is_local_min h' a) as Hone.
  { clear h h'. intros h h' Hids Hg Hmin va' Ha' w vw' Hw Hvw'.
    destruct (same_graph_lookup h' h a va') as (va & Ha & Hf & Hnn); [done..|].
    destruct (same_graph_lookup h' h w vw') as (vw & Hvw & Hfw & _); [done..|].
    rewrite <-Hf, <-Hfw. apply (Hmin va Ha w vw); [by rewrite Hnn|done]. }
  intros Hids Hg. split; by apply Hone.
Qed.

Lemma minimiser_valid (h : heap) a :
  heap_ok h → (a < length h)%nat → valid_min h a →
  ∃ m h', minimiser a h = (inr m, h') ∧ (m = true ↔ is_local_min h a) ∧
    heap_ok h' ∧ ids h' = ids h ∧ graph_of h' = graph_of h ∧
    ∀ b, valid_min h b → valid_min h' b.
Proof.
  intros Hok Hla Hvalid.
  destruct (lookup_lt_is_Some_2 h a Hla) as [va Ha].
  destruct (v_check_min va) eqn:Hdirty.
  - destruct (minimiser_spec h a va Hok Ha)
      as (m & h' & Hrun & Hok' & Hids & Hg & (va' & Ha' & Hclean & Hmin) & Hothers & Hm).
    exists m, h'. split_and!; try done; [by apply Hm|].
    intros b Hb vb' Hb' Hcb. destruct (decide (b = a)) as [->|Hne].
    + assert (vb' = va') as -> by congruence. exists m. split; [done|].
      rewrite (is_local_min_same h h') by done. by apply Hm.
    + rewrite Hothers in Hb' by done. destruct (Hb vb' Hb' Hcb) as (mb & Hmb & Hiff).
      exists mb. split; [done|]. by rewrite (is_local_min_same h h').
  - destruct (Hvalid va Ha Hdirty) as (m & Hmin & Hiff).
    exists m, h. rewrite (minimiser_eq _ _ _ Ha), Hdirty, Hmin. by split_and!.
Qed.

Lemma objs_of_set_objs (h : heap) s : objs_of (set_objs h s) = h.
Proof. done. Qed.

Lemma wp_count_minimisers_valid l : ∀ acc s,
  heap_ok (objs_of s) →
  Forall (λ a, (a < length (objs_of s))%nat ∧ valid_min (objs_of s) a) l →
  wp (count_minimisers l acc) s
     (ok (λ n s', ∃ flags,
            Forall2 (λ a m, m = true ↔ is_local_min (objs_of s) a) l flags ∧
            n = (acc + length (filter (λ m, m = true) flags))%nat ∧
            s' = set_objs (objs_of s') s ∧
            ids (objs_of s') = ids (objs_of s) ∧
            graph_of (objs_of s') = graph_of (objs_of s))).
Proof.
  induction l as [|a l IH]; intros acc s Hok Hall; simpl.
  - apply wp_ret. simpl. exists []. split_and!; try done; try (simpl; lia).
    by rewrite set_objs_id.
  - apply Forall_cons in Hall as [[Hla Hva] Hall].
    destruct (minimiser_valid _ a Hok Hla Hva)
      as (m & h' & Hrun & Hm & Hok' & Hids & Hg & Hkeep).
    apply wp_bind_ok, wp_on_heap. eapply wp_intro; [done|]. simpl.
    eapply wp_ok_mono.
    { apply IH.
      - done.
      - rewrite objs_of_set_objs. eapply Forall_impl; [exact Hall|].
        intros b [Hlb Hvb].
        split; [by rewrite (ids_length _ _ Hids)|by apply Hkeep]. }
    intros n s' (flags & Hflags & Hn & Hs' & Hids' & Hg'). simpl.
    rewrite objs_of_set_objs in *.
    exists (m :: flags). split_and!.
    + apply Forall2_cons. split; [done|].
      eapply Forall2_impl; [exact Hflags|]. intros b mb Hb. simpl in Hb.
      by rewrite <-(is_local_min_same (objs_of s) h').
    + rewrite filter_cons. destruct m; simpl; lia.
    + rewrite Hs' at 1. done.
    + congruence.
    + congruence.
Qed.

(** X18. The rank of a cell counts its local minima, as long as the
    answers cached in its vertices are right.  On a cell whose rank was
    never computed, when every vertex of the cell either has its flag
    [check_min] set or holds in [min] whether its value is below or equal to
    that of all its neighbours, [homology_group_rank] returns the number of
    vertices of the cell (with multiplicity) whose value is below or equal
    to that of all their neighbours, and stores it in [hg_n]; the
    vertex list of the cell, the edges and the keys, values and indices of
    the vertices are unchanged. *)
Theorem homology_group_rank_counts_minimisers (s : Complex) c cell :
  hc_cells s !! c = Some cell → c_hg_n cell = None → heap_ok (objs_of s) →
  Forall (λ a, (a < length (objs_of s))%nat ∧ valid_min (objs_of s) a) (c_C cell) →
  ∃ n s' flags, homology_group_rank c s = (inr n, s') ∧
    Forall2 (λ a m, m = true ↔ is_local_min (objs_of s) a) (c_C cell) flags ∧
    n = length (filter (λ m, m = true) flags) ∧
    hc_cells s' !! c = Some (set_hg_n (Some n) cell) ∧
    graph_of (objs_of s') = graph_of (objs_of s) ∧
    ids (objs_of s') = ids (objs_of s).
Proof.
  intros Hc Hn Hok Hall.
  assert (wp (homology_group_rank c) s (ok (λ n s', ∃ flags,
            Forall2 (λ a m, m = true ↔ is_local_min (objs_of s) a) (c_C cell) flags ∧
            n = length (filter (λ m, m = true) flags) ∧
            hc_cells s' !! c = Some (set_hg_n (Some n) cell) ∧
            graph_of (objs_of s') = graph_of (objs_of s) ∧
            ids (objs_of s') = ids (objs_of s)))) as Hwp.
  { unfold homology_group_rank. apply wp_bind_ok.
    eapply wp_cell_deref; [done|]. simpl. rewrite Hn.
    apply wp_bind_ok. eapply wp_ok_mono; [by apply wp_count_minimisers_valid|].
    intros n s1 (flags & Hflags & Hcount & Hs1 & Hids & Hg). simpl in *.
    assert (hc_cells s1 !! c = Some cell) as Hc1 by (rewrite Hs1; exact Hc).
    apply wp_bind_ok. eapply wp_cell_update; [done|]. simpl. apply wp_ret. simpl.
    exists flags. split_and!; try done.
    apply list_lookup_insert_eq. by eapply lookup_lt_Some. }
  apply wp_ok_elim in Hwp as (n & s' & Hrun & flags & Hrest).
  by exists n, s', flags.
Qed.

(** ** Exceptions of the constructor and of [construct_hypercube] *)

(** X19. An origin and a supremum whose shapes numpy cannot add.  When the
    two differ in length and neither has length one, [construct_hypercube]
    raises [ValueError] before it looks up any vertex: the cache, the rows
    of [H], the cells of the complex and its other attributes are
    unchanged. *)
Theorem construct_hypercube_shape_mismatch (s : Complex) o sp gen hgr p_hgr_h :
  length o ≠ length sp → length o ≠ 1%nat → length sp ≠ 1%nat →
  ∃ s', construct_hypercube o sp gen hgr p_hgr_h s = (inl ValueError, s') ∧
    hc_V s' = hc_V s ∧ hc_H s' = hc_H s ∧ frame_of s' = frame_of s ∧
    ∀ c cell, hc_cells s !! c = Some cell → hc_cells s' !! c = Some cell.
Proof.
  intros Hne Ho Hsp.
  assert (midpoint o sp = inl ValueError) as Hmid.
  { unfold midpoint, broadcast2. rewrite decide_False by done.
    destruct o as [|o0 [|o1 o]], sp as [|s0 [|s1 sp]]; simpl in *; done. }
  unfold construct_hypercube, new_cell, bind, get, put, ret. simpl.
  rewrite Hmid. simpl. eexists. split; [done|]. simpl. split_and!; try done.
  intros c cell Hc. by apply lookup_app_l_Some.
Qed.

(** X20. The constructor evaluates the objective at the origin first, and
    an exception of the objective there is the exception of the
    constructor, whatever the symmetry flag. *)
Theorem constructor_propagates_objective_error (dim : Z) (symmetry : bool) e :
  (0 ≤ dim)%Z → func (replicate (Z.to_nat dim) 0) = inl e →
  Complex_init dim symmetry = inl e.
Proof.
  intros Hdim Hf.
  assert (wp init_body (blank dim symmetry) (λ r _, r = inl e)) as Hwp.
  { unfold init_body. apply wp_bind, wp_gets. simpl. apply wp_bind, wp_gets. simpl.
    apply wp_bind. unfold n_cube. rewrite decide_False by lia.
    apply wp_bind, wp_ret. simpl. apply wp_bind, wp_modify. simpl.
    unfold new_cell. apply wp_bind, wp_bind, wp_get. simpl.
    apply wp_bind, wp_put. simpl. apply wp_ret. simpl.
    apply wp_bind, wp_modify. simpl. apply wp_bind.
    eapply wp_V_get_raise; [done|exact Hf|done]. }
  unfold wp in Hwp. unfold Complex_init.
  destruct (init_body (blank dim symmetry)) as [r s]. simpl in Hwp. by rewrite Hwp.
Qed.

End Model.

(** * The order of iteration

    [graph_map] is the one place where a set is iterated for more than a
    test of all its elements.  It returns exactly when the vertices of the
    initial cell and their neighbours are allocated, whatever the order,
    and the order shows in the adjacency template only. *)
Section Order.

Context {value : Type}.
Variable leb : value → value → bool.
Variable func : key → exn + value.

Definition graph_ready (s : Complex (value:=value)) : Prop :=
  ∃ cell, hc_cells s !! hc_C0 s = Some cell ∧
    Forall (λ a, ∃ v, objs_of s !! a = Some v ∧
                  ∀ w, w ∈ v_nn v → is_Some (objs_of s !! w)) (c_C cell).

Lemma for_collect_returns {St A B} (P : A → Prop) (l : list A)
    (body : A → M St B) s bs s' :
  (∀ a b s1, body a s = (inr b, s1) → s1 = s ∧ P a) →
  for_collect l body s = (inr bs, s') → s' = s ∧ Forall P l.
Proof.
  intros Hbody. revert bs. induction l as [|a l IH]; intros bs; simpl.
  - intros [= <- <-]. by split.
  - intros (b & s1 & Hb & Hrest)%wp_bind_inv.
    apply Hbody in Hb as [-> Ha].
    apply wp_bind_inv in Hrest as (bs' & s2 & Hl & [= <- <-]).
    apply IH in Hl as [-> Hl]. split; [done|]. by constructor.
Qed.

Lemma on_heap_deref_returns (s s1 : Complex (value:=value)) a v :
  on_heap (deref a) s = (inr v, s1) → s1 = s ∧ objs_of s !! a = Some v.
Proof.
  intros Hrun. destruct (objs_of s !! a) as [v'|] eqn:Ha.
  - rewrite (on_heap_deref _ _ _ Ha) in Hrun. by injection Hrun as <- <-.
  - by rewrite (on_heap_deref_bad _ _ Ha) in Hrun.
Qed.

Lemma graph_map_returns pick (s s' : Complex (value:=value)) :
  graph_map pick s = (inr tt, s') → graph_ready s ∧ ∃ g, s' = set_graph g s.
Proof.
  unfold graph_map. intros (c0 & s1 & [= <- <-] & Hrun)%wp_bind_inv.
  apply wp_bind_inv in Hrun as (cell & s1 & [Hcell ->]%cell_deref_inv & Hrun).
  apply wp_bind_inv in Hrun as (rows & s1 & Hrows & [= <-]).
  apply (for_collect_returns
           (λ a, ∃ v, objs_of s !! a = Some v ∧
                   ∀ w, w ∈ v_nn v → is_Some (objs_of s !! w))) in Hrows
    as [-> Hall].
  - split; [by exists cell|by exists rows].
  - intros a b s2 (v & s3 & [-> Hv]%on_heap_deref_returns & Hinner)%wp_bind_inv.
    apply (for_collect_returns (λ w, is_Some (objs_of s !! w))) in Hinner
      as [-> Hin].
    + split; [done|]. exists v. split; [done|]. intros w Hw.
      rewrite Forall_forall in Hin. apply Hin. by apply elem_of_iteration.
    + intros w i s4 (v2 & s5 & [-> Hv2]%on_heap_deref_returns & [= <- <-])%wp_bind_inv.
      split; [done|]. by exists v2.
Qed.

Lemma graph_map_ready pick (s : Complex (value:=value)) :
  graph_ready s → ∃ g, graph_map pick s = (inr tt, set_graph g s).
Proof.
  intros (cell & Hcell & Hall). unfold graph_map.
  set (row := λ a, match objs_of s !! a with
                   | Some v => (λ w, match objs_of s !! w with Some v2 => v_I v2 | None => 0%Z end) <$>
                                 iteration pick a (v_nn v)
                   | None => []
                   end).
  exists (row <$> c_C cell).
  erewrite bind_ok; [|reflexivity]. simpl.
  erewrite bind_ok; [|by apply cell_deref_eq].
  erewrite bind_ok; [reflexivity|].
  apply for_collect_pure. intros a Ha.
  rewrite Forall_forall in Hall. destruct (Hall a Ha) as (v & Hv & Hnn).
  rewrite (bind_ok _ _ _ _ _ (on_heap_deref _ _ _ Hv)).
  unfold row. rewrite Hv.
  apply for_collect_pure. intros w Hw%elem_of_iteration.
  destruct (Hnn w Hw) as [v2 Hv2].
  rewrite (bind_ok _ _ _ _ _ (on_heap_deref _ _ _ Hv2)). by rewrite Hv2.
Qed.

Lemma init_body_any_order pick pick' (s0 s : Complex (value:=value)) :
  init_body leb func pick s0 = (inr tt, s) →
  ∃ g, init_body leb func pick' s0 = (inr tt, set_graph g s).
Proof.
  unfold init_body.
  intros (dim & s1 & [= <- <-] & Hrun)%wp_bind_inv.
  apply wp_bind_inv in Hrun as (sym & s1 & [= <- <-] & Hrun).
  apply wp_bind_inv in Hrun as ([] & s1 & Hcube & Hrun).
  apply wp_bind_inv in Hrun as ([] & s2 & Hcen & Hrun).
  apply wp_bind_inv in Hrun as ([] & s3 & [= <-] & Hrun).
  apply wp_bind_inv in Hrun as (c0 & s3' & [= <- <-] & Hrun).
  apply wp_bind_inv in Hrun as (H & s3' & [= <- <-] & Hrun).
  apply wp_bind_inv in Hrun as (row & s3' & Hrow & Hrun).
  apply wp_bind_inv in Hrun as ([] & s4 & [= <-] & Hrun).
  apply wp_bind_inv in Hrun as (n & s5 & Hrank & Hrun).
  apply wp_bind_inv in Hrun as ([] & s6 & [= <-] & Hrun).
  apply graph_map_returns in Hrun as [Hready [g ->]].
  destruct (graph_map_ready pick' _ Hready) as [g' Hg'].
  exists g'.
  erewrite bind_ok; [|reflexivity].
  erewrite bind_ok; [|reflexivity].
  erewrite bind_ok; [|exact Hcube].
  erewrite bind_ok; [|exact Hcen].
  erewrite bind_ok; [|reflexivity].
  erewrite bind_ok; [|reflexivity].
  erewrite bind_ok; [|reflexivity].
  erewrite bind_ok; [|exact Hrow].
  erewrite bind_ok; [|reflexivity].
  erewrite bind_ok; [|exact Hrank].
  erewrite bind_ok; [|reflexivity].
  by rewrite Hg'.
Qed.

(** The order in which the sets of neighbours are iterated shows in the
    adjacency template of the constructed complex and nowhere else. *)
Lemma Complex_init_any_order pick pick' dim symmetry (s : Complex (value:=value)) :
  Complex_init leb func pick dim symmetry = inr s →
  ∃ g, Complex_init leb func pick' dim symmetry = inr (set_graph g s).
Proof.
  unfold Complex_init.
  destruct (init_body leb func pick (blank dim symmetry)) as [[e|[]] s1] eqn:Hrun; [done|].
  intros [= <-]. destruct (init_body_any_order pick pick' _ _ Hrun) as [g Hg].
  exists g. by rewrite Hg.
Qed.

End Order.


(** * Concrete runs

    The objective values are rationals compared with [<=]; [test_func] is
    the objective of the source's main block,
    [numpy.sum(x ** 2) + 2.0 * x[0]], which is the objective
    [x0^2 + x1^2 + 2*x0] in dimension two. *)
Local Open Scope Qc_scope.

Definition qle (a b : Qc) : bool := bool_decide (a ≤ b).

Definition test_func (x : key) : exn + Qc :=
  match x with
  | x0 :: _ => inr (foldr Qcplus 0 ((λ y, y * y) <$> x) + (1 + 1) * x0)
  | [] => inl IndexError
  end.

(** The coordinate [(a + b)/2.0] where the machine computes it exactly, as
    it does for the coordinates 0, 1/2 and 1 of the complexes below. *)
Definition exact_half (a b : Qc) : Qc := (a + b) / (1 + 1).

(** The neighbours of a vertex iterated in the order of [elements]. *)
Definition first_listed : set_order := mkOrder (λ _ _, 0%nat).

(** Two vertices just created, of values [fa] and [fb], not yet
    connected. *)
Definition two_fresh (fa fb : Qc) : list (Vertex (value:=Qc)) :=
  [fresh_vertex [0] fa 0; fresh_vertex [1] fb 1].

Lemma connect_then_disconnect_witness :
  ∃ h1, connect qle 0 1 (two_fresh 0 1) = (inr tt, h1) ∧
    1%nat ∈ nn_of h1 0 ∧ 0%nat ∈ nn_of h1 1 ∧
    (1%nat ∈ (∅ : gset addr) → h1 = two_fresh 0 1) ∧
    connect qle 0 0 (two_fresh 0 1) = (inr tt, two_fresh 0 1) ∧
    (1%nat ∉ (∅ : gset addr) →
       ∃ h2, disconnect 0 1 h1 = (inr tt, h2) ∧
         nn_of h2 0 = ∅ ∧ nn_of h2 1 = ∅ ∧
         graph_of h2 = graph_of (two_fresh 0 1)).
Proof.
  apply (connect_then_disconnect qle (two_fresh 0 1) 0 1
           (fresh_vertex [0] 0 0) (fresh_vertex [1] 1 1)).
  - by apply (bool_decide_unpack _).
  - reflexivity.
  - reflexivity.
  - lia.
  - simpl. split; intros []%not_elem_of_empty.
Defined.


(** C4, the code at a failing input. Two fresh vertices [a] and [b] of
    values 0 and 1.  [a.connect(b)] inserts the edge and returns with both
    dirty bits cleared, the flag of [b] set to false; [a.disconnect(b)]
    then removes the edge and marks only its receiver [a] dirty.  The
    vertex [b] is left without a neighbour, hence a local minimum, with a
    clean cache that says false: [b.minimiser()] answers false, and leaves
    the heap as it is. *)
Lemma connect_marks_nothing_dirty :
  ∃ h1 h2 va1 vb1 va2 vb2,
    connect qle 0 1 (two_fresh 0 1) = (inr tt, h1) ∧
    nn_of (two_fresh 0 1) 0 = ∅ ∧ nn_of h1 0 = {[1%nat]} ∧
    h1 !! 0%nat = Some va1 ∧ h1 !! 1%nat = Some vb1 ∧
    v_check_min va1 = false ∧ v_check_min vb1 = false ∧
    disconnect 0 1 h1 = (inr tt, h2) ∧ nn_of h2 0 = ∅ ∧ nn_of h2 1 = ∅ ∧
    h2 !! 0%nat = Some va2 ∧ h2 !! 1%nat = Some vb2 ∧
    v_check_min va2 = true ∧ v_check_min vb2 = false ∧
    is_local_min qle h2 1 ∧
    minimiser qle 1 h2 = (inr false, h2).
Proof.
  do 6 eexists.
  split; [vm_compute; reflexivity|]. split; [vm_compute; reflexivity|].
  split; [vm_compute; reflexivity|]. split; [vm_compute; reflexivity|].
  split; [vm_compute; reflexivity|]. split; [vm_compute; reflexivity|].
  split; [vm_compute; reflexivity|]. split; [vm_compute; reflexivity|].
  split; [vm_compute; reflexivity|]. split; [vm_compute; reflexivity|].
  split; [vm_compute; reflexivity|]. split; [vm_compute; reflexivity|].
  split; [vm_compute; reflexivity|]. split; [vm_compute; reflexivity|].
  split; [|vm_compute; reflexivity].
  intros va Hva w vw Hw Hvw.
  vm_compute in Hva. injection Hva as <-.
  simpl in Hw. by apply not_elem_of_empty in Hw.
Qed.

(** C3, the code at a failing input. Two fresh vertices of equal value:
    after [a.connect(b)] the vertex [b] is a local minimum of the graph
    (its only neighbour has the same value), yet [b.minimiser()] answers
    false, and keeps doing so. *)
Lemma minimiser_wrong_on_tie :
  ∃ h1, connect qle 0 1 (two_fresh 0 0) = (inr tt, h1) ∧
    is_local_min qle h1 1 ∧
    minimiser qle 1 h1 = (inr false, h1).
Proof.
  eexists. split; [vm_compute; reflexivity|]. split; [|vm_compute; reflexivity].
  intros va Hva w vw Hw Hvw.
  assert (va = cleaned false (set_nn (λ s, s ∪ {[0%nat]}) (fresh_vertex [1] 0 1))) as ->.
  { vm_compute in Hva. by injection Hva as <-. }
  assert (w = 0%nat) as ->.
  { simpl in Hw. set_solver. }
  vm_compute in Hvw. by injection Hvw as <-.
Qed.

(** The same defect through the constructor: with the objective
    [3*x0 + x1 - 2*x0*x1] the corner [(0,0)] has the least value of the
    square, and the constructed complex answers false for it and true for
    the corner [(1,1)], whose neighbour [(0,0)] is lower. *)
Definition skew_func (x : key) : exn + Qc :=
  match x with
  | [x0; x1] => inr ((1 + 1 + 1) * x0 + x1 - (1 + 1) * x0 * x1)
  | _ => inl IndexError
  end.

Lemma skew_square_as_first_listed :
  ∃ s0 a00 a11 v00 v11,
    Complex_init qle skew_func first_listed 2 false = inr s0 ∧
    ∀ g, let s := set_graph g s0 in
    vc_cache (hc_V s) !! [0; 0] = Some a00 ∧
    vc_cache (hc_V s) !! [1; 1] = Some a11 ∧
    vc_objs (hc_V s) !! a00 = Some v00 ∧
    vc_objs (hc_V s) !! a11 = Some v11 ∧
    a00 ∈ v_nn v11 ∧ qle (v_f v11) (v_f v00) = false ∧
    all_le qle (vc_objs (hc_V s)) (v_f v00) (elements (v_nn v00)) = inr true ∧
    (on_heap (minimiser qle a00) s).1 = inr false ∧
    (on_heap (minimiser qle a11) s).1 = inr true.
Proof.
  do 5 eexists. split; [vm_compute; reflexivity|]. intros g s.
  split; [vm_compute; reflexivity|]. split; [vm_compute; reflexivity|].
  split; [vm_compute; reflexivity|]. split; [vm_compute; reflexivity|].
  split; [by apply (bool_decide_unpack _)|].
  vm_compute. repeat split.
Qed.

Lemma minimiser_wrong_in_square :
  ∀ nn_order, ∃ s a00 a11 v00 v11,
    Complex_init qle skew_func nn_order 2 false = inr s ∧
    vc_cache (hc_V s) !! [0; 0] = Some a00 ∧
    vc_cache (hc_V s) !! [1; 1] = Some a11 ∧
    vc_objs (hc_V s) !! a00 = Some v00 ∧
    vc_objs (hc_V s) !! a11 = Some v11 ∧
    a00 ∈ v_nn v11 ∧ qle (v_f v11) (v_f v00) = false ∧
    all_le qle (vc_objs (hc_V s)) (v_f v00) (elements (v_nn v00)) = inr true ∧
    (on_heap (minimiser qle a00) s).1 = inr false ∧
    (on_heap (minimiser qle a11) s).1 = inr true.
Proof.
  intros nn_order.
  destruct skew_square_as_first_listed as (s0 & a00 & a11 & v00 & v11 & Hinit & Hall).
  destruct (Complex_init_any_order qle skew_func first_listed nn_order _ _ _ Hinit)
    as [g Hg].
  exists (set_graph g s0), a00, a11, v00, v11.
  split; [exact Hg|exact (Hall g)].
Qed.

Lemma lookup_same_object_single_call_witness :
  let ops := [Lookup [0; 0]; Lookup [1; 1]; Connect 0 1; Lookup [0; 0]] in
  ∃ a v,
    (∀ i, ops !! i = Some (Lookup [0; 0]) →
          (run_ops qle test_func ops VertexCache_init).1 !! i = Some (inr (Some a))) ∧
    vc_objs (run_ops qle test_func ops VertexCache_init).2 !! a = Some v ∧
    v_x v = [0; 0] ∧ v_f v = 0 ∧
    calls_at [0; 0] (run_ops qle test_func ops VertexCache_init).2 = 1%nat.
Proof.
  apply (lookup_same_object_single_call qle test_func).
  - vm_compute. reflexivity.
  - apply list_elem_of_here.
Defined.

(** C1, counterexample. The objective [test_func] raises [IndexError] at
    the empty key.  Three lookups of that key on a new cache: each of them
    raises, the dictionary never holds the key, and the objective has been
    called at the key three times. *)
Lemma failing_lookup_calls_objective_again :
  let ops := [Lookup []; Lookup []; Lookup []] in
  (run_ops qle test_func ops VertexCache_init).1 =
    [inl IndexError; inl IndexError; inl IndexError] ∧
  vc_cache (run_ops qle test_func ops VertexCache_init).2 !! [] = None ∧
  calls_at [] (run_ops qle test_func ops VertexCache_init).2 = 3%nat.
Proof. vm_compute. repeat split. Qed.

(** The square with the neighbours iterated in the order of [elements],
    and with any adjacency template in the place of the one computed. *)
Lemma square_as_first_listed :
  ∃ s0 cell a00 a10 a01 a11,
    Complex_init qle test_func first_listed 2 false = inr s0 ∧
    ∀ g, let s := set_graph g s0 in
    hc_cells s !! hc_C0 s = Some cell ∧
    vc_cache (hc_V s) !! [0; 0] = Some a00 ∧
    vc_cache (hc_V s) !! [1; 0] = Some a10 ∧
    vc_cache (hc_V s) !! [0; 1] = Some a01 ∧
    vc_cache (hc_V s) !! [1; 1] = Some a11 ∧
    c_C cell ≡ₚ [a00; a10; a01; a11] ∧
    nn_of (vc_objs (hc_V s)) a00 = {[a10; a01; a11]} ∧
    is_local_min qle (vc_objs (hc_V s)) a00 ∧
    (on_heap (minimiser qle a00) s).1 = inr true ∧
    (on_heap (minimiser qle a10) s).1 = inr false ∧
    (on_heap (minimiser qle a01) s).1 = inr false ∧
    (on_heap (minimiser qle a11) s).1 = inr false ∧
    (homology_group_rank qle (hc_C0 s) s).1 = inr 1%nat.
Proof.
  do 6 eexists. split; [vm_compute; reflexivity|]. intros g s.
  split; [vm_compute; reflexivity|].
  split; [vm_compute; reflexivity|]. split; [vm_compute; reflexivity|].
  split; [vm_compute; reflexivity|]. split; [vm_compute; reflexivity|].
  split; [by apply (bool_decide_unpack _)|].
  split; [vm_compute; reflexivity|].
  split; [|vm_compute; repeat split].
  intros va Hva w vw Hw Hvw.
  vm_compute in Hva. injection Hva as <-.
  assert (w = 2 ∨ w = 3 ∨ w = 1)%nat as Hcases.
  { apply elem_of_elements in Hw. vm_compute in Hw.
    repeat (apply elem_of_cons in Hw as [->|Hw]; [tauto|]).
    by apply elem_of_nil in Hw. }
  destruct Hcases as [->|[->| ->]]; vm_compute in Hvw; by injection Hvw as <-.
Qed.

(** C9. Dimension two, the objective [x0^2 + x1^2 + 2*x0], no symmetry,
    whatever the order in which the sets of neighbours are iterated: the
    root cell holds the four corners, [(0,0)] is adjacent to the three
    other corners, [minimiser()] is true for [(0,0)] and false for each of
    the other three, and [homology_group_rank()] of the root cell
    returns 1. *)
Theorem square_has_one_minimiser :
  ∀ nn_order, ∃ s cell a00 a10 a01 a11,
    Complex_init qle test_func nn_order 2 false = inr s ∧
    hc_cells s !! hc_C0 s = Some cell ∧
    vc_cache (hc_V s) !! [0; 0] = Some a00 ∧
    vc_cache (hc_V s) !! [1; 0] = Some a10 ∧
    vc_cache (hc_V s) !! [0; 1] = Some a01 ∧
    vc_cache (hc_V s) !! [1; 1] = Some a11 ∧
    c_C cell ≡ₚ [a00; a10; a01; a11] ∧
    nn_of (vc_objs (hc_V s)) a00 = {[a10; a01; a11]} ∧
    is_local_min qle (vc_objs (hc_V s)) a00 ∧
    (on_heap (minimiser qle a00) s).1 = inr true ∧
    (on_heap (minimiser qle a10) s).1 = inr false ∧
    (on_heap (minimiser qle a01) s).1 = inr false ∧
    (on_heap (minimiser qle a11) s).1 = inr false ∧
    (homology_group_rank qle (hc_C0 s) s).1 = inr 1%nat.
Proof.
  intros nn_order.
  destruct square_as_first_listed
    as (s0 & cell & a00 & a10 & a01 & a11 & Hinit & Hall).
  destruct (Complex_init_any_order qle test_func first_listed nn_order _ _ _ Hinit)
    as [g Hg].
  exists (set_graph g s0), cell, a00, a10, a01, a11.
  split; [exact Hg|exact (Hall g)].
Qed.

Lemma init_nonpositive_dimension_witness :
  (-1 < 0)%Z ∧ Complex_init qle test_func first_listed (-1) false = inl ValueError.
Proof.
  split; [lia|].
  apply (proj1 (init_nonpositive_dimension qle test_func first_listed)). lia.
Defined.

Lemma nonpositive_dimension_outcomes_witness :
  Complex_init qle test_func first_listed (-1) true = inl ValueError ∧
  Complex_init qle test_func first_listed 0 false = inl IndexError ∧
  Complex_init qle (λ _, inr 0) first_listed 0 true = inl IndexError.
Proof.
  split; [|split].
  - apply (proj1 (nonpositive_dimension_outcomes qle test_func first_listed)). lia.
  - apply (proj1 (proj2 (nonpositive_dimension_outcomes qle test_func first_listed))).
    reflexivity.
  - apply (proj2 (proj2 (nonpositive_dimension_outcomes qle (λ _, inr 0) first_listed))
             0 eq_refl).
Defined.

(** C7, counterexample. Dimension 0, no symmetry, a constant objective:
    the constructor returns a complex. *)
Lemma dimension_zero_is_accepted :
  ∃ s, Complex_init qle (λ _, inr 0) first_listed 0 false = inr s ∧
    length (vc_objs (hc_V s)) = 1%nat ∧ hc_H s = [[0%nat]].
Proof. eexists. vm_compute. repeat split. Qed.

(** ** The properties above at concrete complexes *)

Lemma two_fresh_symmetric fa fb : symmetric_nn (two_fresh fa fb).
Proof. intros [|[|a]] b; unfold nn_of; simpl; set_solver. Qed.

Lemma two_fresh_loop_free fa fb : loop_free (two_fresh fa fb).
Proof. intros [|[|a]]; unfold nn_of; simpl; set_solver. Qed.

Lemma minimiser_computes_and_caches_witness :
  ∃ m h', minimiser qle 0 (two_fresh 0 1) = (inr m, h') ∧
    (m = true ↔ is_local_min qle (two_fresh 0 1) 0) ∧
    minimiser qle 0 h' = (inr m, h').
Proof.
  destruct (minimiser_computes_and_caches qle (two_fresh 0 1) 0
              (fresh_vertex [0] 0 0))
    as (m & h' & Hrun & Hm & Hagain & _).
  - by apply (bool_decide_unpack _).
  - reflexivity.
  - reflexivity.
  - by exists m, h'.
Defined.

Lemma connect_keeps_graph_invariants_witness :
  ∃ h', connect qle 0 1 (two_fresh 0 1) = (inr tt, h') ∧
    symmetric_nn h' ∧ loop_free h' ∧
    nn_of h' 0 = {[1%nat]} ∧ nn_of h' 1 = {[0%nat]}.
Proof.
  destruct (connect_keeps_graph_invariants qle (two_fresh 0 1) 0 1)
    as (h' & Hrun & _ & Hsym & Hloop & _ & _ & Hnn).
  - by apply (bool_decide_unpack _).
  - apply two_fresh_symmetric.
  - apply two_fresh_loop_free.
  - simpl. lia.
  - simpl. lia.
  - exists h'. split_and!; try done.
    + rewrite (Hnn ltac:(lia) 0%nat). simpl. unfold nn_of. simpl. set_solver.
    + rewrite (Hnn ltac:(lia) 1%nat). simpl. unfold nn_of. simpl. set_solver.
Defined.


(** Two vertices joined by an edge. *)
Definition two_linked : list (Vertex (value:=Qc)) :=
  [set_nn (λ _, {[1%nat]}) (fresh_vertex [0] 0 0);
   set_nn (λ _, {[0%nat]}) (fresh_vertex [1] 1 1)].

Lemma two_linked_symmetric : symmetric_nn two_linked.
Proof.
  intros [|[|a]] [|[|b]]; unfold nn_of; simpl; set_solver.
Qed.

Lemma two_linked_loop_free : loop_free two_linked.
Proof. intros [|[|a]]; unfold nn_of; simpl; set_solver. Qed.

Lemma disconnect_keeps_graph_invariants_witness :
  1%nat ∈ nn_of two_linked 0 ∧ 0%nat ∈ nn_of two_linked 1 ∧
  ∃ h', disconnect 0 1 two_linked = (inr tt, h') ∧
    heap_ok h' ∧ symmetric_nn h' ∧ loop_free h' ∧
    (1%nat ∉ nn_of h' 0) ∧ (0%nat ∉ nn_of h' 1).
Proof.
  split; [unfold nn_of; simpl; set_solver|].
  split; [unfold nn_of; simpl; set_solver|].
  destruct (disconnect_keeps_graph_invariants two_linked 0 1)
    as (h' & Hrun & Hok & Hsym & Hloop & _ & Hab & Hba & _).
  - by apply (bool_decide_unpack _).
  - apply two_linked_symmetric.
  - apply two_linked_loop_free.
  - simpl. lia.
  - simpl. lia.
  - exists h'. split; [exact Hrun|]. split; [exact Hok|]. split; [exact Hsym|].
    split; [exact Hloop|]. split; [exact Hab|exact Hba].
Defined.

Lemma failed_lookup_consumes_an_index_witness :
  ∃ c1, getitem test_func [] VertexCache_init = (inl IndexError, c1) ∧
    vc_Index c1 = 0%Z ∧
    ∃ a c2 v, getitem test_func [0] c1 = (inr a, c2) ∧
      vc_objs c2 !! a = Some v ∧ a = 0%nat ∧ v_I v = 1%Z.
Proof.
  destruct (failed_lookup_consumes_an_index test_func VertexCache_init
              [] [0] IndexError 0)
    as (c1 & Hrun & _ & Hobjs & HI & _ & _ & a & c2 & v & Hy & Hv & _ & HvI).
  - apply cache_ok_init.
  - reflexivity.
  - reflexivity.
  - reflexivity.
  - reflexivity.
  - exists c1. split_and!; try done.
    exists a, c2, v.
    assert (a = 0%nat) as Ha.
    { vm_compute in Hrun. injection Hrun as <-. vm_compute in Hy. congruence. }
    split_and!; try done. rewrite HvI, Ha. done.
Defined.

(** A complex with one empty cell and no vertex. *)
Definition one_cell : Complex (value:=Qc) :=
  set_cells [mkCell 0 None 0 None [] [] [] None] (blank 1 false).

Lemma add_vertex_no_duplicates_witness :
  ∃ s' cell', add_vertex 0 5 one_cell = (inr tt, s') ∧
    hc_cells s' !! 0%nat = Some cell' ∧ c_C cell' = [5%nat].
Proof.
  destruct (add_vertex_no_duplicates one_cell 0
              (mkCell 0 None 0 None [] [] [] None) 5)
    as (s' & cell' & Hrun & Hc & _ & _ & _ & Happ & _).
  - reflexivity.
  - apply NoDup_nil_2.
  - exists s', cell'. split_and!; try done. apply Happ. simpl. set_solver.
Defined.


(** A complex with two vertices just created and one cell that lists
    them. *)
Definition two_cell : Complex (value:=Qc) :=
  set_cells [mkCell 0 None 0 None [0; 1]%nat [] [] None]
    (set_V (mkCache (two_fresh 0 1) ∅ 1 []) (blank 1 false)).

(** The rank 2 of the cell of [two_cell], computed while its two vertices
    have no neighbour, is returned again after the two have been joined by
    an edge, when a count would give 1. *)
Lemma homology_group_rank_is_cached_witness :
  ∃ s1, homology_group_rank qle 0 two_cell = (inr 2%nat, s1) ∧
    homology_group_rank qle 0 (set_V (mkCache two_linked ∅ 1 []) s1) =
      (inr 2%nat, set_V (mkCache two_linked ∅ 1 []) s1) ∧
    (homology_group_rank qle 0 (set_V (mkCache two_linked ∅ 1 []) two_cell)).1 =
      inr 1%nat.
Proof.
  destruct (homology_group_rank qle 0 two_cell) as [r s1] eqn:Hrun.
  assert (r = inr 2%nat) as ->.
  { vm_compute in Hrun. by injection Hrun as <- _. }
  exists s1. split; [reflexivity|]. split.
  - exact (homology_group_rank_is_cached qle two_cell s1 0 2 Hrun
             (mkCache two_linked ∅ 1 [])).
  - vm_compute. reflexivity.
Defined.

Lemma sub_cell_vertex_selects_coordinates_witness :
  ∃ t1 t2 vec,
    generate_sub_cell_t1 [1; 0] [1; 1] = inr t1 ∧
    generate_sub_cell_t2 [0; 0] [1; 1] = inr t2 ∧
    broadcast2 Qcplus t1 t2 = inr vec ∧ vec = [0; 0].
Proof.
  destruct (sub_cell_vertex_selects_coordinates [1; 0] [0; 0] [1; 1] 2)
    as (t1 & t2 & vec & H1 & H2 & H3 & _ & _ & _ & _ & Hsup).
  - reflexivity.
  - reflexivity.
  - split; [reflexivity|]. repeat constructor; by right.
  - exists t1, t2, vec. split_and!; try done. by apply Hsup.
Defined.

Lemma test_func_total_2 : ∀ x : key, length x = 2%nat → ∃ fx, test_func x = inr fx.
Proof. intros [|x0 x] Hlen; [done|]. simpl. by eexists. Qed.

(** The complex [Complex(2, test_func, symmetry=1)] of the source's main
    block. *)
Definition sym2 : Complex (value:=Qc) :=
  match Complex_init qle test_func first_listed 2 true with
  | inr s => s
  | inl _ => blank 2 true
  end.

Lemma initial_keys_and_layout_witness :
  ∃ s cell0, Complex_init qle test_func first_listed 2 true = inr s ∧
    hc_gen s = 0%nat ∧ hc_H s = [[hc_C0 s]] ∧
    hc_cells s !! hc_C0 s = Some cell0 ∧
    c_C cell0 = seq 0 (length (vc_objs (hc_V s))) ∧
    ∀ y, is_Some (vc_cache (hc_V s) !! y) ↔
         ∃ k, (k ≤ 2)%nat ∧ y = chain_vertex 2 k.
Proof.
  destruct (initial_keys_and_layout qle test_func first_listed 2 test_func_total_2 true)
    as (s & cell0 & Hinit & _ & _ & Hgen & HH & Hc0 & HC & _ & Hkeys).
  - intros _. lia.
  - exists s, cell0. split; [exact Hinit|]. split; [exact Hgen|].
    split; [exact HH|]. split; [exact Hc0|]. split; [exact HC|]. exact Hkeys.
Defined.

Lemma initial_template_is_adjacency_witness :
  ∃ s, Complex_init qle test_func first_listed 2 false = inr s ∧
    length (hc_graph s) = length (vc_objs (hc_V s)) ∧
    (∀ i j ri rj, hc_graph s !! i = Some ri → hc_graph s !! j = Some rj →
       Z.of_nat j ∈ ri → Z.of_nat i ∈ rj).
Proof.
  destruct (initial_template_is_adjacency qle test_func first_listed 2 test_func_total_2 false)
    as (s & Hinit & Hlen & _ & Hsym).
  - intros [=].
  - exists s. split; [exact Hinit|]. split; [exact Hlen|]. exact Hsym.
Defined.

Lemma nonsymmetric_complex_cannot_split_witness :
  ∃ s, Complex_init qle test_func first_listed 2 false = inr s ∧
    split_generation qle test_func exact_half s = (inl TypeError, s).
Proof.
  destruct (nonsymmetric_complex_cannot_split qle test_func exact_half first_listed 2 test_func_total_2)
    as (s & cell0 & Hinit & _ & _ & Hsplit).
  exists s. split; [exact Hinit|exact Hsplit].
Defined.

(** C5, the code at a failing input. The complex [Complex(2, test_func)],
    built without symmetry: its initial cell lists the four corners and
    has no centroid, and [split_generation] raises [TypeError] on it (the
    call [tuple(C_i.centroid)] on [None]) without having built a child cell:
    the complex is as it was, with its one cell and no row for generation
    1. *)
Lemma square_cannot_be_refined :
  ∃ s cell0,
    Complex_init qle test_func first_listed 2 false = inr s ∧
    hc_H s = [[hc_C0 s]] ∧ hc_cells s = [cell0] ∧
    length (c_C cell0) = 4%nat ∧ c_centroid cell0 = None ∧
    split_generation qle test_func exact_half s = (inl TypeError, s).
Proof.
  do 2 eexists. split; [vm_compute; reflexivity|].
  split; [vm_compute; reflexivity|]. split; [vm_compute; reflexivity|].
  split; [vm_compute; reflexivity|]. split; [vm_compute; reflexivity|].
  vm_compute. reflexivity.
Qed.

Lemma initial_vertex_count_witness :
  (0 < 2)%nat ∧
  ∃ s, Complex_init qle test_func first_listed 2 false = inr s ∧
    length (vc_objs (hc_V s)) = 4%nat.
Proof.
  split; [lia|].
  destruct (initial_vertex_count qle test_func first_listed 2 test_func_total_2)
    as [(s & cell & Hinit & _ & _ & Hlen & _) _]; [lia|].
  exists s. split; [exact Hinit|exact Hlen].
Defined.

Lemma initial_complex_vertices_witness :
  (0 < 2)%nat ∧
  (∃ s, Complex_init qle test_func first_listed 2 false = inr s ∧
     length (vc_objs (hc_V s)) = 4%nat ∧ NoDup (v_x <$> vc_objs (hc_V s))) ∧
  (∃ s, Complex_init qle test_func first_listed 2 true = inr s ∧
     length (vc_objs (hc_V s)) = 3%nat ∧ NoDup (v_x <$> vc_objs (hc_V s))).
Proof.
  split; [lia|]. split.
  - destruct (initial_complex_vertices qle test_func first_listed 2 test_func_total_2 false)
      as (s & cell & Hinit & _ & Hlen & _ & Hnd & _); [lia|].
    exists s. split; [exact Hinit|]. split; [exact Hlen|exact Hnd].
  - destruct (initial_complex_vertices qle test_func first_listed 2 test_func_total_2 true)
      as (s & cell & Hinit & _ & Hlen & _ & Hnd & _); [lia|].
    exists s. split; [exact Hinit|]. split; [exact Hlen|exact Hnd].
Defined.

(** An objective that raises at the corner [(1, 1)]. *)
Definition corner_func (x : key) : exn + Qc :=
  if decide (x = [1; 1]) then inl (OtherError 0) else test_func x.

(** C2, counterexample. With the objective [corner_func] the constructor
    raises in dimension 2, with or without symmetry, when the cache holds
    one vertex, the origin. *)
Lemma objective_error_stops_construction :
  Complex_init qle corner_func first_listed 2 false = inl (OtherError 0) ∧
  Complex_init qle corner_func first_listed 2 true = inl (OtherError 0) ∧
  (v_x <$> vc_objs (hc_V (init_body qle corner_func first_listed (blank 2 false)).2)) =
    [[0; 0]] ∧
  (v_x <$> vc_objs (hc_V (init_body qle corner_func first_listed (blank 2 true)).2)) =
    [[0; 0]].
Proof. vm_compute. repeat split. Qed.

Lemma template_indexes_positions_witness :
  (0 < 2)%nat ∧
  ∃ s cell0, Complex_init qle test_func first_listed 2 false = inr s ∧
    hc_cells s !! hc_C0 s = Some cell0 ∧
    length (hc_graph s) = length (c_C cell0) ∧
    ∃ c_new s',
      construct_hypercube qle test_func exact_half [0; 0] [1; 1] 0 None 0 s =
        (inr c_new, s') ∧
      child_built exact_half s cell0 [0; 0] [1; 1] 0 c_new s'.
Proof.
  split; [lia|].
  destruct (template_indexes_positions qle test_func exact_half first_listed 2
              test_func_total_2)
    as (s & cell0 & Hinit & Hc0 & _ & Hlen & _ & Hchild); [lia|].
  destruct (Complex_init_total qle test_func first_listed 2 test_func_total_2 false)
    as (s0 & Hinit0 & _ & _ & _ & _ & HH & _); [intros [=]|].
  assert (s0 = s) as -> by (rewrite Hinit in Hinit0; by injection Hinit0).
  destruct (Hchild s [0; 0] [1; 1] 0%nat None 0%nat)
    as (_ & _ & c_new & s' & Hrun & Hbuilt).
  - constructor.
  - reflexivity.
  - reflexivity.
  - rewrite HH. by eexists.
  - exists s, cell0. split; [exact Hinit|]. split; [exact Hc0|].
    split; [exact Hlen|]. exists c_new, s'. split; [exact Hrun|exact Hbuilt].
Defined.

(** C10, counterexample. In [Complex(2, test_func)] the initial cell lists
    the corners [(0,0)], [(1,1)], [(1,0)], [(0,1)] and row 1 of the template
    records the index 2.  A child cell built with origin [(0,0)] and
    supremum [(1,0)] has the key [(1,0)] at position 1 of [V_new], the
    image of [(1,1)], and at position 2, the image of [(1,0)]: the entry
    [(1, 2)] is replayed as the [connect] of that vertex with itself, which
    connects nothing, and the child cell lists three vertices for the four
    positions. *)
Lemma replay_entry_connects_nothing :
  ∃ s cell0 c s' cell a,
    Complex_init qle test_func first_listed 2 false = inr s ∧
    hc_cells s !! hc_C0 s = Some cell0 ∧
    (λ b, v_x <$> vc_objs (hc_V s) !! b) <$> c_C cell0 =
      [Some [0; 0]; Some [1; 1]; Some [1; 0]; Some [0; 1]] ∧
    (∃ row, hc_graph s !! 1%nat = Some row ∧ 2%Z ∈ row) ∧
    construct_hypercube qle test_func exact_half [0; 0] [1; 0] 0 None 0 s = (inr c, s') ∧
    affine [0; 0] [1; 0] [1; 1] = [1; 0] ∧ affine [0; 0] [1; 0] [1; 0] = [1; 0] ∧
    vc_cache (hc_V s') !! [1; 0] = Some a ∧ (a ∉ nn_of (vc_objs (hc_V s')) a) ∧
    hc_cells s' !! c = Some cell ∧ length (c_C cell) = 3%nat.
Proof.
  do 6 eexists. split; [vm_compute; reflexivity|].
  split; [vm_compute; reflexivity|]. split; [vm_compute; reflexivity|].
  split.
  { eexists. split; [vm_compute; reflexivity|]. by apply (bool_decide_unpack _). }
  split; [vm_compute; reflexivity|]. split; [vm_compute; reflexivity|].
  split; [vm_compute; reflexivity|]. split; [vm_compute; reflexivity|].
  split; [by apply (bool_decide_unpack _)|].
  split; [vm_compute; reflexivity|]. vm_compute. reflexivity.
Qed.

Lemma construct_hypercube_result_witness :
  ∃ c s', construct_hypercube qle test_func exact_half [1; 0] [0; 0] 0 None 0 sym2 = (inr c, s') ∧
    c = length (hc_cells sym2) ∧
    ∃ row, hc_H sym2 !! 0%nat = Some row ∧ hc_H s' = <[0%nat := row ++ [c]]> (hc_H sym2).
Proof.
  destruct (construct_hypercube qle test_func exact_half [1; 0] [0; 0] 0 None 0 sym2)
    as [[e|c] s'] eqn:Hrun.
  - exfalso. vm_compute in Hrun. discriminate Hrun.
  - destruct (construct_hypercube_result qle test_func exact_half _ _ _ _ _ _ _ _ Hrun)
      as (Hc & _ & Hrow & _).
    exists c, s'. split; [reflexivity|]. split; [exact Hc|exact Hrow].
Defined.

Lemma split_generation_children_witness :
  ∃ s1, split_cells qle test_func exact_half sym2 = (inr tt, s1) ∧
    split_generation qle test_func exact_half sym2 = (inr tt, set_gen (S (hc_gen sym2)) s1) ∧
    ∃ row groups, hc_H sym2 !! hc_gen sym2 = Some row ∧
      Forall2 (children_of exact_half s1 (S (hc_gen sym2))) row groups.
Proof.
  destruct (split_cells qle test_func exact_half sym2) as [[e|[]] s1] eqn:Hrun.
  - exfalso. vm_compute in Hrun. discriminate Hrun.
  - destruct (split_generation_children qle test_func exact_half _ _ Hrun)
      as (Hsplit & _ & row & groups & Hrow & Hch & Hnew).
    exists s1. split; [reflexivity|]. split; [exact Hsplit|].
    exists row, groups. split; [exact Hrow|exact Hch].
Defined.

(** An objective that raises at the point [(1, 1/2)]. *)
Definition late_func (x : key) : exn + Qc :=
  if decide (x = [1; 1 / (1 + 1)]) then inl (OtherError 0) else test_func x.

Definition sym2_late : Complex (value:=Qc) :=
  match Complex_init qle late_func first_listed 2 true with
  | inr s => s
  | inl _ => blank 2 true
  end.

Lemma split_generation_failure_witness :
  ∃ e s', split_generation qle late_func exact_half sym2_late = (inl e, s') ∧
    e ≠ IndexError ∧ hc_gen s' = hc_gen sym2_late ∧
    ∀ c cell, hc_cells sym2_late !! c = Some cell → hc_cells s' !! c = Some cell.
Proof.
  destruct (split_generation qle late_func exact_half sym2_late) as [[e|[]] s'] eqn:Hrun.
  - destruct (split_generation_failure qle late_func exact_half _ _ _ Hrun)
      as (He & Hgen & _ & _ & Hcells & _).
    exists e, s'. split; [reflexivity|]. split; [exact He|].
    split; [exact Hgen|exact Hcells].
  - exfalso. vm_compute in Hrun. discriminate Hrun.
Defined.




Lemma complex_homology_group_rank_cached_witness :
  ∃ n, complex_homology_group_rank qle sym2 =
         (inr n, set_hgr n (Z.of_nat n - Z.of_nat (hc_hgr sym2)) sym2).
Proof.
  eexists.
  eapply (complex_homology_group_rank_cached qle sym2 [0%nat] [_]).
  - vm_compute. reflexivity.
  - apply Forall2_cons. split; [|constructor].
    eexists. split; vm_compute; reflexivity.
Defined.

Lemma rank_after_empty_split_witness :
  ∃ s1, split_generation qle test_func exact_half (blank 2 false) = (inr tt, s1) ∧
    hc_gen s1 = 1%nat ∧
    complex_homology_group_rank qle s1 = (inl IndexError, set_hgr 0 (hc_hgrd s1) s1).
Proof.
  destruct (rank_after_empty_split qle test_func exact_half (blank 2 false))
    as (s1 & Hsplit & Hs1 & _ & Hrank).
  - reflexivity.
  - exists s1. split; [exact Hsplit|]. split; [by rewrite Hs1|exact Hrank].
Defined.

Lemma symmetric_complex_splits_once_witness :
  (0 < 2)%nat ∧
  ∃ s s' children, Complex_init qle test_func first_listed 2 true = inr s ∧
    split_generation qle test_func exact_half s = (inr tt, s') ∧ hc_gen s' = 1%nat ∧
    hc_H s' !! 1%nat = Some children ∧ length children = 2%nat.
Proof.
  split; [lia|].
  destruct (symmetric_complex_splits_once qle test_func exact_half first_listed 2 test_func_total_2)
    as (s & cell0 & a & v & s' & children & Hinit & _ & _ & _ & _ & _ &
        Hsplit & Hgen & _ & Hrow & Hlen & _); [lia|].
  exists s, s', children. split; [exact Hinit|]. split; [exact Hsplit|].
  split; [exact Hgen|]. split; [exact Hrow|exact Hlen].
Defined.


Lemma homology_group_rank_counts_minimisers_witness :
  ∃ n s' flags, homology_group_rank qle 0 two_cell = (inr n, s') ∧
    length flags = 2%nat ∧
    n = length (filter (λ m, m = true) flags) ∧
    hc_cells s' !! 0%nat =
      Some (set_hg_n (Some n) (mkCell 0 None 0 None [0; 1]%nat [] [] None)).
Proof.
  destruct (homology_group_rank_counts_minimisers qle two_cell 0
              (mkCell 0 None 0 None [0; 1]%nat [] [] None))
    as (n & s' & flags & Hrun & Hflags & Hn & Hcell & _).
  - reflexivity.
  - reflexivity.
  - by apply (bool_decide_unpack _).
  - repeat constructor; simpl; try lia; intros va [= <-] [=].
  - exists n, s', flags. split; [exact Hrun|].
    split; [by rewrite <-(Forall2_length _ _ _ Hflags)|]. split; [exact Hn|exact Hcell].
Defined.

Lemma construct_hypercube_shape_mismatch_witness :
  ∃ s', construct_hypercube qle test_func exact_half [0; 0] [1; 1; 1] 0 None 0 (blank 2 false) =
          (inl ValueError, s') ∧
    hc_H s' = [].
Proof.
  destruct (construct_hypercube_shape_mismatch qle test_func exact_half (blank 2 false)
              [0; 0] [1; 1; 1] 0 None 0)
    as (s' & Hrun & _ & HH & _).
  - simpl. lia.
  - simpl. lia.
  - simpl. lia.
  - exists s'. split; [exact Hrun|exact HH].
Defined.

Lemma constructor_propagates_objective_error_witness :
  Complex_init qle test_func first_listed 0 false = inl IndexError.
Proof.
  apply (constructor_propagates_objective_error qle test_func first_listed 0 false IndexError).
  - lia.
  - reflexivity.
Defined.
